(** * Kule: the board engine of a "colour lines" game

    A shallow embedding of [Game.ts] and [Ball.ts]: the 9x9 board
    ([Game.field] and the DOM children of [Game.cells]), the breadth-first
    route search [getPath], the line detector [popFives], the spawner
    [randomCells] and the click handler [handleClicks].  The definitions
    come first (the embedding, the notions the specification uses, the
    example boards, the invariants of the loops), then the lemmas about
    each function, then the properties that the specification states.

    JavaScript numbers that hold grid indices are integers here ([Z]);
    arrays are lists read with [!!] and written with [alter]/[<[_:=_]>];
    a JS [Set] of coordinate strings is an insertion-ordered list without
    duplicates; [Math.random] is a stream of naturals read through a
    cursor kept in the game state; rendering-only effects (styles, timers)
    are left out, the 750ms timer of a move is the function
    [handleClicks_timeout]. *)

From Stdlib Require Import ZArith Lia.
From stdpp Require Import base tactics option list numbers.

Local Open Scope Z_scope.

(** ** Generic while-loops

    A loop body either continues with a new loop state ([inl]) or leaves
    the loop with a result ([inr]).  [iter_fuel] runs the body at most
    [p] times, [p] in binary, and stops at the first result, so that the
    astronomically large bounds of the termination proofs cost nothing
    when a loop is evaluated. *)

Fixpoint iter_nat {St R : Type} (body : St → St + R) (n : nat) (s : St)
    : St + R :=
  match n with
  | O => inl s
  | S n' =>
      match body s with
      | inl s' => iter_nat body n' s'
      | inr r => inr r
      end
  end.

Fixpoint iter_fuel {St R : Type} (body : St → St + R) (p : positive) (s : St)
    : St + R :=
  match p with
  | xH => body s
  | xO p' =>
      match iter_fuel body p' s with
      | inl s' => iter_fuel body p' s'
      | inr r => inr r
      end
  | xI p' =>
      match body s with
      | inl s1 =>
          match iter_fuel body p' s1 with
          | inl s2 => iter_fuel body p' s2
          | inr r => inr r
          end
      | inr r => inr r
      end
  end.

(** ** Data model *)

(** [interface Coordinates { x: number; y: number }] *)
Record Coordinates := Coord { x : Z; y : Z }.

#[global] Instance Coordinates_eq_dec : EqDecision Coordinates.
Proof. solve_decision. Defined.

(** [interface PathfindingResult { path: Coordinates[]; found: boolean }] *)
Record PathfindingResult := { path : list Coordinates; found : bool }.

(** [type Color] of Ball.ts. *)
Inductive Color := black | white | red | lime | blue | orange | yellow.

#[global] Instance Color_eq_dec : EqDecision Color.
Proof. solve_decision. Defined.

(** A ball is a DOM element; [ball_id] is its identity as a node and
    [color] its [style.backgroundColor]. *)
Record Ball := { ball_id : nat; color : Color }.

#[global] Instance Ball_eq_dec : EqDecision Ball.
Proof. solve_decision. Defined.

(** [Game.size], [Game.ballCount], [Game.colors]. *)
Definition size : Z := 9.
Definition ballCount : Z := 3.
Definition colors : list Color := [black; white; red; lime; blue; orange; yellow].

(** The static fields of [Game].  [cells] keeps, for every cell element,
    the list of its child nodes (all of them balls); [ended] records that
    [Game.end] has run; [fresh] numbers the DOM nodes created so far and
    [cursor] counts the calls of [Math.random] made so far. *)
Record Game := {
  field : list (list Z);
  cells : list (list (list Ball));
  selected : option Ball;
  selectedIndex : option Coordinates;
  nextColors : list Color;
  points : Z;
  ended : bool;
  fresh : nat;
  cursor : nat;
}.

(** The initial values of the static fields: [Game.field] is 9x9 zeros,
    the cells made by [createCells] have no child, nothing is selected,
    [nextColors] is empty and the score is 0. *)
Definition empty_field : list (list Z) :=
  replicate (Z.to_nat size) (replicate (Z.to_nat size) 0).
Definition empty_cells : list (list (list Ball)) :=
  replicate (Z.to_nat size) (replicate (Z.to_nat size) []).

Definition new_game : Game :=
  {| field := empty_field; cells := empty_cells; selected := None;
     selectedIndex := None; nextColors := []; points := 0; ended := false;
     fresh := 0; cursor := 0 |}.

(** [Game.field[x][y]], [undefined] being [None].  The indices are never
    negative where the code reads or writes its arrays: every access is
    guarded by the bounds test or uses a loop index, a drawn cell or the
    cell of a click. *)
Definition field_at (f : list (list Z)) (i j : Z) : option Z :=
  row ← f !! Z.to_nat i; row !! Z.to_nat j.

(** [Game.field[x][y] = v]. *)
Definition field_set (f : list (list Z)) (i j : Z) (v : Z) : list (list Z) :=
  alter (λ row, <[Z.to_nat j := v]> row) (Z.to_nat i) f.

(** The children of [Game.cells[x][y]]. *)
Definition children (c : list (list (list Ball))) (i j : Z) : list Ball :=
  default [] (row ← c !! Z.to_nat i; row !! Z.to_nat j).

Definition set_children (c : list (list (list Ball))) (i j : Z)
    (k : list Ball) : list (list (list Ball)) :=
  alter (λ row, <[Z.to_nat j := k]> row) (Z.to_nat i) c.

(** [newX >= 0 && newX < Game.size && newY >= 0 && newY < Game.size] *)
Definition in_bounds (i j : Z) : bool :=
  (0 <=? i) && (i <? size) && (0 <=? j) && (j <? size).

(** The 81 cells of the board, row by row. *)
Definition all_cells : list Coordinates :=
  i ← seqZ 0 size; j ← seqZ 0 size; [Coord i j].

(** A JS [Set] of the strings [`${x},${y}`]: its elements in insertion
    order, without repetition. *)
Definition set_has (k : Coordinates) (s : list Coordinates) : bool :=
  bool_decide (k ∈ s).
Definition set_add (k : Coordinates) (s : list Coordinates) : list Coordinates :=
  if set_has k s then s else s ++ [k].

(** ** [Game.getPath] *)

(** The loop state of the search: [queue] and [visited]. *)
Record Search := {
  queue : list (Coordinates * list Coordinates);
  visited : list Coordinates;
}.

(** [directions] of [getPath] and [checkMovement]. *)
Definition directions : list Coordinates :=
  [Coord 0 1; Coord 0 (-1); Coord 1 0; Coord (-1) 0].

(** One turn of the inner [for (... of directions)] loop. *)
Definition explore (f : list (list Z)) (vis : list Coordinates)
    (current : Coordinates) (p : list Coordinates)
    (q : list (Coordinates * list Coordinates)) (d : Coordinates)
    : list (Coordinates * list Coordinates) :=
  let newX := x current + x d in
  let newY := y current + y d in
  if in_bounds newX newY && negb (set_has (Coord newX newY) vis)
     && bool_decide (field_at f newX newY = Some 0)
  then q ++ [(Coord newX newY, p ++ [current])]
  else q.

(** One turn of [while (queue.length > 0)]. *)
Definition getPath_body (f : list (list Z)) (end_ : Coordinates)
    (s : Search) : Search + PathfindingResult :=
  match queue s with
  | [] => inr {| path := []; found := false |}
  | (current, p) :: rest =>
      if (x current =? x end_) && (y current =? y end_)
      then inr {| path := p ++ [current]; found := true |}
      else
        let vis := set_add current (visited s) in
        inl {| queue := foldl (explore f vis current p) rest directions;
               visited := vis |}
  end.

(** More turns than the loop can ever take (see [getPath_loop_returns]). *)
Definition getPath_fuel : positive := Eval vm_compute in (5 ^ 84)%positive.

Definition getPath_loop (f : list (list Z)) (start end_ : Coordinates)
    : Search + PathfindingResult :=
  iter_fuel (getPath_body f end_) getPath_fuel
    {| queue := [(start, [])]; visited := [] |}.

(** [Game.getPath(start, end)], reading [Game.field].  The second branch
    stands for a loop that is still running when the fuel is spent, which
    never happens. *)
Definition getPath (f : list (list Z)) (start end_ : Coordinates)
    : PathfindingResult :=
  match getPath_loop f start end_ with
  | inr r => r
  | inl _ => {| path := []; found := false |}
  end.

(** ** [Game.end] *)

(** Only the fact that the game was ended is kept of [Game.end]: it
    freezes the page and shows the final score. *)
Definition Game_end (g : Game) : Game :=
  {| field := field g; cells := cells g; selected := selected g;
     selectedIndex := selectedIndex g; nextColors := nextColors g;
     points := points g; ended := true; fresh := fresh g; cursor := cursor g |}.

(** The count of [emptyCells] made in [randomCells] and in [popFives]. *)
Definition emptyCells (f : list (list Z)) : Z :=
  foldl (λ n row, foldl (λ n cell, if cell =? 0 then n + 1 else n) n row) 0 f.

(** ** [Game.popFives] *)

(** [ballColors[i][j]]: the colour of the first child of the cell, if any. *)
Definition ballColors (c : list (list (list Ball))) (i j : Z) : option Color :=
  color <$> head (children c i j).

(** [directions] of [popFives]. *)
Definition line_directions : list Coordinates :=
  [Coord 1 0; Coord 0 1; Coord 1 1; Coord 1 (-1)].

(** The [for (let i = 0; i < 5; i++)] loop of [checkDirection], with its
    [break]; it returns [count] and [tempDelete]. *)
Fixpoint scan (c : list (list (list Ball))) (col : Color)
    (x0 y0 incrX incrY : Z) (steps : list Z) (count : Z)
    (tempDelete : list Coordinates) : Z * list Coordinates :=
  match steps with
  | [] => (count, tempDelete)
  | i :: steps' =>
      let newX := x0 + i * incrX in
      let newY := y0 + i * incrY in
      if in_bounds newX newY && bool_decide (ballColors c newX newY = Some col)
      then scan c col x0 y0 incrX incrY steps' (count + 1)
                (tempDelete ++ [Coord newX newY])
      else (count, tempDelete)
  end.

(** [checkDirection(x, y, incrX, incrY)], acting on [toDelete]. *)
Definition checkDirection (c : list (list (list Ball)))
    (toDelete : list Coordinates) (x0 y0 incrX incrY : Z) : list Coordinates :=
  match ballColors c x0 y0 with
  | None => toDelete
  | Some col =>
      let '(count, tempDelete) := scan c col x0 y0 incrX incrY (seqZ 0 5) 0 [] in
      if 5 <=? count
      then foldl (λ td k, set_add k td) toDelete tempDelete
      else toDelete
  end.

(** The set [toDelete] once all cells were checked in all directions. *)
Definition detect_runs (c : list (list (list Ball))) : list Coordinates :=
  foldl (λ td i,
    foldl (λ td j,
      foldl (λ td d, checkDirection c td i j (x d) (y d)) td line_directions)
      td (seqZ 0 size))
    [] (seqZ 0 size).

(** [toDelete.forEach]: the marked cells get [-1] in [Game.field]. *)
Definition mark (f : list (list Z)) (toDelete : list Coordinates)
    : list (list Z) :=
  foldl (λ f k, field_set f (x k) (y k) (-1)) f toDelete.

(** One turn of the loop that empties the marked cells and scores them. *)
Definition sweep_cell (g : Game) (k : Coordinates) : Game :=
  if bool_decide (field_at (field g) (x k) (y k) = Some (-1))
  then {| field := field_set (field g) (x k) (y k) 0;
          cells := set_children (cells g) (x k) (y k) [];
          selected := selected g; selectedIndex := selectedIndex g;
          nextColors := nextColors g; points := points g + 1;
          ended := ended g; fresh := fresh g; cursor := cursor g |}
  else g.

Definition sweep (g : Game) : Game :=
  foldl (λ g i, foldl (λ g j, sweep_cell g (Coord i j)) g (seqZ 0 size))
    g (seqZ 0 size).

Definition with_field (g : Game) (f : list (list Z)) : Game :=
  {| field := f; cells := cells g; selected := selected g;
     selectedIndex := selectedIndex g; nextColors := nextColors g;
     points := points g; ended := ended g; fresh := fresh g;
     cursor := cursor g |}.

(** [Game.popFives()]: the game afterwards and the returned [popped]. *)
Definition popFives (g : Game) : Game * bool :=
  let toDelete := detect_runs (cells g) in
  let popped := negb (bool_decide (toDelete = [])) in
  let g1 := sweep (with_field g (mark (field g) toDelete)) in
  let g2 := if emptyCells (field g1) =? 0 then Game_end g1 else g1 in
  (g2, popped).

(** ** Randomness and [new Ball] *)

(** [Math.floor(Math.random() * n)] for the stream [rnd]: a value below
    [n], and the cursor moves on. *)
Definition random_below (rnd : nat → nat) (n : nat) (g : Game) : Z * Game :=
  (Z.of_nat (rnd (cursor g) mod n),
   {| field := field g; cells := cells g; selected := selected g;
      selectedIndex := selectedIndex g; nextColors := nextColors g;
      points := points g; ended := ended g; fresh := fresh g;
      cursor := S (cursor g) |}).

(** [Game.colors[k]]; [k] is always below [colors.length]. *)
Definition pick_color (k : Z) : Color := default black (colors !! Z.to_nat k).

(** [new Ball(colorOverride)]: a fresh element whose colour is the
    override or, when that is [undefined], a random one. *)
Definition Ball_new (rnd : nat → nat) (colorOverride : option Color)
    (g : Game) : Ball * Game :=
  let id := fresh g in
  let g1 := {| field := field g; cells := cells g; selected := selected g;
               selectedIndex := selectedIndex g; nextColors := nextColors g;
               points := points g; ended := ended g; fresh := S (fresh g);
               cursor := cursor g |} in
  match colorOverride with
  | Some col => ({| ball_id := id; color := col |}, g1)
  | None =>
      let '(k, g2) := random_below rnd (length colors) g1 in
      ({| ball_id := id; color := pick_color k |}, g2)
  end.

(** ** [Game.randomCells] *)

(** The variables of the placement loop. *)
Record Spawn := {
  sp_i : Z;
  tryCounter : Z;
  obstacles : list (Z * Z);
  sp_game : Game;
}.

(** How the placement loop is left: by its condition [i > 0] turning
    false, or by the [return] after [Game.end()]. *)
Inductive SpawnExit :=
| loop_done (s : Spawn)
| game_over (s : Spawn).

(** The body of the first [if]: a ball is put on the free cell [(r0, r1)];
    its colour is popped off the end of [Game.nextColors]. *)
Definition place (rnd : nat → nat) (r0 r1 : Z) (g : Game) : Game :=
  let g1 := {| field := field_set (field g) r0 r1 1; cells := cells g;
               selected := selected g; selectedIndex := selectedIndex g;
               nextColors := removelast (nextColors g);
               points := points g; ended := ended g; fresh := fresh g;
               cursor := cursor g |} in
  let '(ball, g2) := Ball_new rnd (list.last (nextColors g)) g1 in
  {| field := field g2;
     cells := set_children (cells g2) r0 r1 (children (cells g2) r0 r1 ++ [ball]);
     selected := selected g2; selectedIndex := selectedIndex g2;
     nextColors := nextColors g2; points := points g2; ended := ended g2;
     fresh := fresh g2; cursor := cursor g2 |}.

(** One turn of [for (let i = Game.ballCount; i > 0; i--)]. *)
Definition randomCells_body (rnd : nat → nat) (s : Spawn) : Spawn + SpawnExit :=
  if sp_i s <=? 0 then inr (loop_done s)
  else
    let '(r0, g1) := random_below rnd (Z.to_nat size) (sp_game s) in
    let '(r1, g2) := random_below rnd (Z.to_nat size) g1 in
    if bool_decide (field_at (field g2) r0 r1 = Some 0) then
      inl {| sp_i := sp_i s - 1; tryCounter := 0;
             obstacles := obstacles s ++ [(r0, r1)];
             sp_game := place rnd r0 r1 g2 |}
    else if tryCounter s >? size * size then
      if emptyCells (field g2) =? 0
      then inr (game_over {| sp_i := sp_i s; tryCounter := tryCounter s;
                             obstacles := obstacles s;
                             sp_game := Game_end g2 |})
      else inl {| sp_i := sp_i s - 1; tryCounter := tryCounter s;
                  obstacles := obstacles s; sp_game := g2 |}
    else
      inl {| sp_i := sp_i s + 1 - 1; tryCounter := tryCounter s + 1;
             obstacles := obstacles s; sp_game := g2 |}.

(** More turns than the placement loop can take (see
    [randomCells_loop_nat]). *)
Definition randomCells_fuel : positive := 512.

Definition spawn0 (g : Game) : Spawn :=
  {| sp_i := ballCount; tryCounter := 0; obstacles := []; sp_game := g |}.

Definition randomCells_loop (rnd : nat → nat) (g : Game) : Spawn + SpawnExit :=
  iter_fuel (randomCells_body rnd) randomCells_fuel (spawn0 g).

(** "Generate next colors for preview balls": [Game.nextColors] becomes
    an array of [ballCount] placeholders ("transparent" in the source,
    [black] here), each of which is then overwritten by a drawn colour. *)
Definition refill (rnd : nat → nat) (g : Game) : Game :=
  foldl (λ g i,
    let '(k, g1) := random_below rnd (length colors) g in
    {| field := field g1; cells := cells g1; selected := selected g1;
       selectedIndex := selectedIndex g1;
       nextColors := <[Z.to_nat i := pick_color k]> (nextColors g1);
       points := points g1; ended := ended g1; fresh := fresh g1;
       cursor := cursor g1 |})
    {| field := field g; cells := cells g; selected := selected g;
       selectedIndex := selectedIndex g;
       nextColors := replicate (Z.to_nat ballCount) black;
       points := points g; ended := ended g; fresh := fresh g;
       cursor := cursor g |}
    (seqZ 0 ballCount).

(** [Game.randomCells()].  The last branch stands for a loop still
    running when the fuel is spent, which never happens. *)
Definition randomCells (rnd : nat → nat) (g : Game) : Game :=
  match randomCells_loop rnd g with
  | inr (loop_done s) => (popFives (refill rnd (sp_game s))).1
  | inr (game_over s) => sp_game s
  | inl s => sp_game s
  end.

(** ** [Game.checkMovement] and [Game.handleClicks] *)

(** [Game.cells.flat().findIndex(cell => cell.contains(ball))] *)
Definition findIndex (c : list (list (list Ball))) (ball : Ball) : Z :=
  match list_find (λ kids, ball_id ball ∈ ball_id <$> kids) (concat c) with
  | Some (i, _) => Z.of_nat i
  | None => -1
  end.

Definition checkMovement (g : Game) (ball : Ball) : bool :=
  let ballCoords := findIndex (cells g) ball in
  let ballX := ballCoords `div` size in
  let ballY := ballCoords `rem` size in
  existsb (λ d,
    let newX := ballX + x d in
    let newY := ballY + y d in
    in_bounds newX newY && bool_decide (field_at (field g) newX newY = Some 0))
    directions.

Definition select (g : Game) (sel : option Ball) (idx : option Coordinates)
    : Game :=
  {| field := field g; cells := cells g; selected := sel;
     selectedIndex := idx; nextColors := nextColors g; points := points g;
     ended := ended g; fresh := fresh g; cursor := cursor g |}.

(** [clicked.appendChild(ball)]: the node leaves its parent and becomes
    the last child of the cell [(i, j)]. *)
Definition appendChild (c : list (list (list Ball))) (i j : Z) (ball : Ball)
    : list (list (list Ball)) :=
  let c1 := map (map (filter (λ b, ball_id b ≠ ball_id ball))) c in
  set_children c1 i j (children c1 i j ++ [ball]).

(** [Game.handleClicks(clicked, coords)] up to the point where it sets
    the 750ms timer, [clicked] being the cell element at [coords].  The
    second component is [Some popped] when the timer was set.  The last
    branch is a click on an empty cell with nothing selected (and the
    case, which the code never reaches, of a selection without index). *)
Definition handleClicks (coords : Coordinates) (g : Game) : Game * option bool :=
  match head (children (cells g) (x coords) (y coords)) with
  | Some ball =>
      if bool_decide (ball_id <$> selected g = Some (ball_id ball))
      then (select g None None, None)
      else if checkMovement g ball
      then (select g (Some ball) (Some coords), None)
      else (g, None)
  | None =>
      match selected g, selectedIndex g with
      | Some sel, Some idx =>
          let p := getPath (field g) idx coords in
          if found p then
            let c1 := appendChild (cells g) (x coords) (y coords) sel in
            let f1 := field_set (field g) (x coords) (y coords) 1 in
            let f2 := field_set f1 (x idx) (y idx) 0 in
            let g1 := {| field := f2; cells := c1; selected := selected g;
                         selectedIndex := selectedIndex g;
                         nextColors := nextColors g; points := points g;
                         ended := ended g; fresh := fresh g;
                         cursor := cursor g |} in
            let '(g2, popped) := popFives g1 in
            (select g2 None None, Some popped)
          else (select g None None, None)
      | _, _ => (g, None)
      end
  end.

(** The callback of the timer: [if (!popped) Game.randomCells()]. *)
Definition handleClicks_timeout (rnd : nat → nat) (popped : bool) (g : Game)
    : Game :=
  if popped then g else randomCells rnd g.

(** script.ts: once the page is loaded, [Game.createCells()] builds the
    empty board and [Game.randomCells()] spawns the first balls. *)
Definition first_spawn (rnd : nat → nat) : Game := randomCells rnd new_game.

(** ** [Game.createCells]: the listeners of a cell *)

(** The [mouseover] listener of the cell at [coords]: with a ball
    selected, every cell gets its plain background back and the cells of
    the returned list are then highlighted; with nothing selected the
    listener does nothing ([None]).  As in [handleClicks], a selection
    without index does not occur. *)
Definition mouseover (coords : Coordinates) (g : Game)
    : option (list Coordinates) :=
  match selected g, selectedIndex g with
  | Some _, Some idx =>
      let p := getPath (field g) idx coords in
      Some (if found p && (1 <? Z.of_nat (length (path p))) then path p else [])
  | _, _ => None
  end.

(** A click on the cell at [coords] together with the timer callback it
    may set.  While the timer runs the board takes no click
    ([pointerEvents = "none"]), and [Game.end] replaces the cells by
    clones without listeners, so that a game that is over takes none
    either. *)
Definition turn (rnd : nat → nat) (coords : Coordinates) (g : Game) : Game :=
  if ended g then g
  else
    let '(g1, timer) := handleClicks coords g in
    match timer with
    | Some popped => handleClicks_timeout rnd popped g1
    | None => g1
    end.

(** The game after the page was loaded and the cells at [clicks] were
    clicked one after the other. *)
Definition play (rnd : nat → nat) (clicks : list Coordinates) : Game :=
  foldl (λ g coords, turn rnd coords g) (first_spawn rnd) clicks.

(** ** Routes, as the specification describes them *)

(** A cell a marker can step on: inside the board and empty in [f]. *)
Definition passable (f : list (list Z)) (c : Coordinates) : bool :=
  in_bounds (x c) (y c) && bool_decide (field_at f (x c) (y c) = Some 0).

(** Orthogonal adjacency: one step up, down, left or right. *)
Definition adjacent (c n : Coordinates) : bool :=
  bool_decide (Z.abs (x n - x c) + Z.abs (y n - y c) = 1).

(** [linked f c l]: [l] continues a route that stands on [c], each step
    going to an adjacent passable cell. *)
Fixpoint linked (f : list (list Z)) (c : Coordinates) (l : list Coordinates)
    : bool :=
  match l with
  | [] => true
  | n :: l' => adjacent c n && passable f n && linked f n l'
  end.

(** [route f s e l]: the cells [l] lead from [s] to [e], both included. *)
Definition route (f : list (list Z)) (s e : Coordinates)
    (l : list Coordinates) : bool :=
  match l with
  | [] => false
  | c :: l' => bool_decide (c = s) && bool_decide (list.last l = Some e) && linked f c l'
  end.

(** ** Lines of five, as the specification describes them *)

(** The four axes of a line, in the words of the specification:
    horizontal, vertical, diagonal down-right, diagonal down-left. *)
Definition axes : list Coordinates :=
  [Coord 0 1; Coord 1 0; Coord 1 1; Coord 1 (-1)].

(** The [i]-th cell of the window that starts at [s] and runs along [d]. *)
Definition window_cell (s d : Coordinates) (i : Z) : Coordinates :=
  Coord (x s + i * x d) (y s + i * y d).

(** Five consecutive cells from [s] along [d], all inside the board and
    all holding a ball of the colour [col]. *)
Definition window (c : list (list (list Ball))) (s d : Coordinates)
    (col : Color) : Prop :=
  ∀ i, 0 ≤ i < 5 →
    in_bounds (x (window_cell s d i)) (y (window_cell s d i)) = true ∧
    ballColors c (x (window_cell s d i)) (y (window_cell s d i)) = Some col.

(** [k] lies in some window of five same-coloured cells along an axis. *)
Definition in_run (c : list (list (list Ball))) (k : Coordinates) : Prop :=
  ∃ s d col i, d ∈ axes ∧ window c s d col ∧ 0 ≤ i < 5 ∧ k = window_cell s d i.

(** ** Sound boards *)

(** A field whose 81 cells all exist and hold 0 (empty) or 1 (occupied). *)
Definition field_ok (f : list (list Z)) : bool :=
  forallb (λ k, bool_decide (field_at f (x k) (y k) = Some 0)
                || bool_decide (field_at f (x k) (y k) = Some 1)) all_cells.

(** Cell elements that all exist: [Game.cells] is a 9x9 array. *)
Definition cells_ok (c : list (list (list Ball))) : bool :=
  forallb (λ k, bool_decide (is_Some (row ← c !! Z.to_nat (x k);
                                        row !! Z.to_nat (y k)))) all_cells.

(** A board as the game keeps it: sound field and cells, and in every
    cell the field holds the number of balls among the children, 0 or 1. *)
Definition board_ok (g : Game) : bool :=
  field_ok (field g) && cells_ok (cells g)
  && forallb (λ k, bool_decide
               (field_at (field g) (x k) (y k)
                = Some (Z.of_nat (length (children (cells g) (x k) (y k))))))
       all_cells.

(** ** Well-formed games *)

(** A 9x9 array: [size] rows of [size] entries. *)
Definition shape_ok {A} (m : list (list A)) : bool :=
  bool_decide (length m = Z.to_nat size)
  && forallb (λ row, bool_decide (length row = Z.to_nat size)) m.

(** The balls on the board, cell by cell. *)
Definition balls (c : list (list (list Ball))) : list Ball :=
  k ← all_cells; children c (x k) (y k).

(** The balls on the board are distinct DOM nodes, all created before
    the next one that [new Ball] will make. *)
Definition ids_ok (g : Game) : bool :=
  bool_decide (NoDup (ball_id <$> balls (cells g)))
  && forallb (λ b, ball_id b <? fresh g)%nat (balls (cells g)).

(** [Game.selected] and [Game.selectedIndex] are set together, and the
    selected ball is the one child of the cell at the index. *)
Definition selection_ok (g : Game) : bool :=
  match selected g, selectedIndex g with
  | Some sel, Some idx =>
      in_bounds (x idx) (y idx)
      && bool_decide (children (cells g) (x idx) (y idx) = [sel])
  | None, None => true
  | _, _ => false
  end.

(** A well-formed game: a consistent 9x9 board of distinct nodes, with a
    selection that is in order. *)
Definition game_ok (g : Game) : bool :=
  board_ok g && shape_ok (field g) && shape_ok (cells g) && ids_ok g
  && selection_ok g.

(** A field without an empty cell: every cell of the board holds 1. *)
Definition full (f : list (list Z)) : bool :=
  forallb (λ k, bool_decide (field_at f (x k) (y k) = Some 1)) all_cells.

(** The board of [handleClicks] right after the selected ball [sel] was
    moved from [idx] to [coords], before [popFives] runs. *)
Definition moved (g : Game) (sel : Ball) (idx coords : Coordinates) : Game :=
  {| field := field_set (field_set (field g) (x coords) (y coords) 1)
                (x idx) (y idx) 0;
     cells := appendChild (cells g) (x coords) (y coords) sel;
     selected := selected g; selectedIndex := selectedIndex g;
     nextColors := nextColors g; points := points g; ended := ended g;
     fresh := fresh g; cursor := cursor g |}.

(** ** Boards used in examples *)

(** A ball put on the board by hand, as a test would set it up. *)
Definition put (b : Ball) (k : Coordinates) (g : Game) : Game :=
  {| field := field_set (field g) (x k) (y k) 1;
     cells := set_children (cells g) (x k) (y k)
                (children (cells g) (x k) (y k) ++ [b]);
     selected := selected g; selectedIndex := selectedIndex g;
     nextColors := nextColors g; points := points g; ended := ended g;
     fresh := fresh g; cursor := cursor g |}.

(** An empty board but for one occupied cell at [(4, 5)]. *)
Definition one_ball_field : list (list Z) := field_set empty_field 4 5 1.

(** A board on which no two neighbouring cells share a colour: the cell
    [(i, j)] holds a ball of colour number [(i + 2 j) mod 7], except for
    the cells of [free], which are empty, and the cells of [reds], which
    hold a red ball; [queue] is the pending [Game.nextColors]. *)
Definition patterned (free reds : list Coordinates) (queue : list Color) : Game :=
  foldl (λ g k,
    if bool_decide (k ∈ free) then g
    else put {| ball_id := Z.to_nat (9 * x k + y k);
                color := if bool_decide (k ∈ reds) then red
                         else pick_color ((x k + 2 * y k) `mod` 7) |} k g)
    {| field := empty_field; cells := empty_cells; selected := None;
       selectedIndex := None; nextColors := queue; points := 0;
       ended := false; fresh := 81; cursor := 0 |}
    all_cells.

(** 78 balls, no line of five, three free cells in the last row. *)
Definition crowded_game : Game :=
  patterned [Coord 8 6; Coord 8 7; Coord 8 8] [] [orange; white; black].

(** A stream whose draws never reach row 8 or column 8. *)
Definition low_draws (n : nat) : nat := (n mod 8)%nat.

(** Two free cells, [(0, 3)] and [(0, 4)], that complete a red line in
    the first row, and a queue whose last two colours are red. *)
Definition lined_game : Game :=
  patterned [Coord 0 3; Coord 0 4] [Coord 0 0; Coord 0 1; Coord 0 2]
    [black; red; red].

(** A stream that draws [(0, 3)], then [(0, 4)], then [(0, 0)] for ever. *)
Definition lined_draws (n : nat) : nat :=
  match n with 1 => 3 | 3 => 4 | _ => 0 end%nat.

(** A new board with a queue of three distinct colours. *)
Definition queued_game : Game :=
  {| field := empty_field; cells := empty_cells; selected := None;
     selectedIndex := None; nextColors := [red; lime; blue]; points := 0;
     ended := false; fresh := 0; cursor := 0 |}.

(** A stream that draws the cells [(0, 0)], [(1, 1)], [(2, 2)], ... *)
Definition diagonal_draws (n : nat) : nat := (n / 2)%nat.

(** Five balls of the colour [col] at [(0, 0)] .. [(0, 4)], nothing else. *)
Definition row_of_five (col : Color) : Game :=
  foldl (λ g k, put {| ball_id := Z.to_nat (y k); color := col |} k g)
    new_game [Coord 0 0; Coord 0 1; Coord 0 2; Coord 0 3; Coord 0 4].

(** A selected ball at [(0, 0)] in a pocket of four cells, closed by balls
    at [(0, 2)], [(1, 2)], [(2, 0)], [(2, 1)] and [(2, 2)]. *)
Definition pocket_game : Game :=
  select
    (foldl (λ g k, put {| ball_id := Z.to_nat (9 * x k + y k); color := blue |} k g)
       new_game
       [Coord 0 0; Coord 0 2; Coord 1 2; Coord 2 0; Coord 2 1; Coord 2 2])
    (Some {| ball_id := 0; color := blue |}) (Some (Coord 0 0)).

(** As [lined_game], with a third free cell at [(5, 5)]. *)
Definition lined_game3 : Game :=
  patterned [Coord 0 3; Coord 0 4; Coord 5 5] [Coord 0 0; Coord 0 1; Coord 0 2]
    [black; red; red].

(** A stream that draws [(0, 3)], then [(0, 4)], then [(5, 5)]. *)
Definition lined_draws3 (n : nat) : nat :=
  match n with 1 => 3 | 3 => 4 | 4 => 5 | 5 => 5 | _ => 0 end%nat.

(** A game with a ball selected: the ball at [(8, 5)] of [crowded_game],
    next to the free cell [(8, 6)]. *)
Definition picked_game : Game :=
  select crowded_game (Some {| ball_id := 77; color := blue |})
    (Some (Coord 8 5)).

(** ** Invariants and measures of the loops

    What the proofs below keep track of while the two loops run. *)

(** The cell reached from [c] by the direction [d]. *)
Definition shift (c d : Coordinates) : Coordinates :=
  Coord (x c + x d) (y c + y d).

(** The test of the [if] in [getPath]'s inner loop. *)
Definition open (f : list (list Z)) (vis : list Coordinates)
    (n : Coordinates) : bool :=
  in_bounds (x n) (y n) && negb (set_has n vis)
  && bool_decide (field_at f (x n) (y n) = Some 0).

Section SearchState.
Variables (f : list (list Z)) (start end_ : Coordinates).

(** [walk p c]: the search can have built the entry [(c, p)]; the cells
    [p ++ [c]] start at [start] and each further one is passable and
    adjacent to the one before. *)
Inductive walk : list Coordinates → Coordinates → Prop :=
| walk_start : walk [] start
| walk_step p c n :
    walk p c → adjacent c n = true → passable f n = true →
    walk (p ++ [c]) n.

Definition search0 : Search := {| queue := [(start, [])]; visited := [] |}.

(** What one turn of the loop does. *)
Definition pushed (vis : list Coordinates) (cur : Coordinates)
    (p : list Coordinates) : list (Coordinates * list Coordinates) :=
  map (λ n, (n, p ++ [cur]))
      (filter (λ n, open f vis n) (map (shift cur) directions)).

(** The invariant of the search.

    Every queue entry [(c, p)] is a walk, its cells before [c] have all
    been visited, and its cells are pairwise distinct. *)
Record search_inv (s : Search) : Prop := {
  inv_walk : ∀ c p, (c, p) ∈ queue s → walk p c;
  inv_seen : ∀ c p k, (c, p) ∈ queue s → k ∈ p → k ∈ visited s;
  inv_fresh : ∀ c p, (c, p) ∈ queue s → c ∉ p;
  inv_nodup : ∀ c p, (c, p) ∈ queue s → NoDup p;
}.

(** Termination measure of the search: an entry with [n] cells before
    its end weighs [5 ^ (83 - n)], more than the four entries it can
    push. *)
Definition weight (e : Coordinates * list Coordinates) : Z :=
  5 ^ (83 - Z.of_nat (length e.2)).
Definition mu (q : list (Coordinates * list Coordinates)) : Z :=
  foldr (λ e acc, weight e + acc) 0 q.

(** Breadth-first order.

    The queue holds entries of one depth [h] (the part [A]) followed by
    entries of depth [h + 1] (the part [B]); every cell that some walk
    reaches in fewer than [h] steps has been visited, every cell
    reached in [h] steps has been visited or waits in [A]; the passable
    neighbours of visited cells are visited or queued; and [end_] has
    not been visited. *)
Record level (h : nat) (A B : list (Coordinates * list Coordinates))
    (s : Search) : Prop := {
  lv_queue : queue s = A ++ B;
  lv_front : ∀ c p, (c, p) ∈ A → length p = h;
  lv_back : ∀ c p, (c, p) ∈ B → length p = S h;
  lv_below : ∀ p c, walk p c → (length p < h)%nat → c ∈ visited s;
  lv_at : ∀ p c, walk p c → length p = h → c ∈ visited s ∨ c ∈ A.*1;
  lv_next : ∀ v n, v ∈ visited s → adjacent v n = true → passable f n = true →
              n ∈ visited s ∨ n ∈ (queue s).*1;
  lv_end : end_ ∉ visited s;
}.

Definition ordered (s : Search) : Prop := ∃ h A B, level h A B s.

End SearchState.

(** The test of the [if] in the loop of [checkDirection], for the [i]-th
    cell from [s] along [d]. *)
Definition scan_ok (c : list (list (list Ball))) (col : Color)
    (s d : Coordinates) (i : Z) : bool :=
  in_bounds (x (window_cell s d i)) (y (window_cell s d i))
  && bool_decide (ballColors c (x (window_cell s d i)) (y (window_cell s d i))
                  = Some col).

(** The two draws of one turn and the game after them. *)
Definition draw (rnd : nat → nat) (g : Game) : Z * Z * Game :=
  let '(r0, g1) := random_below rnd (Z.to_nat size) g in
  let '(r1, g2) := random_below rnd (Z.to_nat size) g1 in
  (r0, r1, g2).

(** Bounds on the variables of the placement loop, and its termination
    measure. *)
Definition spawn_inv (s : Spawn) : Prop :=
  0 ≤ sp_i s ≤ ballCount ∧ 0 ≤ tryCounter s ≤ size * size + 1.

Definition spawn_mu (s : Spawn) : Z :=
  sp_i s * (size * size + 3) + (size * size + 2 - tryCounter s).

(** The invariant of the placement loop.

    Relative to the game [g0] in which [randomCells] was called: the
    score is untouched; the board stays sound; [obstacles] lists distinct
    cells of the board that were empty in [g0] and are occupied now, each
    with exactly one more child, whose colour was taken from the back of
    the queue; nothing else on the board has changed; and the queue has
    lost one colour at its end per ball placed. *)
Record spawn_rel (g0 : Game) (s : Spawn) : Prop := {
  sr_points : points (sp_game s) = points g0;
  sr_field_ok : field_ok (field g0) = true → field_ok (field (sp_game s)) = true;
  sr_cells_ok : cells_ok (cells g0) = true → cells_ok (cells (sp_game s)) = true;
  sr_left : 0 ≤ sp_i s ∧ Z.of_nat (length (obstacles s)) + sp_i s ≤ ballCount;
  sr_queue : nextColors (sp_game s) =
             take (length (nextColors g0) - length (obstacles s)) (nextColors g0);
  sr_placed : ∀ r0 r1, (r0, r1) ∈ obstacles s →
      in_bounds r0 r1 = true ∧ field_at (field g0) r0 r1 = Some 0 ∧
      field_at (field (sp_game s)) r0 r1 = Some 1;
  sr_nodup : NoDup (obstacles s);
  sr_other : ∀ i j, in_bounds i j = true → (i, j) ∉ obstacles s →
      field_at (field (sp_game s)) i j = field_at (field g0) i j ∧
      children (cells (sp_game s)) i j = children (cells g0) i j;
  sr_color : cells_ok (cells g0) = true →
      ∀ n r0 r1, obstacles s !! n = Some (r0, r1) →
      ∃ b, children (cells (sp_game s)) r0 r1 = children (cells g0) r0 r1 ++ [b] ∧
           ∀ col, reverse (nextColors g0) !! n = Some col → color b = col;
}.

(** What [ids_ok] says cell by cell, for the cells [c] and the counter
    [n] of nodes created: no cell holds a node twice, no node is in two
    cells, and every node was created before the [n]-th. *)
Definition ids_spec (c : list (list (list Ball))) (n : nat) : Prop :=
  (∀ k, in_bounds (x k) (y k) = true →
        NoDup (ball_id <$> children c (x k) (y k))) ∧
  (∀ k k' i, in_bounds (x k) (y k) = true → in_bounds (x k') (y k') = true →
        i ∈ ball_id <$> children c (x k) (y k) →
        i ∈ ball_id <$> children c (x k') (y k') → k = k') ∧
  (∀ k i, in_bounds (x k) (y k) = true →
        i ∈ ball_id <$> children c (x k) (y k) → (i < n)%nat).

(** The part of [game_ok] that does not depend on the selection. *)
Definition sound (g : Game) : Prop :=
  board_ok g = true ∧ shape_ok (field g) = true ∧ shape_ok (cells g) = true ∧
  ids_spec (cells g) (fresh g).

(** What the placement loop keeps besides [spawn_rel]. *)
Definition spawn_keeps (g0 : Game) (s : Spawn) : Prop :=
  shape_ok (field (sp_game s)) = true ∧ shape_ok (cells (sp_game s)) = true ∧
  ids_spec (cells (sp_game s)) (fresh (sp_game s)) ∧
  selected (sp_game s) = selected g0 ∧
  selectedIndex (sp_game s) = selectedIndex g0.

(** * Properties of the generic loops *)

Section Loops.
Context {St R : Type} (body : St → St + R).

Lemma iter_nat_add (n m : nat) (s : St) :
  iter_nat body (n + m) s =
  match iter_nat body n s with
  | inl s' => iter_nat body m s'
  | inr r => inr r
  end.
Proof.
  revert s; induction n as [|n IH]; intros s; simpl; [done|].
  destruct (body s) as [s'|r]; [apply IH|done].
Qed.

Lemma iter_fuel_nat (p : positive) (s : St) :
  iter_fuel body p s = iter_nat body (Pos.to_nat p) s.
Proof.
  revert s; induction p as [p IH|p IH|]; intros s; simpl iter_fuel.
  - rewrite Pos2Nat.inj_xI.
    change (S (2 * Pos.to_nat p)) with (1 + 2 * Pos.to_nat p)%nat.
    replace (2 * Pos.to_nat p)%nat with (Pos.to_nat p + Pos.to_nat p)%nat by lia.
    simpl iter_nat. destruct (body s) as [s1|r]; [|done].
    rewrite iter_nat_add, <- IH.
    destruct (iter_fuel body p s1); [apply IH|done].
  - rewrite Pos2Nat.inj_xO.
    replace (2 * Pos.to_nat p)%nat with (Pos.to_nat p + Pos.to_nat p)%nat by lia.
    rewrite iter_nat_add, <- IH.
    destruct (iter_fuel body p s); [apply IH|done].
  - simpl. by destruct (body s).
Qed.

(** A loop that has produced its result keeps it under more fuel. *)
Lemma iter_nat_mono (n m : nat) (s : St) (r : R) :
  (n ≤ m)%nat → iter_nat body n s = inr r → iter_nat body m s = inr r.
Proof.
  revert m s; induction n as [|n IH]; intros m s Hle; simpl; [done|].
  destruct m as [|m]; [lia|]. simpl.
  destruct (body s) as [s'|r']; [apply IH; lia|done].
Qed.

(** A body that leaves at once makes the loop leave at once. *)
Lemma iter_fuel_now (p : positive) (s : St) (r : R) :
  body s = inr r → iter_fuel body p s = inr r.
Proof.
  intros Hb. rewrite iter_fuel_nat.
  destruct (Pos2Nat.is_succ p) as [n ->]. simpl. by rewrite Hb.
Qed.

(** Termination from a measure: if an invariant is kept by the body and
    a non-negative integer measure drops at each turn, fuel above the
    measure always yields a result. *)
Lemma iter_nat_measure (Inv : St → Prop) (mu : St → Z) :
  (∀ s, Inv s → 0 ≤ mu s) →
  (∀ s s', Inv s → body s = inl s' → Inv s' ∧ mu s' < mu s) →
  ∀ (n : nat) (s : St), Inv s → mu s < Z.of_nat n →
    ∃ r, iter_nat body n s = inr r.
Proof.
  intros Hpos Hstep n; induction n as [|n IH]; intros s HI Hmu.
  - specialize (Hpos s HI). lia.
  - simpl. destruct (body s) as [s'|r] eqn:Hb; [|by eexists].
    destruct (Hstep s s' HI Hb) as [HI' Hlt]. apply IH; [done|lia].
Qed.

(** Whatever the loop returns was returned by the body in a loop state
    that satisfies every invariant of the loop. *)
Lemma iter_nat_inv (Inv : St → Prop) :
  (∀ s s', Inv s → body s = inl s' → Inv s') →
  ∀ (n : nat) (s : St) (r : R), Inv s → iter_nat body n s = inr r →
    ∃ s', Inv s' ∧ body s' = inr r.
Proof.
  intros Hstep n; induction n as [|n IH]; intros s r HI; simpl; [done|].
  destruct (body s) as [s'|r'] eqn:Hb.
  - apply IH. by eapply Hstep.
  - intros [= <-]. by exists s.
Qed.
End Loops.

(** * Properties of [getPath] *)

Lemma set_add_elem (k c : Coordinates) (s : list Coordinates) :
  k ∈ set_add c s ↔ k = c ∨ k ∈ s.
Proof.
  unfold set_add, set_has. case_bool_decide as Hin.
  - split; [by right|]. intros [->|]; done.
  - rewrite elem_of_app, list_elem_of_singleton. tauto.
Qed.

Lemma set_add_NoDup (c : Coordinates) (s : list Coordinates) :
  NoDup s → NoDup (set_add c s).
Proof.
  intros Hnd. unfold set_add, set_has. case_bool_decide as Hin; [done|].
  apply list.NoDup_app. split_and!; [done| |apply NoDup_singleton].
  intros k Hk ->%list_elem_of_singleton. done.
Qed.

Lemma in_bounds_spec (i j : Z) :
  in_bounds i j = true ↔ 0 ≤ i < size ∧ 0 ≤ j < size.
Proof. unfold in_bounds. rewrite !andb_true_iff. lia. Qed.

Lemma elem_of_all_cells (c : Coordinates) :
  c ∈ all_cells ↔ in_bounds (x c) (y c) = true.
Proof.
  rewrite in_bounds_spec. unfold all_cells. rewrite list_elem_of_bind.
  split.
  - intros (i & Hc & Hi). apply list_elem_of_bind in Hc as (j & Hc & Hj).
    apply list_elem_of_singleton in Hc as ->. simpl.
    apply elem_of_seqZ in Hi, Hj. lia.
  - intros [Hi Hj]. exists (x c). split; [|apply elem_of_seqZ; lia].
    apply list_elem_of_bind. exists (y c). split; [|apply elem_of_seqZ; lia].
    destruct c. simpl. apply list_elem_of_singleton. done.
Qed.

Lemma adjacent_shift (c n : Coordinates) :
  adjacent c n = true ↔ ∃ d, d ∈ directions ∧ n = shift c d.
Proof.
  unfold adjacent, shift, directions. rewrite bool_decide_eq_true.
  destruct c as [cx cy], n as [nx ny]. simpl. split.
  - intros H.
    assert ((nx = cx ∧ ny = cy + 1) ∨ (nx = cx ∧ ny = cy + -1) ∨
            (nx = cx + 1 ∧ ny = cy) ∨ (nx = cx + -1 ∧ ny = cy))
      as [[-> ->]|[[-> ->]|[[-> ->]|[-> ->]]]] by lia.
    + exists (Coord 0 1). split; [repeat constructor|]. simpl. f_equal; lia.
    + exists (Coord 0 (-1)). split; [repeat constructor|]. simpl. f_equal; lia.
    + exists (Coord 1 0). split; [repeat constructor|]. simpl. f_equal; lia.
    + exists (Coord (-1) 0). split; [repeat constructor|]. simpl. f_equal; lia.
  - intros (d & Hd & [= -> ->]).
    repeat (apply elem_of_cons in Hd as [->|Hd]; [simpl; lia|]).
    by apply elem_of_nil in Hd.
Qed.

Lemma explore_foldl (f : list (list Z)) (vis : list Coordinates)
    (c : Coordinates) (p : list Coordinates)
    (ds : list Coordinates) (q : list (Coordinates * list Coordinates)) :
  foldl (explore f vis c p) q ds =
  q ++ map (λ n, (n, p ++ [c])) (filter (λ n, open f vis n) (map (shift c) ds)).
Proof.
  revert q; induction ds as [|d ds IH]; intros q; simpl.
  - by rewrite app_nil_r.
  - rewrite IH, filter_cons.
    assert (explore f vis c p q d =
            if open f vis (shift c d) then q ++ [(shift c d, p ++ [c])] else q)
      as -> by done.
    destruct (open f vis (shift c d)) eqn:Ho.
    + rewrite decide_True by exact I. simpl. by rewrite <- app_assoc.
    + rewrite decide_False by (intros []). done.
Qed.

Lemma linked_snoc (f : list (list Z)) (l : list Coordinates) (c n k : Coordinates) :
  list.last (c :: l) = Some k →
  linked f c (l ++ [n]) = linked f c l && (adjacent k n && passable f n).
Proof.
  revert c; induction l as [|a l IH]; intros c Hlast; simpl.
  - injection Hlast as ->. by rewrite andb_true_r.
  - rewrite (IH a) by (by rewrite last_cons_cons in Hlast).
    by rewrite !andb_assoc.
Qed.

Lemma passable_spec (f : list (list Z)) (c : Coordinates) :
  passable f c = true ↔
  in_bounds (x c) (y c) = true ∧ field_at f (x c) (y c) = Some 0.
Proof. unfold passable. by rewrite andb_true_iff, bool_decide_eq_true. Qed.

Section GetPath.
Variables (f : list (list Z)) (start end_ : Coordinates).

Local Abbreviation walk := (walk f start).
Local Abbreviation search0 := (search0 start).
Local Abbreviation search_inv := (search_inv f start).
Local Abbreviation level := (level f start end_).
Local Abbreviation ordered := (ordered f start end_).

Lemma walk_route (p : list Coordinates) (c : Coordinates) :
  walk p c → route f start c (p ++ [c]) = true.
Proof.
  induction 1 as [|p c n Hw IH Hadj Hpass]; simpl.
  - rewrite !bool_decide_eq_true_2; done.
  - destruct (p ++ [c]) as [|c0 l] eqn:Hpc; [by destruct p|].
    simpl in IH |- *. apply andb_prop in IH as [IH Hl].
    apply andb_prop in IH as [Hc0 Hlast]. apply bool_decide_eq_true in Hlast.
    rewrite Hc0. simpl.
    rewrite (linked_snoc f l c0 n c) by done.
    rewrite Hl, Hadj, Hpass. simpl. rewrite andb_true_r.
    apply bool_decide_eq_true. by rewrite app_comm_cons, last_snoc.
Qed.

Lemma route_walk (l : list Coordinates) (e : Coordinates) :
  route f start e l = true → ∃ p, l = p ++ [e] ∧ walk p e.
Proof.
  destruct l as [|c l]; [done|]. simpl.
  intros H. apply andb_prop in H as [H Hl]. apply andb_prop in H as [Hc Hlast].
  apply bool_decide_eq_true in Hc as ->. apply bool_decide_eq_true in Hlast.
  revert e Hlast Hl. induction l as [|n l IH] using rev_ind; intros e Hlast Hl.
  - injection Hlast as <-. exists []. split; [done|constructor].
  - rewrite app_comm_cons, last_snoc in Hlast. injection Hlast as ->.
    destruct (list.last (start :: l)) as [k|] eqn:Hk;
      [|by apply last_None in Hk].
    rewrite (linked_snoc f l start e k) in Hl by done.
    apply andb_prop in Hl as [Hl Hke]. apply andb_prop in Hke as [Hadj Hpass].
    destruct (IH k eq_refl Hl) as (p & Hp & Hw).
    exists (p ++ [k]). split; [by rewrite app_comm_cons, Hp|].
    by constructor.
Qed.

(** Every cell of a walk is [start] or a passable cell. *)
Lemma walk_cells (p : list Coordinates) (c : Coordinates) :
  walk p c → ∀ k, k ∈ p ++ [c] → k = start ∨ passable f k = true.
Proof.
  induction 1 as [|p c n Hw IH Hadj Hpass]; intros k Hk.
  - apply list_elem_of_singleton in Hk. by left.
  - apply elem_of_app in Hk as [Hk|Hk]; [by apply IH|].
    apply list_elem_of_singleton in Hk as ->. by right.
Qed.

Lemma getPath_body_inl (s s' : Search) :
  getPath_body f end_ s = inl s' →
  ∃ cur p rest, queue s = (cur, p) :: rest ∧ cur ≠ end_ ∧
    s' = {| queue := rest ++ pushed f (set_add cur (visited s)) cur p;
            visited := set_add cur (visited s) |}.
Proof.
  unfold getPath_body. destruct (queue s) as [|[cur p] rest]; [done|].
  destruct ((x cur =? x end_) && (y cur =? y end_)) eqn:Hend; [done|].
  rewrite explore_foldl. intros [= <-]. exists cur, p, rest.
  split_and!; [done| |done].
  intros ->. rewrite !Z.eqb_refl in Hend. done.
Qed.

Lemma getPath_body_inr (s : Search) (r : PathfindingResult) :
  getPath_body f end_ s = inr r →
  (queue s = [] ∧ r = {| path := []; found := false |}) ∨
  (∃ p rest, queue s = (end_, p) :: rest ∧
     r = {| path := p ++ [end_]; found := true |}).
Proof.
  unfold getPath_body. destruct (queue s) as [|[cur p] rest].
  - intros [= <-]. by left.
  - destruct ((x cur =? x end_) && (y cur =? y end_)) eqn:Hend; [|done].
    intros [= <-]. right. exists p, rest.
    apply andb_prop in Hend as [Hx Hy].
    apply Z.eqb_eq in Hx, Hy. destruct cur, end_; simpl in *; subst. done.
Qed.

Lemma elem_of_pushed (vis : list Coordinates) (cur : Coordinates)
    (p : list Coordinates) (n : Coordinates) (p' : list Coordinates) :
  (n, p') ∈ pushed f vis cur p ↔
  p' = p ++ [cur] ∧ adjacent cur n = true ∧ passable f n = true ∧ n ∉ vis.
Proof.
  unfold pushed. rewrite list_elem_of_fmap. split.
  - intros (k & [= -> ->] & Hk). apply list_elem_of_filter in Hk as [Ho Hk].
    apply list_elem_of_fmap in Hk as (d & -> & Hd).
    unfold open in Ho. apply Is_true_true in Ho.
    apply andb_prop in Ho as [Ho Hf]. apply andb_prop in Ho as [Hb Hv].
    split_and!; [done| | |].
    + apply adjacent_shift. eauto.
    + unfold passable. by rewrite Hb, Hf.
    + apply negb_true_iff in Hv. unfold set_has in Hv.
      by apply bool_decide_eq_false in Hv.
  - intros (-> & Hadj & Hpass & Hv). exists n. split; [done|].
    apply list_elem_of_filter. split.
    + unfold passable in Hpass. apply andb_prop in Hpass as [Hb Hf].
      apply Is_true_true. unfold open. rewrite Hb, Hf. simpl.
      rewrite andb_true_r. apply negb_true_iff. unfold set_has.
      by apply bool_decide_eq_false.
    + apply adjacent_shift in Hadj as (d & Hd & ->).
      apply list_elem_of_fmap. eauto.
Qed.

(** ** The invariant of the search *)

Lemma search_inv_init : search_inv search0.
Proof.
  split; simpl.
  - intros c p [= -> ->]%list_elem_of_singleton. constructor.
  - intros c p k [= -> ->]%list_elem_of_singleton Hk. by apply elem_of_nil in Hk.
  - intros c p [= -> ->]%list_elem_of_singleton. apply not_elem_of_nil.
  - intros c p [= -> ->]%list_elem_of_singleton. constructor.
Qed.

Lemma search_inv_step (s s' : Search) :
  search_inv s → getPath_body f end_ s = inl s' → search_inv s'.
Proof.
  intros [Hw Hs Hf Hn] (cur & p & rest & Hq & Hne & ->)%getPath_body_inl.
  assert (Hhead : (cur, p) ∈ queue s) by (rewrite Hq; left).
  assert (Hrest : ∀ e, e ∈ rest → e ∈ queue s) by (intros e He; rewrite Hq; by right).
  split; simpl.
  - intros c p'. rewrite elem_of_app, elem_of_pushed.
    intros [Hin|(-> & Hadj & Hpass & Hv)]; [eauto|].
    constructor; eauto.
  - intros c p' k. rewrite elem_of_app, elem_of_pushed.
    intros [Hin|(-> & Hadj & Hpass & Hv)].
    + intros Hk. apply set_add_elem. right. eauto.
    + rewrite elem_of_app, list_elem_of_singleton, set_add_elem.
      intros [Hk| ->]; eauto.
  - intros c p'. rewrite elem_of_app, elem_of_pushed.
    intros [Hin|(-> & Hadj & Hpass & Hv)]; [eauto|].
    intros Hc. apply Hv, set_add_elem.
    apply elem_of_app in Hc as [Hc| ->%list_elem_of_singleton]; eauto.
  - intros c p'. rewrite elem_of_app, elem_of_pushed.
    intros [Hin|(-> & Hadj & Hpass & Hv)]; [eauto|].
    apply list.NoDup_app. split_and!; [eauto| |apply NoDup_singleton].
    intros k Hk ->%list_elem_of_singleton. by eapply Hf.
Qed.

(** A walk without repetition has at most 82 cells before its end:
    [start] and the 81 cells of the board. *)
Lemma walk_length (p : list Coordinates) (c : Coordinates) :
  walk p c → NoDup p → (length p ≤ 82)%nat.
Proof.
  intros Hw Hnd.
  change 82%nat with (length (start :: all_cells)).
  apply submseteq_length, NoDup_submseteq; [done|].
  intros k Hk. destruct (walk_cells p c Hw k) as [->|Hp].
  - apply elem_of_app. by left.
  - left.
  - right. apply elem_of_all_cells.
    unfold passable in Hp. by apply andb_prop in Hp as [? _].
Qed.

(** ** Termination of the search *)

Lemma mu_app (a b : list (Coordinates * list Coordinates)) :
  mu (a ++ b) = mu a + mu b.
Proof. induction a as [|e a IH]; simpl; [done|]. rewrite IH. lia. Qed.

Lemma mu_nonneg (q : list (Coordinates * list Coordinates)) : 0 ≤ mu q.
Proof.
  induction q as [|e q IH]; simpl; [done|].
  assert (0 ≤ weight e) by (apply Z.pow_nonneg; lia). lia.
Qed.

Lemma mu_pushed (vis : list Coordinates) (cur : Coordinates)
    (p : list Coordinates) :
  mu (pushed f vis cur p) ≤ 4 * 5 ^ (82 - Z.of_nat (length p)).
Proof.
  unfold pushed.
  assert (Hlen : (length (filter (λ n, open f vis n) (map (shift cur) directions))
                  ≤ 4)%nat).
  { etrans; [apply length_filter|]. by rewrite length_map. }
  revert Hlen. generalize (filter (λ n, open f vis n) (map (shift cur) directions)).
  intros l Hl.
  assert (Hw : ∀ n : Coordinates,
             weight (n, p ++ [cur]) = 5 ^ (82 - Z.of_nat (length p))).
  { intros n. unfold weight. simpl. rewrite length_app. simpl. f_equal. lia. }
  assert (H0 : 0 ≤ 5 ^ (82 - Z.of_nat (length p))) by (apply Z.pow_nonneg; lia).
  assert (mu (map (λ n, (n, p ++ [cur])) l)
          = Z.of_nat (length l) * 5 ^ (82 - Z.of_nat (length p))) as ->.
  { clear Hl. induction l as [|n l IH]; [done|].
    simpl map. simpl mu. fold (mu (map (λ n, (n, p ++ [cur])) l)).
    rewrite IH, Hw. simpl length. lia. }
  nia.
Qed.

Lemma search_step_decreases (s s' : Search) :
  search_inv s → getPath_body f end_ s = inl s' →
  mu (queue s') < mu (queue s).
Proof.
  intros Hinv (cur & p & rest & Hq & Hne & ->)%getPath_body_inl. simpl.
  rewrite Hq, mu_app. simpl.
  pose proof (mu_pushed (set_add cur (visited s)) cur p) as Hp.
  assert (Hlen : (length p ≤ 82)%nat).
  { assert ((cur, p) ∈ queue s) by (rewrite Hq; left).
    eapply walk_length; [by eapply inv_walk|by eapply inv_nodup]. }
  unfold weight at 1. simpl.
  replace (83 - Z.of_nat (length p)) with (Z.succ (82 - Z.of_nat (length p))) by lia.
  rewrite Z.pow_succ_r by lia.
  assert (0 < 5 ^ (82 - Z.of_nat (length p))) by (apply Z.pow_pos_nonneg; lia).
  lia.
Qed.

(** The loop leaves with a result before its fuel is spent. *)
Lemma getPath_loop_returns : ∃ r, getPath_loop f start end_ = inr r.
Proof.
  unfold getPath_loop. rewrite iter_fuel_nat.
  apply (iter_nat_measure _ search_inv (λ s, mu (queue s))).
  - intros s _. apply mu_nonneg.
  - intros s s' Hinv Hb. split; [by eapply search_inv_step|].
    by apply search_step_decreases.
  - apply search_inv_init.
  - rewrite positive_nat_Z. vm_compute. done.
Qed.

(** ** Breadth-first order *)

Lemma level_init : level 0 [(start, [])] [] search0.
Proof.
  split; simpl; try done.
  - intros c p [= -> ->]%list_elem_of_singleton. done.
  - intros c p Hin. by apply elem_of_nil in Hin.
  - intros p c Hw Hlen. lia.
  - intros p c Hw Hlen. right. destruct Hw as [|p c n Hw Hadj Hpass].
    + left.
    + rewrite length_app in Hlen. simpl in Hlen. lia.
  - intros v n Hv. by apply elem_of_nil in Hv.
  - apply not_elem_of_nil.
Qed.

(** When the front part is used up, the back part becomes the front. *)
Lemma level_shift (h : nat) (B : list (Coordinates * list Coordinates))
    (s : Search) :
  level h [] B s → level (S h) B [] s.
Proof.
  intros [Hq Hfr Hbk Hlt Hat Hnx Hend]. simpl in Hq.
  assert (Hat' : ∀ p c, walk p c → length p = h → c ∈ visited s).
  { intros p c Hw Hl. destruct (Hat p c Hw Hl) as [|Hin]; [done|].
    by apply elem_of_nil in Hin. }
  split; try done.
  - by rewrite app_nil_r.
  - intros c p Hin. by apply elem_of_nil in Hin.
  - intros p c Hw Hl. destruct (decide (length p = h)); [eauto|].
    apply (Hlt p c Hw). lia.
  - intros p c Hw Hl. destruct Hw as [|p c n Hw Hadj Hpass]; [done|].
    rewrite length_app in Hl. simpl in Hl.
    rewrite <- Hq. apply (Hnx c n); [|done..].
    apply (Hat' p c Hw). lia.
Qed.

Lemma level_step (h : nat) (cur : Coordinates) (p : list Coordinates)
    (A B : list (Coordinates * list Coordinates)) (s : Search) :
  level h ((cur, p) :: A) B s → cur ≠ end_ →
  level h A (B ++ pushed f (set_add cur (visited s)) cur p)
    {| queue := (A ++ B) ++ pushed f (set_add cur (visited s)) cur p;
       visited := set_add cur (visited s) |}.
Proof.
  intros [Hq Hfr Hbk Hlt Hat Hnx Hend] Hne.
  assert (Hp : length p = h) by (apply (Hfr cur); left).
  split; simpl.
  - by rewrite app_assoc.
  - intros c p' Hin. apply (Hfr c). by right.
  - intros c p'. rewrite elem_of_app, elem_of_pushed.
    intros [Hin|(-> & _)]; [eauto|].
    rewrite length_app. simpl. lia.
  - intros p' c Hw Hl. apply set_add_elem. right. eauto.
  - intros p' c Hw Hl. rewrite set_add_elem.
    destruct (Hat p' c Hw Hl) as [Hv|Hin]; [by left; right|].
    rewrite fmap_cons in Hin. simpl in Hin.
    apply elem_of_cons in Hin as [->|Hin]; [by left; left|by right].
  - intros v n Hv Hadj Hpass. rewrite set_add_elem.
    destruct (decide (n = cur)) as [->|Hncur]; [by left; left|].
    destruct (decide (n ∈ visited s)) as [Hnv|Hnv]; [by left; right|].
    right. rewrite fmap_app, elem_of_app.
    apply set_add_elem in Hv as [->|Hv].
    + right. apply list_elem_of_fmap. exists (n, p ++ [cur]).
      split; [done|]. apply elem_of_pushed. split_and!; try done.
      rewrite set_add_elem. tauto.
    + destruct (Hnx v n Hv Hadj Hpass) as [?|Hin]; [done|].
      rewrite Hq in Hin. simpl in Hin.
      apply elem_of_cons in Hin as [?|Hin]; [done|]. by left.
  - rewrite set_add_elem. intros [?|?]; [by apply Hne|by apply Hend].
Qed.

Lemma ordered_init : ordered search0.
Proof. exists 0%nat, [(start, [])], []. apply level_init. Qed.

(** With a non-empty queue the front part can be taken non-empty. *)
Lemma ordered_head (s : Search) (cur : Coordinates) (p : list Coordinates)
    (rest : list (Coordinates * list Coordinates)) :
  ordered s → queue s = (cur, p) :: rest →
  ∃ h A B, level h ((cur, p) :: A) B s ∧ rest = A ++ B.
Proof.
  intros (h & A & B & Hlv) Hq. destruct A as [|e A].
  - apply level_shift in Hlv. pose proof (lv_queue _ _ _ _ _ _ _ Hlv) as Hq'.
    rewrite Hq, app_nil_r in Hq'. subst B.
    exists (S h), rest, []. by rewrite app_nil_r.
  - pose proof (lv_queue _ _ _ _ _ _ _ Hlv) as Hq'. rewrite Hq in Hq'.
    injection Hq' as <- ->. by exists h, A, B.
Qed.

Lemma ordered_step (s s' : Search) :
  ordered s → getPath_body f end_ s = inl s' → ordered s'.
Proof.
  intros Hord (cur & p & rest & Hq & Hne & ->)%getPath_body_inl.
  destruct (ordered_head s cur p rest Hord Hq) as (h & A & B & Hlv & ->).
  exists h, A, (B ++ pushed f (set_add cur (visited s)) cur p).
  by apply level_step.
Qed.

(** The entry at which the search stops is at least as short as every
    walk to [end_]. *)
Lemma ordered_shortest (s : Search) (p0 : list Coordinates)
    (rest : list (Coordinates * list Coordinates)) :
  ordered s → queue s = (end_, p0) :: rest →
  ∀ p', walk p' end_ → (length p0 ≤ length p')%nat.
Proof.
  intros Hord Hq p' Hw.
  destruct (ordered_head s end_ p0 rest Hord Hq) as (h & A & B & Hlv & _).
  assert (Hh : length p0 = h) by (apply (lv_front _ _ _ _ _ _ _ Hlv end_); left).
  destruct (decide (length p0 ≤ length p')%nat) as [|Hlt]; [done|].
  exfalso. apply (lv_end _ _ _ _ _ _ _ Hlv), (lv_below _ _ _ _ _ _ _ Hlv p'); [done|lia].
Qed.
End GetPath.

Section GetPathResult.
Variables (f : list (list Z)) (start end_ : Coordinates).

(** ** The result of the search *)

Lemma getPath_loop_nat :
  ∃ n r, iter_nat (getPath_body f end_) n (search0 start) = inr r ∧
         getPath_loop f start end_ = inr r.
Proof.
  destruct (getPath_loop_returns f start end_) as [r Hr].
  exists (Pos.to_nat getPath_fuel), r. split; [|exact Hr].
  rewrite <- Hr. symmetry. apply iter_fuel_nat.
Qed.

(** The result of [getPath] is returned by a turn of the loop that starts
    in a state satisfying both invariants. *)
Lemma getPath_result :
  ∃ s, search_inv f start s ∧ ordered f start end_ s ∧
       getPath_body f end_ s = inr (getPath f start end_).
Proof.
  destruct getPath_loop_nat as (n & r & Hn & Hr).
  unfold getPath. rewrite Hr.
  destruct (iter_nat_inv (getPath_body f end_)
              (λ s, search_inv f start s ∧ ordered f start end_ s)) with
    (n := n) (s := search0 start) (r := r)
    as (s & [Hinv Hord] & Hb); [| |exact Hn|by exists s].
  - intros s s' [Hinv Hord] Hb. split.
    + by eapply search_inv_step.
    + by eapply ordered_step.
  - split; [apply search_inv_init|apply ordered_init].
Qed.

(** A successful search returns a walk that no walk to [end_] beats. *)
Lemma getPath_found :
  found (getPath f start end_) = true →
  ∃ p, path (getPath f start end_) = p ++ [end_] ∧ walk f start p end_ ∧
       NoDup (p ++ [end_]) ∧
       ∀ p', walk f start p' end_ → (length p ≤ length p')%nat.
Proof.
  destruct getPath_result as (s & Hinv & Hord & Hb).
  apply getPath_body_inr in Hb as [[_ ->]|(p & rest & Hq & ->)]; [done|].
  intros _. exists p. simpl.
  assert (Hin : (end_, p) ∈ queue s) by (rewrite Hq; left).
  split_and!; [done|by eapply inv_walk| |by eapply ordered_shortest].
  apply list.NoDup_app. split_and!; [by eapply inv_nodup| |apply NoDup_singleton].
  intros k Hk ->%list_elem_of_singleton. by eapply inv_fresh.
Qed.

(** A failed search returns the empty path. *)
Lemma getPath_not_found :
  found (getPath f start end_) = false → path (getPath f start end_) = [].
Proof.
  destruct getPath_result as (s & Hinv & Hord & Hb).
  apply getPath_body_inr in Hb as [[_ ->]|(p & rest & Hq & ->)]; done.
Qed.
End GetPathResult.

(** * Properties of the board accessors *)

Lemma field_at_set (f : list (list Z)) (i j i' j' v : Z) :
  field_at (field_set f i j v) i' j' =
  if decide (Z.to_nat i = Z.to_nat i' ∧ Z.to_nat j = Z.to_nat j')
  then (λ _, v) <$> field_at f i' j'
  else field_at f i' j'.
Proof.
  unfold field_at, field_set.
  destruct (decide (Z.to_nat i = Z.to_nat i')) as [Hi|Hi].
  - rewrite Hi, list_lookup_alter_eq.
    destruct (f !! Z.to_nat i') as [row|] eqn:Hrow; simpl.
    + destruct (decide (Z.to_nat j = Z.to_nat j')) as [Hj|Hj].
      * rewrite decide_True by done. rewrite Hj.
        destruct (row !! Z.to_nat j') as [w|] eqn:Hw; simpl.
        -- apply list_lookup_insert_eq. by eapply lookup_lt_Some.
        -- apply lookup_ge_None. rewrite length_insert.
           by apply lookup_ge_None.
      * rewrite decide_False by tauto. by apply list_lookup_insert_ne.
    + by case_decide.
  - rewrite decide_False by tauto. by rewrite list_lookup_alter_ne.
Qed.

Lemma children_set_ne (c : list (list (list Ball))) (i j i' j' : Z)
    (k : list Ball) :
  ¬ (Z.to_nat i = Z.to_nat i' ∧ Z.to_nat j = Z.to_nat j') →
  children (set_children c i j k) i' j' = children c i' j'.
Proof.
  intros Hne. unfold children, set_children.
  destruct (decide (Z.to_nat i = Z.to_nat i')) as [Hi|Hi].
  - rewrite Hi, list_lookup_alter_eq.
    destruct (c !! Z.to_nat i') as [row|]; simpl; [|done].
    rewrite list_lookup_insert_ne; [done|tauto].
  - by rewrite list_lookup_alter_ne.
Qed.

Lemma children_set_eq (c : list (list (list Ball))) (i j : Z) (k : list Ball) :
  is_Some (row ← c !! Z.to_nat i; row !! Z.to_nat j) →
  children (set_children c i j k) i j = k.
Proof.
  intros Hsome. unfold children, set_children. rewrite list_lookup_alter_eq.
  destruct (c !! Z.to_nat i) as [row|]; simpl in *; [|by destruct Hsome].
  destruct Hsome as [w Hw]. rewrite list_lookup_insert_eq; [done|].
  by eapply lookup_lt_Some.
Qed.

Lemma set_children_shape (c : list (list (list Ball))) (i j i' j' : Z)
    (k : list Ball) :
  is_Some (row ← set_children c i j k !! Z.to_nat i'; row !! Z.to_nat j') ↔
  is_Some (row ← c !! Z.to_nat i'; row !! Z.to_nat j').
Proof.
  unfold set_children.
  destruct (decide (Z.to_nat i = Z.to_nat i')) as [Hi|Hi].
  - rewrite Hi, list_lookup_alter_eq.
    destruct (c !! Z.to_nat i') as [row|]; simpl; [|done].
    rewrite !lookup_lt_is_Some. by rewrite length_insert.
  - by rewrite list_lookup_alter_ne.
Qed.

(** Inside the board, two cells with the same array indices are equal. *)
Lemma to_nat_coord (k k' : Coordinates) :
  in_bounds (x k) (y k) = true → in_bounds (x k') (y k') = true →
  Z.to_nat (x k) = Z.to_nat (x k') ∧ Z.to_nat (y k) = Z.to_nat (y k') ↔ k = k'.
Proof.
  rewrite !in_bounds_spec. intros Hk Hk'. destruct k, k'. simpl in *.
  split; [intros [? ?]; f_equal; lia|by intros [= -> ->]].
Qed.

(** * Properties of [popFives] *)

(** ** The scan of one direction *)

Lemma scan_unfold (c : list (list (list Ball))) (col : Color)
    (s d : Coordinates) (i : Z) (steps : list Z) (count : Z)
    (td : list Coordinates) :
  scan c col (x s) (y s) (x d) (y d) (i :: steps) count td =
  if scan_ok c col s d i
  then scan c col (x s) (y s) (x d) (y d) steps (count + 1)
         (td ++ [window_cell s d i])
  else (count, td).
Proof. reflexivity. Qed.

(** The scan reaches the count 5 exactly when all five cells pass its
    test, and then [tempDelete] holds these five cells. *)
Lemma scan_five (c : list (list (list Ball))) (col : Color) (s d : Coordinates)
    (count : Z) (tmp : list Coordinates) :
  scan c col (x s) (y s) (x d) (y d) (seqZ 0 5) 0 [] = (count, tmp) →
  ((5 <=? count) = true ↔ ∀ i, 0 ≤ i < 5 → scan_ok c col s d i = true) ∧
  ((5 <=? count) = true → tmp = window_cell s d <$> seqZ 0 5).
Proof.
  change (seqZ 0 5) with [0; 1; 2; 3; 4].
  assert (Hall : (∀ i, 0 ≤ i < 5 → scan_ok c col s d i = true) ↔
                 scan_ok c col s d 0 = true ∧ scan_ok c col s d 1 = true ∧
                 scan_ok c col s d 2 = true ∧ scan_ok c col s d 3 = true ∧
                 scan_ok c col s d 4 = true).
  { split; [intros H; split_and!; apply H; lia|].
    intros (H0 & H1 & H2 & H3 & H4) i Hi.
    assert (i = 0 ∨ i = 1 ∨ i = 2 ∨ i = 3 ∨ i = 4)
      as [->|[->|[->|[->| ->]]]] by lia; done. }
  rewrite Hall. rewrite !scan_unfold.
  destruct (scan_ok c col s d 0);
    [|intros [= <- <-]; split; [split; [done|intros (?&?); done]|done]].
  destruct (scan_ok c col s d 1);
    [|intros [= <- <-]; split; [split; [done|intros (?&?&?); done]|done]].
  destruct (scan_ok c col s d 2);
    [|intros [= <- <-]; split; [split; [done|intros (?&?&?&?); done]|done]].
  destruct (scan_ok c col s d 3);
    [|intros [= <- <-]; split; [split; [done|intros (?&?&?&?&?); done]|done]].
  destruct (scan_ok c col s d 4);
    [|intros [= <- <-]; split; [split; [done|intros (?&?&?&?&?); done]|done]].
  intros [= <- <-]. done.
Qed.

Lemma scan_ok_window (c : list (list (list Ball))) (col : Color)
    (s d : Coordinates) :
  (∀ i, 0 ≤ i < 5 → scan_ok c col s d i = true) ↔ window c s d col.
Proof.
  unfold window, scan_ok. split; intros H i Hi; specialize (H i Hi).
  - apply andb_prop in H as [? ?%bool_decide_eq_true]. done.
  - destruct H as [-> ->]. by rewrite bool_decide_eq_true_2.
Qed.

Lemma window_cell_0 (s d : Coordinates) : window_cell s d 0 = s.
Proof. destruct s. unfold window_cell. simpl. f_equal; lia. Qed.

Lemma window_color (c : list (list (list Ball))) (s d : Coordinates)
    (col : Color) :
  window c s d col → ballColors c (x s) (y s) = Some col.
Proof.
  intros H. destruct (H 0) as [_ H0]; [lia|]. by rewrite window_cell_0 in H0.
Qed.

(** Accumulating into a set: what a fold of membership-growing steps
    contains. *)
Lemma foldl_accum {A} (step : list Coordinates → A → list Coordinates)
    (P : A → Coordinates → Prop) :
  (∀ td a k, k ∈ step td a ↔ k ∈ td ∨ P a k) →
  ∀ l td k, k ∈ foldl step td l ↔ k ∈ td ∨ ∃ a, a ∈ l ∧ P a k.
Proof.
  intros Hstep l; induction l as [|a l IH]; intros td k; simpl.
  - split; [by left|]. intros [?|(a & Ha & _)]; [done|].
    by apply elem_of_nil in Ha.
  - rewrite IH, Hstep. split.
    + intros [[?|?]|(b & Hb & ?)]; [by left|right..].
      * exists a. split; [left|done].
      * exists b. split; [by right|done].
    + intros [?|(b & Hb & ?)]; [by left; left|].
      apply elem_of_cons in Hb as [->|Hb]; [by left; right|].
      right. by exists b.
Qed.

Lemma foldl_set_add (td l : list Coordinates) (k : Coordinates) :
  k ∈ foldl (λ td k, set_add k td) td l ↔ k ∈ td ∨ k ∈ l.
Proof.
  rewrite (foldl_accum (λ td k, set_add k td) (λ a k, k = a)).
  - split; intros [?|H]; [by left| |by left|]; right.
    + by destruct H as (a & ? & ->).
    + by exists k.
  - intros td' a k'. rewrite set_add_elem. tauto.
Qed.

Lemma checkDirection_elem (c : list (list (list Ball)))
    (td : list Coordinates) (s d k : Coordinates) :
  k ∈ checkDirection c td (x s) (y s) (x d) (y d) ↔
  k ∈ td ∨ ∃ col i, window c s d col ∧ 0 ≤ i < 5 ∧ k = window_cell s d i.
Proof.
  unfold checkDirection.
  destruct (ballColors c (x s) (y s)) as [col|] eqn:Hcol.
  - destruct (scan c col (x s) (y s) (x d) (y d) (seqZ 0 5) 0 [])
      as [count tmp] eqn:Hscan.
    destruct (scan_five c col s d count tmp Hscan) as [Hcount Htd].
    rewrite scan_ok_window in Hcount.
    destruct (5 <=? count) eqn:H5.
    + rewrite foldl_set_add, (Htd eq_refl), list_elem_of_fmap.
      apply proj1 in Hcount. specialize (Hcount eq_refl).
      split; (intros [?|H]; [by left|right]).
      * destruct H as (i & -> & Hi%elem_of_seqZ). exists col, i. done.
      * destruct H as (col' & i & _ & Hi & ->). exists i.
        split; [done|]. apply elem_of_seqZ. lia.
    + split; [by left|]. intros [?|(col' & i & Hw & _)]; [done|].
      pose proof (window_color c s d col' Hw) as Hcol'.
      rewrite Hcol in Hcol'. injection Hcol' as <-.
      apply Hcount in Hw. done.
  - split; [by left|]. intros [?|(col' & i & Hw & _)]; [done|].
    apply window_color in Hw. by rewrite Hcol in Hw.
Qed.

Lemma detect_runs_elem (c : list (list (list Ball))) (k : Coordinates) :
  k ∈ detect_runs c ↔ in_run c k.
Proof.
  unfold detect_runs.
  rewrite (foldl_accum _ (λ i k, ∃ j, j ∈ seqZ 0 size ∧ ∃ d, d ∈ line_directions ∧
             ∃ col n, window c (Coord i j) d col ∧ 0 ≤ n < 5 ∧
                      k = window_cell (Coord i j) d n)).
  - split.
    + intros [Hk|(i & Hi & j & Hj & d & Hd & col & n & Hw & Hn & ->)];
        [by apply elem_of_nil in Hk|].
      exists (Coord i j), d, col, n.
      assert (d ∈ axes).
      { unfold line_directions, axes in *.
        rewrite !elem_of_cons in Hd |- *. tauto. }
      split_and!; (done || lia).
    + intros (s & d & col & n & Hd & Hw & Hn & ->). right.
      destruct (Hw 0) as [Hb _]; [lia|]. rewrite window_cell_0 in Hb.
      apply in_bounds_spec in Hb.
      exists (x s). split; [apply elem_of_seqZ; lia|].
      exists (y s). split; [apply elem_of_seqZ; lia|].
      exists d. split.
      { unfold line_directions, axes in *.
        rewrite !elem_of_cons in Hd |- *. tauto. }
      exists col, n. by destruct s.
  - intros td i k'.
    rewrite (foldl_accum _ (λ j k, ∃ d, d ∈ line_directions ∧
               ∃ col n, window c (Coord i j) d col ∧ 0 ≤ n < 5 ∧
                        k = window_cell (Coord i j) d n)); [done|].
    intros td' j k''.
    rewrite (foldl_accum _ (λ d k,
               ∃ col n, window c (Coord i j) d col ∧ 0 ≤ n < 5 ∧
                        k = window_cell (Coord i j) d n)); [done|].
    intros td'' d k'''. apply (checkDirection_elem c td'' (Coord i j) d k''').
Qed.

(** The two nested [for] loops over the board visit [all_cells] in order. *)
Lemma foldl_board {A} (F : A → Coordinates → A) (a : A) :
  foldl (λ a i, foldl (λ a j, F a (Coord i j)) a (seqZ 0 size)) a (seqZ 0 size)
  = foldl F a all_cells.
Proof. reflexivity. Qed.

Lemma sweep_all_cells (g : Game) : sweep g = foldl sweep_cell g all_cells.
Proof. apply (foldl_board sweep_cell). Qed.

Lemma NoDup_all_cells : NoDup all_cells.
Proof.
  unfold all_cells. apply NoDup_bind; [| |apply NoDup_seqZ].
  - intros i1 i2 k _ _ (j1 & Hk1 & _)%list_elem_of_bind
      (j2 & Hk2 & _)%list_elem_of_bind.
    apply list_elem_of_singleton in Hk1, Hk2. congruence.
  - intros i _. apply NoDup_bind; [| |apply NoDup_seqZ].
    + intros j1 j2 k _ _ Hk1%list_elem_of_singleton Hk2%list_elem_of_singleton.
      congruence.
    + intros j _. apply NoDup_singleton.
Qed.

Lemma filter_ext_elem {A} (P Q : A → Prop) `{!∀ a, Decision (P a)}
    `{!∀ a, Decision (Q a)} (l : list A) :
  (∀ a, a ∈ l → P a ↔ Q a) → filter P l = filter Q l.
Proof.
  induction l as [|a l IH]; intros Hext; [done|].
  rewrite !filter_cons. rewrite IH by (intros b Hb; apply Hext; by right).
  destruct (decide (P a)) as [HP|HP], (decide (Q a)) as [HQ|HQ]; try done.
  - exfalso. apply HQ, Hext; [left|done].
  - exfalso. apply HP, Hext; [left|done].
Qed.

(** ** Marking and sweeping *)

Lemma field_ok_spec (f : list (list Z)) :
  field_ok f = true ↔
  ∀ k, in_bounds (x k) (y k) = true →
       field_at f (x k) (y k) = Some 0 ∨ field_at f (x k) (y k) = Some 1.
Proof.
  unfold field_ok. rewrite forallb_forall. split.
  - intros H k Hk. apply elem_of_all_cells, list_elem_of_In, H in Hk.
    apply orb_prop in Hk as [Hk|Hk]; apply bool_decide_eq_true in Hk; auto.
  - intros H k Hk%list_elem_of_In%elem_of_all_cells.
    destruct (H k Hk) as [-> | ->]; repeat case_bool_decide; done.
Qed.

Lemma field_at_mark (f : list (list Z)) (td : list Coordinates)
    (k : Coordinates) :
  in_bounds (x k) (y k) = true →
  (∀ t, t ∈ td → in_bounds (x t) (y t) = true) →
  field_at (mark f td) (x k) (y k) =
  if decide (k ∈ td) then (λ _, -1) <$> field_at f (x k) (y k)
  else field_at f (x k) (y k).
Proof.
  intros Hk. unfold mark. revert f.
  induction td as [|t td IH]; intros f Htd; cbn [foldl].
  - destruct (decide (k ∈ [])) as [Hin|]; [by apply elem_of_nil in Hin|done].
  - rewrite IH by (intros; apply Htd; by right).
    rewrite field_at_set.
    assert (Ht : in_bounds (x t) (y t) = true) by (apply Htd; left).
    pose proof (to_nat_coord t k Ht Hk) as Htk.
    destruct (decide (k ∈ td)) as [Hin|Hin];
      destruct (decide (k ∈ t :: td)) as [Hin'|Hin'];
      destruct (decide (Z.to_nat (x t) = Z.to_nat (x k)
                        ∧ Z.to_nat (y t) = Z.to_nat (y k))) as [Heq|Heq];
      try done.
    + by destruct (field_at f (x k) (y k)).
    + exfalso. apply Hin'. by right.
    + exfalso. apply Hin'. by right.
    + apply elem_of_cons in Hin' as [->|?]; [|done]. by destruct Heq, Htk.
    + exfalso. apply Hin'. apply Htk in Heq as ->. left.
Qed.

Lemma sweep_cell_points (g : Game) (k : Coordinates) :
  points (sweep_cell g k) =
  points g + (if bool_decide (field_at (field g) (x k) (y k) = Some (-1))
              then 1 else 0).
Proof. unfold sweep_cell. case_bool_decide; simpl; lia. Qed.

Lemma sweep_cell_field (g : Game) (k k' : Coordinates) :
  in_bounds (x k) (y k) = true → in_bounds (x k') (y k') = true → k ≠ k' →
  field_at (field (sweep_cell g k)) (x k') (y k') = field_at (field g) (x k') (y k').
Proof.
  intros Hk Hk' Hne. unfold sweep_cell. case_bool_decide; [|done]. simpl.
  rewrite field_at_set, decide_False; [done|].
  intros Heq. by apply Hne, (to_nat_coord k k').
Qed.

Lemma sweep_list_points (l : list Coordinates) (g : Game) :
  NoDup l → (∀ k, k ∈ l → in_bounds (x k) (y k) = true) →
  points (foldl sweep_cell g l) =
  points g + Z.of_nat (length (filter
               (λ k, field_at (field g) (x k) (y k) = Some (-1)) l)).
Proof.
  revert g; induction l as [|a l IH]; intros g Hnd Hin; simpl; [lia|].
  apply list.NoDup_cons in Hnd as [Ha Hnd].
  rewrite IH by (try done; intros; apply Hin; by right).
  rewrite sweep_cell_points, filter_cons.
  rewrite (filter_ext_elem
             (λ k, field_at (field (sweep_cell g a)) (x k) (y k) = Some (-1))
             (λ k, field_at (field g) (x k) (y k) = Some (-1))).
  - case_bool_decide; [rewrite decide_True by done|rewrite decide_False by done];
      simpl length; lia.
  - intros k Hk. rewrite sweep_cell_field; [done|apply Hin; left|
      apply Hin; by right|]. by intros ->.
Qed.

(** The elements of the clear-set are cells of the board, without
    repetition. *)
Lemma detect_runs_in_bounds (c : list (list (list Ball))) (k : Coordinates) :
  k ∈ detect_runs c → in_bounds (x k) (y k) = true.
Proof.
  intros (s & d & col & i & _ & Hw & Hi & ->)%detect_runs_elem.
  by destruct (Hw i Hi).
Qed.

Lemma foldl_NoDup {A} (step : list Coordinates → A → list Coordinates) :
  (∀ td a, NoDup td → NoDup (step td a)) →
  ∀ l td, NoDup td → NoDup (foldl step td l).
Proof.
  intros Hstep l; induction l as [|a l IH]; intros td Hnd; simpl; auto.
Qed.

Lemma checkDirection_NoDup (c : list (list (list Ball)))
    (td : list Coordinates) (x0 y0 dx dy : Z) :
  NoDup td → NoDup (checkDirection c td x0 y0 dx dy).
Proof.
  intros Hnd. unfold checkDirection.
  destruct (ballColors c x0 y0); [|done].
  destruct (scan c c0 x0 y0 dx dy (seqZ 0 5) 0 []) as [count tmp].
  destruct (5 <=? count); [|done].
  apply foldl_NoDup; [|done]. intros. by apply set_add_NoDup.
Qed.

Lemma detect_runs_NoDup (c : list (list (list Ball))) : NoDup (detect_runs c).
Proof.
  unfold detect_runs.
  apply foldl_NoDup; [|constructor]. intros td i Hnd.
  apply foldl_NoDup; [|done]. intros td' j Hnd'.
  apply foldl_NoDup; [|done]. intros td'' d Hnd''.
  by apply checkDirection_NoDup.
Qed.

(** On a sound field, the cells that hold [-1] after marking are the
    cells of the clear-set. *)
Lemma marked_count (f : list (list Z)) (td : list Coordinates) :
  field_ok f = true → NoDup td →
  (∀ t, t ∈ td → in_bounds (x t) (y t) = true) →
  length (filter (λ k, field_at (mark f td) (x k) (y k) = Some (-1)) all_cells)
  = length td.
Proof.
  intros Hok Hnd Htd. apply Permutation_length, NoDup_Permutation.
  - apply list.NoDup_filter, NoDup_all_cells.
  - done.
  - intros k. rewrite list_elem_of_filter, elem_of_all_cells. split.
    + intros [Hm Hk]. rewrite field_at_mark in Hm by done.
      case_decide; [done|].
      destruct (proj1 (field_ok_spec f) Hok k Hk) as [Hf|Hf];
        rewrite Hf in Hm; done.
    + intros Hk. split; [|by apply Htd].
      rewrite field_at_mark by auto. rewrite decide_True by done.
      destruct (proj1 (field_ok_spec f) Hok k (Htd k Hk)) as [-> | ->]; done.
Qed.

Lemma popFives_fst (g : Game) :
  (popFives g).1 =
  if emptyCells (field (sweep (with_field g (mark (field g) (detect_runs (cells g))))))
     =? 0
  then Game_end (sweep (with_field g (mark (field g) (detect_runs (cells g)))))
  else sweep (with_field g (mark (field g) (detect_runs (cells g)))).
Proof. reflexivity. Qed.

Lemma popFives_snd (g : Game) :
  (popFives g).2 = negb (bool_decide (detect_runs (cells g) = [])).
Proof. reflexivity. Qed.

Lemma points_end_if (b : bool) (g : Game) :
  points (if b then Game_end g else g) = points g.
Proof. by destruct b. Qed.

Lemma popFives_points (g : Game) :
  field_ok (field g) = true →
  points (popFives g).1 = points g + Z.of_nat (length (detect_runs (cells g))).
Proof.
  intros Hok.
  rewrite popFives_fst, points_end_if, sweep_all_cells, sweep_list_points.
  - unfold with_field at 1 2. cbn [field points].
    rewrite marked_count; [done..|apply detect_runs_NoDup|
      apply detect_runs_in_bounds].
  - apply NoDup_all_cells.
  - intros k. apply elem_of_all_cells.
Qed.

Lemma sweep_list_points_le (l : list Coordinates) (g : Game) :
  points g ≤ points (foldl sweep_cell g l).
Proof.
  revert g; induction l as [|a l IH]; intros g; cbn [foldl]; [lia|].
  etrans; [|apply IH]. rewrite sweep_cell_points. case_bool_decide; lia.
Qed.

Lemma popFives_points_le (g : Game) : points g ≤ points (popFives g).1.
Proof.
  rewrite popFives_fst, points_end_if, sweep_all_cells.
  etrans; [|apply sweep_list_points_le]. unfold with_field. cbn [points]. lia.
Qed.

(** * Properties of [randomCells] *)

(** ** The three ways through the loop body *)

Lemma draw_in_bounds (rnd : nat → nat) (g : Game) :
  in_bounds (draw rnd g).1.1 (draw rnd g).1.2 = true.
Proof.
  unfold draw, random_below. cbn -[Nat.modulo]. apply in_bounds_spec.
  change (Z.to_nat size) with 9%nat. unfold size.
  pose proof (Nat.mod_upper_bound (rnd (cursor g)) 9).
  pose proof (Nat.mod_upper_bound (rnd (S (cursor g))) 9). lia.
Qed.

Lemma randomCells_body_cases (rnd : nat → nat) (s : Spawn) :
  let r0 := (draw rnd (sp_game s)).1.1 in
  let r1 := (draw rnd (sp_game s)).1.2 in
  let g2 := (draw rnd (sp_game s)).2 in
  randomCells_body rnd s =
  if sp_i s <=? 0 then inr (loop_done s)
  else if bool_decide (field_at (field g2) r0 r1 = Some 0) then
    inl {| sp_i := sp_i s - 1; tryCounter := 0;
           obstacles := obstacles s ++ [(r0, r1)];
           sp_game := place rnd r0 r1 g2 |}
  else if tryCounter s >? size * size then
    if emptyCells (field g2) =? 0
    then inr (game_over {| sp_i := sp_i s; tryCounter := tryCounter s;
                           obstacles := obstacles s;
                           sp_game := Game_end g2 |})
    else inl {| sp_i := sp_i s - 1; tryCounter := tryCounter s;
                obstacles := obstacles s; sp_game := g2 |}
  else
    inl {| sp_i := sp_i s + 1 - 1; tryCounter := tryCounter s + 1;
           obstacles := obstacles s; sp_game := g2 |}.
Proof. reflexivity. Qed.

(** ** Termination *)

Lemma spawn_step (rnd : nat → nat) (s s' : Spawn) :
  spawn_inv s → randomCells_body rnd s = inl s' →
  spawn_inv s' ∧ spawn_mu s' < spawn_mu s.
Proof.
  rewrite randomCells_body_cases. cbv zeta.
  unfold spawn_inv, spawn_mu, ballCount, size. intros [Hi Ht].
  destruct (sp_i s <=? 0) eqn:Hle; [done|]. apply Z.leb_gt in Hle.
  case_bool_decide.
  - intros [= <-]. cbn [sp_i tryCounter]. lia.
  - destruct (tryCounter s >? 9 * 9) eqn:Hgt.
    + destruct (emptyCells _ =? 0); [done|].
      intros [= <-]. cbn [sp_i tryCounter]. lia.
    + intros [= <-]. cbn [sp_i tryCounter].
      rewrite Z.gtb_ltb in Hgt. apply Z.ltb_ge in Hgt. lia.
Qed.

Lemma spawn_inv_init (g : Game) : spawn_inv (spawn0 g).
Proof. unfold spawn_inv, spawn0, ballCount, size. simpl. lia. Qed.

(** The placement loop leaves within 336 turns, whatever the stream. *)
Lemma randomCells_loop_nat (rnd : nat → nat) (g : Game) :
  ∃ r, iter_nat (randomCells_body rnd) 336 (spawn0 g) = inr r ∧
       randomCells_loop rnd g = inr r.
Proof.
  destruct (iter_nat_measure (randomCells_body rnd) spawn_inv spawn_mu)
    with (n := 336%nat) (s := spawn0 g) as [r Hr].
  - unfold spawn_inv, spawn_mu, ballCount, size. intros s [? ?]. lia.
  - apply spawn_step.
  - apply spawn_inv_init.
  - unfold spawn_mu, spawn0, ballCount, size. simpl. lia.
  - exists r. split; [done|]. unfold randomCells_loop.
    rewrite iter_fuel_nat. eapply iter_nat_mono; [|done].
    unfold randomCells_fuel. lia.
Qed.

(** ** What placing a ball changes *)

Lemma place_field (rnd : nat → nat) (r0 r1 : Z) (g : Game) :
  field (place rnd r0 r1 g) = field_set (field g) r0 r1 1.
Proof. unfold place, Ball_new. by destruct (list.last (nextColors g)). Qed.

Lemma place_nextColors (rnd : nat → nat) (r0 r1 : Z) (g : Game) :
  nextColors (place rnd r0 r1 g) = removelast (nextColors g).
Proof. unfold place, Ball_new. by destruct (list.last (nextColors g)). Qed.

Lemma place_points (rnd : nat → nat) (r0 r1 : Z) (g : Game) :
  points (place rnd r0 r1 g) = points g.
Proof. unfold place, Ball_new. by destruct (list.last (nextColors g)). Qed.

Lemma place_ended (rnd : nat → nat) (r0 r1 : Z) (g : Game) :
  ended (place rnd r0 r1 g) = ended g.
Proof. unfold place, Ball_new. by destruct (list.last (nextColors g)). Qed.

(** The ball is appended to the children of the cell, and its colour is
    the last colour of the queue when there is one. *)
Lemma place_cells (rnd : nat → nat) (r0 r1 : Z) (g : Game) :
  ∃ ball, cells (place rnd r0 r1 g) =
            set_children (cells g) r0 r1 (children (cells g) r0 r1 ++ [ball]) ∧
          ∀ col, list.last (nextColors g) = Some col → color ball = col.
Proof.
  unfold place, Ball_new. destruct (list.last (nextColors g)) as [col|].
  - eexists. split; [reflexivity|]. by intros ? [= <-].
  - eexists. split; [reflexivity|]. done.
Qed.

Lemma removelast_take {A} (l : list A) (n : nat) :
  (n ≤ length l)%nat → removelast (take n l) = take (n - 1) l.
Proof.
  destruct n as [|n]; intros Hn; [by destruct l|].
  rewrite removelast_firstn by lia. f_equal. lia.
Qed.

Lemma last_take_reverse {A} (l : list A) (k : nat) :
  list.last (take (length l - k) l) = reverse l !! k.
Proof.
  rewrite last_lookup, length_take_le by lia.
  destruct (decide (k < length l)%nat) as [Hk|Hk].
  - rewrite reverse_lookup by done. rewrite lookup_take_lt by lia.
    f_equal. lia.
  - replace (length l - k)%nat with 0%nat by lia. simpl.
    symmetry. apply lookup_ge_None. rewrite length_reverse. lia.
Qed.

Lemma cells_ok_spec (c : list (list (list Ball))) :
  cells_ok c = true ↔
  ∀ i j, in_bounds i j = true →
         is_Some (row ← c !! Z.to_nat i; row !! Z.to_nat j).
Proof.
  unfold cells_ok. rewrite forallb_forall. split.
  - intros H i j Hk.
    assert (Hin : Coord i j ∈ all_cells) by by apply elem_of_all_cells.
    apply list_elem_of_In, H in Hin. by apply bool_decide_eq_true in Hin.
  - intros H k Hk%list_elem_of_In%elem_of_all_cells.
    apply bool_decide_eq_true. by apply H.
Qed.

Lemma cells_ok_set_children (c : list (list (list Ball))) (i j : Z)
    (k : list Ball) :
  cells_ok c = true → cells_ok (set_children c i j k) = true.
Proof.
  rewrite !cells_ok_spec. intros H i' j' Hb.
  apply set_children_shape. by apply H.
Qed.

Lemma field_ok_field_set (f : list (list Z)) (i j v : Z) :
  v = 0 ∨ v = 1 → field_ok f = true → field_ok (field_set f i j v) = true.
Proof.
  rewrite !field_ok_spec. intros Hv H k Hk. rewrite field_at_set.
  case_decide; [|by apply H].
  destruct (H k Hk) as [-> | ->], Hv as [-> | ->]; simpl; auto.
Qed.

(** In-bounds index pairs are equal as soon as their array indices are. *)
Lemma to_nat_pair (i j i' j' : Z) :
  in_bounds i j = true → in_bounds i' j' = true →
  Z.to_nat i = Z.to_nat i' ∧ Z.to_nat j = Z.to_nat j' ↔ (i, j) = (i', j').
Proof.
  rewrite !in_bounds_spec. intros Hk Hk'.
  split; [intros [? ?]; f_equal; lia|by intros [= -> ->]].
Qed.

(** ** The invariant of the placement loop *)

Lemma spawn_rel_init (g : Game) : spawn_rel g (spawn0 g).
Proof.
  split; unfold spawn0; cbn [sp_game sp_i obstacles]; try done.
  - simpl. rewrite Nat.sub_0_r. by rewrite take_ge.
  - intros r0 r1 H. by apply elem_of_nil in H.
  - constructor.
Qed.

(** A turn that places nothing keeps the invariant. *)
Lemma spawn_rel_same (g0 : Game) (s s' : Spawn) :
  spawn_rel g0 s →
  field (sp_game s') = field (sp_game s) →
  cells (sp_game s') = cells (sp_game s) →
  nextColors (sp_game s') = nextColors (sp_game s) →
  points (sp_game s') = points (sp_game s) →
  obstacles s' = obstacles s →
  0 ≤ sp_i s' ≤ sp_i s →
  spawn_rel g0 s'.
Proof.
  intros [Hp Hf Hc Hl Hq Hpl Hnd Hot Hcol] Ef Ec En Ep Eo Hi.
  split; rewrite ?Ef, ?Ec, ?En, ?Ep, ?Eo; try done. lia.
Qed.

(** A turn that places a ball keeps the invariant. *)
Lemma spawn_rel_place (rnd : nat → nat) (g0 g2 : Game) (s : Spawn) (r0 r1 : Z) :
  spawn_rel g0 s →
  field g2 = field (sp_game s) → cells g2 = cells (sp_game s) →
  nextColors g2 = nextColors (sp_game s) → points g2 = points (sp_game s) →
  in_bounds r0 r1 = true → field_at (field g2) r0 r1 = Some 0 → 0 < sp_i s →
  spawn_rel g0 {| sp_i := sp_i s - 1; tryCounter := 0;
                  obstacles := obstacles s ++ [(r0, r1)];
                  sp_game := place rnd r0 r1 g2 |}.
Proof.
  intros [Hp Hf Hc Hl Hq Hpl Hnd Hot Hcol] Ef Ec En Ep Hb H0 Hi.
  rewrite Ef in H0.
  assert (Hnew : (r0, r1) ∉ obstacles s).
  { intros Hin. destruct (Hpl r0 r1 Hin) as (_ & _ & H1). congruence. }
  destruct (place_cells rnd r0 r1 g2) as (ball & Hcells & Hball).
  rewrite Ec, En in *. 
  split; cbn [sp_game sp_i obstacles];
    rewrite ?place_points, ?place_field, ?place_nextColors, ?Hcells, ?Ef, ?En, ?Ep.
  - done.
  - intros Hok. apply field_ok_field_set; auto.
  - intros Hok. apply cells_ok_set_children; auto.
  - rewrite length_app. simpl. lia.
  - rewrite Hq, removelast_take by lia.
    rewrite length_app. simpl. f_equal. lia.
  - intros i j [Hin| [= -> ->]%list_elem_of_singleton]%elem_of_app.
    + destruct (Hpl i j Hin) as (Hbi & Hi0 & Hi1). split_and!; [done..|].
      rewrite field_at_set, Hi1. by case_decide.
    + destruct (Hot r0 r1 Hb Hnew) as [Hfe _]. split_and!; [done|congruence|].
      rewrite field_at_set, decide_True by done. by rewrite H0.
  - apply list.NoDup_app. split_and!; [done| |apply NoDup_singleton].
    intros k Hk ->%list_elem_of_singleton. done.
  - intros i j Hbi Hnot. rewrite elem_of_app, list_elem_of_singleton in Hnot.
    assert (Hne : ¬ (Z.to_nat r0 = Z.to_nat i ∧ Z.to_nat r1 = Z.to_nat j)).
    { intros Heq%to_nat_pair; [|done..]. apply Hnot. by right. }
    rewrite field_at_set, decide_False, children_set_ne by done.
    apply Hot; [done|]. intros Hin. apply Hnot. by left.
  - intros Hok n i j Hn.
    assert (Hlen : (n < length (obstacles s) ∨ n = length (obstacles s))%nat).
    { apply lookup_lt_Some in Hn. rewrite length_app in Hn. simpl in Hn. lia. }
    destruct Hlen as [Hlt| ->].
    + rewrite lookup_app_l in Hn by done.
      destruct (Hcol Hok n i j Hn) as (b & Hb1 & Hb2). exists b.
      split; [|done]. rewrite children_set_ne; [done|].
      assert (Hin : (i, j) ∈ obstacles s) by by eapply list_elem_of_lookup_2.
      destruct (Hpl i j Hin) as (Hbi & _).
      intros Heq%to_nat_pair; [|done..]. congruence.
    + rewrite lookup_app_r, Nat.sub_diag in Hn by done.
      injection Hn as <- <-. exists ball.
      destruct (Hot r0 r1 Hb Hnew) as [_ Hkids].
      rewrite children_set_eq, Hkids.
      * split; [done|]. intros col Hrev. apply Hball.
        by rewrite Hq, last_take_reverse.
      * apply cells_ok_spec; auto.
Qed.

Lemma spawn_rel_step (rnd : nat → nat) (g0 : Game) (s s' : Spawn) :
  spawn_rel g0 s ∧ ended (sp_game s) = ended g0 →
  randomCells_body rnd s = inl s' →
  spawn_rel g0 s' ∧ ended (sp_game s') = ended g0.
Proof.
  rewrite randomCells_body_cases. cbv zeta. intros [Hrel Hend].
  destruct (sp_i s <=? 0) eqn:Hle; [done|]. apply Z.leb_gt in Hle.
  pose proof (sr_left _ _ Hrel) as Hleft.
  case_bool_decide as Hfree.
  - intros [= <-]. split.
    + apply spawn_rel_place; try done. apply draw_in_bounds.
    + cbn [sp_game]. by rewrite place_ended.
  - destruct (tryCounter s >? size * size).
    + destruct (emptyCells _ =? 0); [done|]. intros [= <-]. split; [|done].
      eapply spawn_rel_same; [done..|]. cbn [sp_i]. lia.
    + intros [= <-]. split; [|done].
      eapply spawn_rel_same; [done..|]. cbn [sp_i]. lia.
Qed.

(** How [randomCells]'s loop ends: either with [i = 0], or by the early
    [return] on a board without a free cell. *)
Lemma randomCells_loop_spec (rnd : nat → nat) (g : Game) :
  (∃ s, randomCells_loop rnd g = inr (loop_done s) ∧ spawn_rel g s ∧
        sp_i s = 0 ∧ ended (sp_game s) = ended g) ∨
  (∃ s, randomCells_loop rnd g = inr (game_over s) ∧ spawn_rel g s ∧
        ended (sp_game s) = true ∧ emptyCells (field (sp_game s)) = 0).
Proof.
  destruct (randomCells_loop_nat rnd g) as (r & Hn & ->).
  destruct (iter_nat_inv (randomCells_body rnd)
              (λ s, spawn_rel g s ∧ ended (sp_game s) = ended g))
    with (n := 336%nat) (s := spawn0 g) (r := r) as (s & [Hrel Hend] & Hb).
  - intros s s'. apply spawn_rel_step.
  - split; [apply spawn_rel_init|done].
  - done.
  - revert Hb. rewrite randomCells_body_cases. cbv zeta.
    pose proof (sr_left _ _ Hrel) as Hleft.
    destruct (sp_i s <=? 0) eqn:Hle.
    + intros [= <-]. left. exists s. apply Z.leb_le in Hle.
      split_and!; [done..|lia|done].
    + case_bool_decide; [done|].
      destruct (tryCounter s >? size * size); [|done].
      destruct (emptyCells _ =? 0) eqn:Hempty; [|done].
      intros [= <-]. right. eexists. split; [done|].
      apply Z.eqb_eq in Hempty. split_and!; [|done|done].
      eapply spawn_rel_same; [done..|]. cbn [sp_i]. apply Z.leb_gt in Hle. lia.
Qed.

(** What the placement loop guarantees: at most [ballCount] balls, on
    distinct cells of the board that were empty and are occupied
    afterwards; and it ends the game only on a field without an empty
    cell. *)
Lemma randomCells_places (rnd : nat → nat) (g : Game) :
  ∃ s, (randomCells_loop rnd g = inr (loop_done s) ∨
        (randomCells_loop rnd g = inr (game_over s) ∧
         emptyCells (field (sp_game s)) = 0)) ∧
       NoDup (obstacles s) ∧
       Z.of_nat (length (obstacles s)) ≤ ballCount ∧
       ∀ r0 r1, (r0, r1) ∈ obstacles s →
         in_bounds r0 r1 = true ∧ field_at (field g) r0 r1 = Some 0 ∧
         field_at (field (sp_game s)) r0 r1 = Some 1.
Proof.
  destruct (randomCells_loop_spec rnd g)
    as [(s & Hl & Hrel & _)|(s & Hl & Hrel & _ & Hempty)]; exists s;
    pose proof (sr_left _ _ Hrel) as [? ?];
    (split_and!; [auto|exact (sr_nodup _ _ Hrel)|lia|exact (sr_placed _ _ Hrel)]).
Qed.

(** ** The refill of the queue and the whole of [randomCells] *)

Lemma refill_spec (rnd : nat → nat) (g : Game) :
  refill rnd g =
  {| field := field g; cells := cells g; selected := selected g;
     selectedIndex := selectedIndex g;
     nextColors := [pick_color (Z.of_nat (rnd (cursor g) mod 7));
                    pick_color (Z.of_nat (rnd (S (cursor g)) mod 7));
                    pick_color (Z.of_nat (rnd (S (S (cursor g))) mod 7))];
     points := points g; ended := ended g; fresh := fresh g;
     cursor := S (S (S (cursor g))) |}.
Proof. reflexivity. Qed.

Lemma randomCells_done (rnd : nat → nat) (g : Game) (s : Spawn) :
  randomCells_loop rnd g = inr (loop_done s) →
  randomCells rnd g = (popFives (refill rnd (sp_game s))).1.
Proof. intros H. unfold randomCells. by rewrite H. Qed.

Lemma randomCells_over (rnd : nat → nat) (g : Game) (s : Spawn) :
  randomCells_loop rnd g = inr (game_over s) →
  randomCells rnd g = sp_game s.
Proof. intros H. unfold randomCells. by rewrite H. Qed.

Lemma randomCells_points_le (rnd : nat → nat) (g : Game) :
  points g ≤ points (randomCells rnd g).
Proof.
  destruct (randomCells_loop_spec rnd g)
    as [(s & Hl & Hrel & _)|(s & Hl & Hrel & _)].
  - rewrite (randomCells_done rnd g s Hl).
    etrans; [|apply popFives_points_le].
    rewrite refill_spec. cbn [points]. rewrite (sr_points _ _ Hrel). lia.
  - rewrite (randomCells_over rnd g s Hl), (sr_points _ _ Hrel). lia.
Qed.

Lemma handleClicks_points_le (coords : Coordinates) (g : Game) :
  points g ≤ points (handleClicks coords g).1.
Proof.
  unfold handleClicks.
  destruct (head (children (cells g) (x coords) (y coords))) as [ball|].
  - case_bool_decide; [simpl; lia|]. destruct (checkMovement g ball); simpl; lia.
  - destruct (selected g) as [sel|]; [|simpl; lia].
    destruct (selectedIndex g) as [idx|]; [|simpl; lia].
    destruct (found (getPath (field g) idx coords)); [|simpl; lia].
    match goal with |- context [popFives ?g1] =>
      pose proof (popFives_points_le g1) as Hle;
      destruct (popFives g1) as [g2 popped] end.
    cbn [fst select points] in *. lia.
Qed.

Lemma handleClicks_timeout_points_le (rnd : nat → nat) (popped : bool)
    (g : Game) :
  points g ≤ points (handleClicks_timeout rnd popped g).
Proof.
  unfold handleClicks_timeout. destruct popped; [lia|].
  apply randomCells_points_le.
Qed.

(** ** What [popFives] leaves on the board *)

Lemma sweep_cell_ended (g : Game) (k : Coordinates) :
  ended (sweep_cell g k) = ended g.
Proof. unfold sweep_cell. by case_bool_decide. Qed.

Lemma sweep_list_ended (l : list Coordinates) (g : Game) :
  ended (foldl sweep_cell g l) = ended g.
Proof.
  revert g; induction l as [|a l IH]; intros g; cbn [foldl]; [done|].
  by rewrite IH, sweep_cell_ended.
Qed.

Lemma field_with_field (g : Game) (f : list (list Z)) : field (with_field g f) = f.
Proof. reflexivity. Qed.

Lemma cells_with_field (g : Game) (f : list (list Z)) :
  cells (with_field g f) = cells g.
Proof. reflexivity. Qed.

Lemma cells_end_if (b : bool) (g : Game) :
  cells (if b then Game_end g else g) = cells g.
Proof. by destruct b. Qed.

Lemma field_end_if (b : bool) (g : Game) :
  field (if b then Game_end g else g) = field g.
Proof. by destruct b. Qed.

Lemma ended_end_if (b : bool) (g : Game) :
  ended (if b then Game_end g else g) = ended g || b.
Proof. destruct b; simpl; by rewrite ?orb_true_r, ?orb_false_r. Qed.

Lemma ended_with_field (g : Game) (f : list (list Z)) :
  ended (with_field g f) = ended g.
Proof. reflexivity. Qed.

Lemma popFives_ended (g : Game) :
  ended (popFives g).1 =
  ended g || (emptyCells (field (popFives g).1) =? 0).
Proof.
  rewrite popFives_fst, ended_end_if, field_end_if.
  by rewrite sweep_all_cells, sweep_list_ended, ended_with_field.
Qed.

Lemma sweep_cell_cells_ok (g : Game) (k : Coordinates) :
  cells_ok (cells g) = true → cells_ok (cells (sweep_cell g k)) = true.
Proof.
  intros Hok. unfold sweep_cell. case_bool_decide; [|done].
  by apply cells_ok_set_children.
Qed.

Lemma sweep_cell_children (g : Game) (k k' : Coordinates) :
  in_bounds (x k) (y k) = true → in_bounds (x k') (y k') = true → k ≠ k' →
  children (cells (sweep_cell g k)) (x k') (y k') = children (cells g) (x k') (y k').
Proof.
  intros Hk Hk' Hne. unfold sweep_cell. case_bool_decide; [|done]. cbn [cells].
  apply children_set_ne. intros Heq. by apply Hne, (to_nat_coord k k').
Qed.

(** After the sweep, a cell of [l] that was marked has no child, and
    every other cell of the board keeps its children. *)
Lemma sweep_list_children_out (l : list Coordinates) (g : Game) (k : Coordinates) :
  (∀ a, a ∈ l → in_bounds (x a) (y a) = true) →
  in_bounds (x k) (y k) = true →
  k ∉ l ∨ field_at (field g) (x k) (y k) ≠ Some (-1) →
  children (cells (foldl sweep_cell g l)) (x k) (y k)
  = children (cells g) (x k) (y k) ∧
  field_at (field (foldl sweep_cell g l)) (x k) (y k)
  = field_at (field g) (x k) (y k).
Proof.
  revert g; induction l as [|a l IH]; intros g Hin Hk Hout; cbn [foldl]; [done|].
  assert (Hba : in_bounds (x a) (y a) = true) by (apply Hin; left).
  assert (Hstep : children (cells (sweep_cell g a)) (x k) (y k)
                  = children (cells g) (x k) (y k) ∧
                  field_at (field (sweep_cell g a)) (x k) (y k)
                  = field_at (field g) (x k) (y k)).
  { destruct (decide (a = k)) as [->|Hne].
    - unfold sweep_cell. case_bool_decide as Hm; [|done].
      destruct Hout as [Hout|Hout]; [|done]. exfalso. apply Hout. left.
    - by rewrite sweep_cell_field, sweep_cell_children. }
  destruct Hstep as [Hc Hf].
  destruct (IH (sweep_cell g a)) as [IHc IHf];
    [intros; apply Hin; by right|done| |by rewrite IHc, IHf].
  destruct Hout as [Hout|Hout]; [left|right].
  - intros ?. apply Hout. by right.
  - by rewrite Hf.
Qed.

Lemma sweep_list_children_in (l : list Coordinates) (g : Game) (k : Coordinates) :
  NoDup l → (∀ a, a ∈ l → in_bounds (x a) (y a) = true) →
  cells_ok (cells g) = true →
  k ∈ l → field_at (field g) (x k) (y k) = Some (-1) →
  children (cells (foldl sweep_cell g l)) (x k) (y k) = [].
Proof.
  revert g; induction l as [|a l IH]; intros g Hnd Hin Hok Hk Hm; cbn [foldl].
  - by apply elem_of_nil in Hk.
  - apply list.NoDup_cons in Hnd as [Ha Hnd].
    assert (Hba : in_bounds (x a) (y a) = true) by (apply Hin; left).
    apply elem_of_cons in Hk as [->|Hk].
    + destruct (sweep_list_children_out l (sweep_cell g a) a) as [-> _];
        [intros; apply Hin; by right|done|by left|].
      unfold sweep_cell. rewrite bool_decide_eq_true_2 by done. cbn [cells].
      apply children_set_eq. by apply cells_ok_spec.
    + assert (Hbk : in_bounds (x k) (y k) = true) by (apply Hin; by right).
      apply IH; [done|intros; apply Hin; by right
                |by apply sweep_cell_cells_ok|done|].
      rewrite sweep_cell_field; [done..|]. by intros ->.
Qed.

(** On a sound board the marked cells are those of the clear-set. *)
Lemma marked_iff (f : list (list Z)) (td : list Coordinates) (k : Coordinates) :
  field_ok f = true → (∀ t, t ∈ td → in_bounds (x t) (y t) = true) →
  in_bounds (x k) (y k) = true →
  field_at (mark f td) (x k) (y k) = Some (-1) ↔ k ∈ td.
Proof.
  intros Hok Htd Hk. rewrite field_at_mark by assumption.
  destruct (proj1 (field_ok_spec f) Hok k Hk) as [Hf|Hf]; rewrite Hf;
    case_decide; split; done.
Qed.

Lemma popFives_children_in (g : Game) (k : Coordinates) :
  field_ok (field g) = true → cells_ok (cells g) = true →
  k ∈ detect_runs (cells g) →
  children (cells (popFives g).1) (x k) (y k) = [].
Proof.
  intros Hf Hc Hk.
  rewrite popFives_fst, cells_end_if, sweep_all_cells.
  apply sweep_list_children_in.
  - apply NoDup_all_cells.
  - intros a. apply elem_of_all_cells.
  - rewrite cells_with_field. exact Hc.
  - apply elem_of_all_cells, (detect_runs_in_bounds (cells g)), Hk.
  - rewrite field_with_field. apply marked_iff; [exact Hf| | |exact Hk].
    + apply detect_runs_in_bounds.
    + apply (detect_runs_in_bounds (cells g)), Hk.
Qed.

Lemma popFives_children_out (g : Game) (k : Coordinates) :
  field_ok (field g) = true → in_bounds (x k) (y k) = true →
  k ∉ detect_runs (cells g) →
  children (cells (popFives g).1) (x k) (y k) = children (cells g) (x k) (y k).
Proof.
  intros Hf Hk Hout.
  rewrite popFives_fst, cells_end_if, sweep_all_cells.
  destruct (sweep_list_children_out all_cells
              (with_field g (mark (field g) (detect_runs (cells g)))) k)
    as [-> _]; [intros a; apply elem_of_all_cells|assumption| |
                by rewrite cells_with_field].
  right. rewrite field_with_field. intros Hm. apply Hout.
  eapply marked_iff; [exact Hf|apply detect_runs_in_bounds|exact Hk|exact Hm].
Qed.

Lemma ballColors_eq (c : list (list (list Ball))) (i j : Z) :
  ballColors c i j = color <$> head (children c i j).
Proof. reflexivity. Qed.

(** A window of five that is on the board after [popFives] was there
    before, and none of its cells was in the clear-set. *)
Lemma popFives_run_kept (g : Game) (s d : Coordinates) (col : Color) (n : Z) :
  field_ok (field g) = true → cells_ok (cells g) = true →
  window (cells (popFives g).1) s d col → 0 ≤ n < 5 →
  window_cell s d n ∉ detect_runs (cells g).
Proof.
  intros Hf Hc Hw Hn Hin. destruct (Hw n Hn) as [Hb Hcol].
  rewrite ballColors_eq, (popFives_children_in g _ Hf Hc Hin) in Hcol.
  discriminate Hcol.
Qed.

Lemma popFives_window (g : Game) (s d : Coordinates) (col : Color) :
  field_ok (field g) = true → cells_ok (cells g) = true →
  window (cells (popFives g).1) s d col → window (cells g) s d col.
Proof.
  intros Hf Hc Hw n Hn. destruct (Hw n Hn) as [Hb Hcol]. split; [exact Hb|].
  rewrite ballColors_eq in Hcol |- *.
  rewrite (popFives_children_out g _ Hf Hb) in Hcol; [exact Hcol|].
  exact (popFives_run_kept g s d col n Hf Hc Hw Hn).
Qed.

Lemma popFives_no_run (g : Game) (k : Coordinates) :
  field_ok (field g) = true → cells_ok (cells g) = true →
  k ∉ detect_runs (cells (popFives g).1).
Proof.
  intros Hf Hc Hk.
  apply detect_runs_elem in Hk as (s & d & col & i & Hax & Hw & Hi & ->).
  apply (popFives_run_kept g s d col 0 Hf Hc Hw); [lia|].
  apply detect_runs_elem.
  exists s, d, col, 0. split_and!; [assumption| |lia|lia|reflexivity].
  exact (popFives_window g s d col Hf Hc Hw).
Qed.

(** No line of five is left once [popFives] has run on a sound board. *)
Lemma popFives_clears (g : Game) :
  field_ok (field g) = true → cells_ok (cells g) = true →
  detect_runs (cells (popFives g).1) = [].
Proof.
  intros Hf Hc. apply elem_of_nil_inv. intros k.
  exact (popFives_no_run g k Hf Hc).
Qed.

(** ** Sound boards stay sound *)

Lemma sweep_cell_nextColors (g : Game) (k : Coordinates) :
  nextColors (sweep_cell g k) = nextColors g.
Proof. unfold sweep_cell. by case_bool_decide. Qed.

Lemma sweep_list_nextColors (l : list Coordinates) (g : Game) :
  nextColors (foldl sweep_cell g l) = nextColors g.
Proof.
  revert g; induction l as [|a l IH]; intros g; cbn [foldl]; [done|].
  by rewrite IH, sweep_cell_nextColors.
Qed.

Lemma nextColors_end_if (b : bool) (g : Game) :
  nextColors (if b then Game_end g else g) = nextColors g.
Proof. by destruct b. Qed.

Lemma popFives_nextColors (g : Game) :
  nextColors (popFives g).1 = nextColors g.
Proof.
  by rewrite popFives_fst, nextColors_end_if, sweep_all_cells,
    sweep_list_nextColors.
Qed.

Lemma sweep_list_field_in (l : list Coordinates) (g : Game) (k : Coordinates) :
  NoDup l → (∀ a, a ∈ l → in_bounds (x a) (y a) = true) →
  k ∈ l → field_at (field g) (x k) (y k) = Some (-1) →
  field_at (field (foldl sweep_cell g l)) (x k) (y k) = Some 0.
Proof.
  revert g; induction l as [|a l IH]; intros g Hnd Hin Hk Hm; cbn [foldl].
  - by apply elem_of_nil in Hk.
  - apply list.NoDup_cons in Hnd as [Ha Hnd].
    assert (Hba : in_bounds (x a) (y a) = true) by (apply Hin; left).
    apply elem_of_cons in Hk as [->|Hk].
    + destruct (sweep_list_children_out l (sweep_cell g a) a) as [_ ->];
        [intros; apply Hin; by right|done|by left|].
      unfold sweep_cell. rewrite bool_decide_eq_true_2 by done. cbn [field].
      rewrite field_at_set, decide_True by done. by rewrite Hm.
    + assert (Hbk : in_bounds (x k) (y k) = true) by (apply Hin; by right).
      apply IH; [done|intros; apply Hin; by right|done|].
      rewrite sweep_cell_field; [done..|]. by intros ->.
Qed.

Lemma sweep_list_cells_ok (l : list Coordinates) (g : Game) :
  cells_ok (cells g) = true → cells_ok (cells (foldl sweep_cell g l)) = true.
Proof.
  revert g; induction l as [|a l IH]; intros g Hok; cbn [foldl]; [done|].
  by apply IH, sweep_cell_cells_ok.
Qed.

Lemma popFives_field_ok (g : Game) :
  field_ok (field g) = true → field_ok (field (popFives g).1) = true.
Proof.
  intros Hf. apply field_ok_spec. intros k Hk.
  rewrite popFives_fst, field_end_if, sweep_all_cells.
  destruct (decide (k ∈ detect_runs (cells g))) as [Hin|Hout].
  - left. apply sweep_list_field_in.
    + apply NoDup_all_cells.
    + intros a. apply elem_of_all_cells.
    + apply elem_of_all_cells, Hk.
    + rewrite field_with_field.
      apply marked_iff; [exact Hf|apply detect_runs_in_bounds|exact Hk|exact Hin].
  - destruct (sweep_list_children_out all_cells
                (with_field g (mark (field g) (detect_runs (cells g)))) k)
      as [_ ->]; [intros a; apply elem_of_all_cells|exact Hk| |].
    + right. rewrite field_with_field. intros Hm. apply Hout.
      eapply marked_iff; [exact Hf|apply detect_runs_in_bounds|exact Hk|exact Hm].
    + rewrite field_with_field, field_at_mark;
        [|exact Hk|apply detect_runs_in_bounds].
      rewrite decide_False by exact Hout.
      exact (proj1 (field_ok_spec _) Hf k Hk).
Qed.

Lemma popFives_cells_ok (g : Game) :
  cells_ok (cells g) = true → cells_ok (cells (popFives g).1) = true.
Proof.
  intros Hc. rewrite popFives_fst, cells_end_if, sweep_all_cells.
  apply sweep_list_cells_ok. rewrite cells_with_field. exact Hc.
Qed.

Lemma randomCells_field_ok (rnd : nat → nat) (g : Game) :
  field_ok (field g) = true → field_ok (field (randomCells rnd g)) = true.
Proof.
  intros Hf.
  destruct (randomCells_loop_spec rnd g)
    as [(s & Hl & Hrel & _)|(s & Hl & Hrel & _)].
  - rewrite (randomCells_done rnd g s Hl). apply popFives_field_ok.
    rewrite refill_spec. cbn [field]. exact (sr_field_ok _ _ Hrel Hf).
  - rewrite (randomCells_over rnd g s Hl). exact (sr_field_ok _ _ Hrel Hf).
Qed.

Lemma randomCells_cells_ok (rnd : nat → nat) (g : Game) :
  cells_ok (cells g) = true → cells_ok (cells (randomCells rnd g)) = true.
Proof.
  intros Hc.
  destruct (randomCells_loop_spec rnd g)
    as [(s & Hl & Hrel & _)|(s & Hl & Hrel & _)].
  - rewrite (randomCells_done rnd g s Hl). apply popFives_cells_ok.
    rewrite refill_spec. cbn [cells]. exact (sr_cells_ok _ _ Hrel Hc).
  - rewrite (randomCells_over rnd g s Hl). exact (sr_cells_ok _ _ Hrel Hc).
Qed.

Lemma cells_ok_appendChild (c : list (list (list Ball))) (i j : Z) (b : Ball) :
  cells_ok c = true → cells_ok (appendChild c i j b) = true.
Proof.
  intros Hc. unfold appendChild. apply cells_ok_set_children.
  apply cells_ok_spec. intros i' j' Hb.
  apply (proj1 (cells_ok_spec c) Hc) in Hb as [kids Hk].
  rewrite list_lookup_fmap.
  destruct (c !! Z.to_nat i') as [row|]; [|done]. simpl in *.
  rewrite list_lookup_fmap, Hk. by eexists.
Qed.

Lemma handleClicks_field_ok (coords : Coordinates) (g : Game) :
  field_ok (field g) = true →
  field_ok (field (handleClicks coords g).1) = true.
Proof.
  intros Hf. unfold handleClicks.
  destruct (head (children (cells g) (x coords) (y coords))) as [ball|].
  - case_bool_decide; [done|]. by destruct (checkMovement g ball).
  - destruct (selected g) as [sel|]; [|done].
    destruct (selectedIndex g) as [idx|]; [|done].
    destruct (found (getPath (field g) idx coords)); [|done].
    match goal with |- context [popFives ?g1] =>
      pose proof (popFives_field_ok g1) as Hf1;
      destruct (popFives g1) as [g2 popped] end.
    cbn [fst select field] in *.
    apply Hf1. apply field_ok_field_set; [by left|].
    apply field_ok_field_set; [by right|exact Hf].
Qed.

Lemma handleClicks_cells_ok (coords : Coordinates) (g : Game) :
  cells_ok (cells g) = true →
  cells_ok (cells (handleClicks coords g).1) = true.
Proof.
  intros Hc. unfold handleClicks.
  destruct (head (children (cells g) (x coords) (y coords))) as [ball|].
  - case_bool_decide; [done|]. by destruct (checkMovement g ball).
  - destruct (selected g) as [sel|]; [|done].
    destruct (selectedIndex g) as [idx|]; [|done].
    destruct (found (getPath (field g) idx coords)); [|done].
    match goal with |- context [popFives ?g1] =>
      pose proof (popFives_cells_ok g1) as Hc1;
      destruct (popFives g1) as [g2 popped] end.
    cbn [fst select cells] in *.
    apply Hc1. apply cells_ok_appendChild, Hc.
Qed.

Lemma new_game_ok :
  field_ok (field new_game) = true ∧ cells_ok (cells new_game) = true.
Proof. split; reflexivity. Qed.

(** * The claims about [getPath] *)

(** C1. When [getPath] reports [found], its path is a route from [start]
    to [end_]: it begins at [start], ends at [end_], and every step goes
    to an orthogonally adjacent empty cell of the board; all of its cells
    are inside the board when [start] is; and no route from [start] to
    [end_] over empty cells is shorter. *)
Theorem getPath_shortest (f : list (list Z)) (start end_ : Coordinates) :
  found (getPath f start end_) = true →
  route f start end_ (path (getPath f start end_)) = true ∧
  (in_bounds (x start) (y start) = true →
   Forall (λ c, in_bounds (x c) (y c) = true) (path (getPath f start end_))) ∧
  ∀ l, route f start end_ l = true →
       (length (path (getPath f start end_)) ≤ length l)%nat.
Proof.
  intros Hfound.
  destruct (getPath_found f start end_ Hfound) as (p & -> & Hw & Hnd & Hmin).
  split_and!.
  - by apply walk_route.
  - intros Hstart. apply list.Forall_forall. intros k Hk.
    destruct (walk_cells f start p end_ Hw k Hk) as [->|Hp]; [done|].
    by apply passable_spec in Hp as [? _].
  - intros l (p' & -> & Hw')%route_walk. rewrite !length_app. simpl.
    specialize (Hmin p' Hw'). lia.
Qed.

Lemma getPath_shortest_witness :
  route one_ball_field (Coord 4 4) (Coord 4 6)
    (path (getPath one_ball_field (Coord 4 4) (Coord 4 6))) = true ∧
  (in_bounds (x (Coord 4 4)) (y (Coord 4 4)) = true →
   Forall (λ c, in_bounds (x c) (y c) = true)
     (path (getPath one_ball_field (Coord 4 4) (Coord 4 6)))) ∧
  ∀ l, route one_ball_field (Coord 4 4) (Coord 4 6) l = true →
       (length (path (getPath one_ball_field (Coord 4 4) (Coord 4 6)))
        ≤ length l)%nat.
Proof.
  apply (getPath_shortest one_ball_field (Coord 4 4) (Coord 4 6)).
  vm_compute. reflexivity.
Defined.

(** The route found there goes around the ball at (4,5), in five cells. *)
Example getPath_around :
  getPath one_ball_field (Coord 4 4) (Coord 4 6)
  = {| path := [Coord 4 4; Coord 5 4; Coord 5 5; Coord 5 6; Coord 4 6];
       found := true |}.
Proof. vm_compute. reflexivity. Qed.

(** C5. [getPath] from a cell to itself finds the one-cell path [[c]],
    whatever the board holds at [c] and around it. *)
Theorem getPath_same_cell (f : list (list Z)) (c : Coordinates) :
  getPath f c c = {| path := [c]; found := true |}.
Proof.
  unfold getPath, getPath_loop.
  rewrite (iter_fuel_now _ _ _ {| path := [c]; found := true |}); [done|].
  unfold getPath_body. simpl. by rewrite !Z.eqb_refl.
Qed.

(** C6. Every cell of the returned path other than [start] (every cell
    after the first) is empty in the board, and a search that succeeds
    with [start ≠ end_] has found [end_] empty. *)
Theorem getPath_avoids_occupied (f : list (list Z)) (start end_ : Coordinates) :
  (∀ c, c ∈ path (getPath f start end_) → c ≠ start →
        field_at f (x c) (y c) = Some 0) ∧
  (∀ i c, path (getPath f start end_) !! S i = Some c →
          field_at f (x c) (y c) = Some 0) ∧
  (found (getPath f start end_) = true → start ≠ end_ →
   field_at f (x end_) (y end_) = Some 0).
Proof.
  destruct (found (getPath f start end_)) eqn:Hfound.
  - destruct (getPath_found f start end_ Hfound) as (p & Hp & Hw & Hnd & _).
    rewrite Hp.
    assert (Hcells : ∀ c, c ∈ p ++ [end_] → c ≠ start →
                          field_at f (x c) (y c) = Some 0).
    { intros c Hc Hne.
      destruct (walk_cells f start p end_ Hw c Hc) as [?|Hpass]; [done|].
      by apply passable_spec in Hpass as [_ ?]. }
    split_and!; [done| |].
    + intros i c Hi. apply Hcells; [by eapply list_elem_of_lookup_2|].
      pose proof (walk_route f start p end_ Hw) as Hr.
      destruct (p ++ [end_]) as [|c0 l]; [done|]. simpl in Hr, Hi.
      apply andb_prop in Hr as [Hr _]. apply andb_prop in Hr as [Hc0 _].
      apply bool_decide_eq_true in Hc0 as ->.
      apply list.NoDup_cons in Hnd as [Hnotin _]. intros ->.
      apply Hnotin. by eapply list_elem_of_lookup_2.
    + intros _ Hne. apply Hcells; [|done].
      apply elem_of_app. right. left.
  - rewrite (getPath_not_found f start end_ Hfound).
    split_and!; [|done..]. intros c Hc. by apply elem_of_nil in Hc.
Qed.

(** * The claims about [popFives] *)

(** C4. A cell is in the clear-set of [popFives] exactly when it lies in
    a window of five consecutive cells of the board, along one of the four
    axes, that all hold a ball of one colour; on a sound board [popFives]
    then empties these cells and no others.  For five balls of one colour
    at (0,0)..(0,4) the clear-set is these five cells, and it is empty
    when no such window exists. *)
Theorem detect_runs_exact :
  (∀ c k, k ∈ detect_runs c ↔ in_run c k) ∧
  (∀ g k, field_ok (field g) = true → cells_ok (cells g) = true →
          in_bounds (x k) (y k) = true →
          (in_run (cells g) k →
           children (cells (popFives g).1) (x k) (y k) = []) ∧
          (¬ in_run (cells g) k →
           children (cells (popFives g).1) (x k) (y k)
           = children (cells g) (x k) (y k))) ∧
  (∀ col, detect_runs (cells (row_of_five col))
          = [Coord 0 0; Coord 0 1; Coord 0 2; Coord 0 3; Coord 0 4]) ∧
  (∀ c, (∀ k, ¬ in_run c k) → detect_runs c = []).
Proof.
  split_and!.
  - apply detect_runs_elem.
  - intros g k Hf Hc Hk. split; intros Hrun.
    + apply popFives_children_in; [exact Hf|exact Hc|].
      apply detect_runs_elem, Hrun.
    + apply popFives_children_out; [exact Hf|exact Hk|].
      intros Hin. apply Hrun, detect_runs_elem, Hin.
  - intros col. destruct col; vm_compute; reflexivity.
  - intros c Hnone. apply elem_of_nil_inv. intros k Hk.
    apply (Hnone k), detect_runs_elem, Hk.
Qed.

(** C7. The score never decreases, whichever operation of the engine
    runs, and on a sound board one run of [popFives] adds to it exactly
    the number of cells of the clear-set, which has no repetition.  Sound
    boards are all the engine meets: the new game has one and every
    operation keeps it. *)
Theorem score_monotone_exact :
  (∀ g, points g ≤ points (popFives g).1) ∧
  (∀ rnd g, points g ≤ points (randomCells rnd g)) ∧
  (∀ coords g, points g ≤ points (handleClicks coords g).1) ∧
  (∀ rnd popped g, points g ≤ points (handleClicks_timeout rnd popped g)) ∧
  (∀ g, field_ok (field g) = true →
        NoDup (detect_runs (cells g)) ∧
        points (popFives g).1
        = points g + Z.of_nat (length (detect_runs (cells g)))) ∧
  (field_ok (field new_game) = true ∧
   (∀ g, field_ok (field g) = true → field_ok (field (popFives g).1) = true) ∧
   (∀ rnd g, field_ok (field g) = true →
             field_ok (field (randomCells rnd g)) = true) ∧
   (∀ coords g, field_ok (field g) = true →
                field_ok (field (handleClicks coords g).1) = true)).
Proof.
  split_and!.
  - apply popFives_points_le.
  - apply randomCells_points_le.
  - apply handleClicks_points_le.
  - apply handleClicks_timeout_points_le.
  - intros g Hf. split; [apply detect_runs_NoDup|apply popFives_points, Hf].
  - reflexivity.
  - apply popFives_field_ok.
  - apply randomCells_field_ok.
  - apply handleClicks_field_ok.
Qed.

(** * The claim about termination *)

(** C8. Both loops of the engine leave with a result on every input: the
    search of [getPath] for every board, start and end, although a cell
    can wait in the queue several times (on the empty board, after four
    turns from (4,4), the cell (5,5) is queued twice); and the placement
    loop of [randomCells] for every game and every random stream, within
    336 turns.  Every other operation is a structurally recursive
    function. *)
Theorem loops_terminate :
  (∀ f start end_, ∃ r, getPath_loop f start end_ = inr r) ∧
  (∃ s, iter_nat (getPath_body empty_field (Coord 8 8)) 4 (search0 (Coord 4 4))
        = inl s ∧
        length (filter (λ e, e.1 = Coord 5 5) (queue s)) = 2%nat) ∧
  (∀ rnd g, ∃ r, iter_nat (randomCells_body rnd) 336 (spawn0 g) = inr r ∧
                 randomCells_loop rnd g = inr r).
Proof.
  split_and!.
  - apply getPath_loop_returns.
  - eexists. split; [vm_compute; reflexivity|]. vm_compute. reflexivity.
  - apply randomCells_loop_nat.
Qed.

(** * The claims about [randomCells] *)

(** C2. On a board in good order with 78 balls, no line of five and
    three free cells, a stream of draws that misses the free cells 83
    times in a row makes [randomCells] give up: the loop ends with no ball
    placed, the board is as before and the game goes on. *)
Theorem randomCells_gives_up :
  board_ok crowded_game = true ∧
  emptyCells (field crowded_game) = 3 ∧
  detect_runs (cells crowded_game) = [] ∧
  (∃ s, randomCells_loop low_draws crowded_game = inr (loop_done s) ∧
        obstacles s = [] ∧ tryCounter s = 82) ∧
  field (randomCells low_draws crowded_game) = field crowded_game ∧
  cells (randomCells low_draws crowded_game) = cells crowded_game ∧
  ended (randomCells low_draws crowded_game) = false.
Proof.
  split_and!; try (vm_compute; reflexivity).
  eexists. split_and!; vm_compute; reflexivity.
Qed.

(** C3, as stated, fails: with the queue red, lime, blue shown to the
    player, the first ball placed (at (0,0)) is blue, the last colour of
    the queue, the second (at (1,1)) is lime and the third (at (2,2)) red.
    And a batch that is cut short by the end of the game leaves the queue
    without refilling it: in [lined_game] one colour stays. *)
Lemma spawn_takes_last_color_first :
  (nextColors queued_game = [red; lime; blue] ∧
   ∃ s, randomCells_loop diagonal_draws queued_game = inr (loop_done s) ∧
        obstacles s = [(0, 0); (1, 1); (2, 2)] ∧
        color <$> children (cells (sp_game s)) 0 0 = [blue] ∧
        color <$> children (cells (sp_game s)) 1 1 = [lime] ∧
        color <$> children (cells (sp_game s)) 2 2 = [red]) ∧
  (nextColors lined_game = [black; red; red] ∧
   nextColors (randomCells lined_draws lined_game) = [black]).
Proof.
  split; split; try (vm_compute; reflexivity).
  eexists. split_and!; vm_compute; reflexivity.
Qed.

(** C3, amended. In every spawn batch the colours are taken from the back
    of the queue: the [n]-th ball placed (counting from 0) is appended to
    a cell and has the [n]-th colour of the reversed queue, as long as the
    queue holds one; the queue loses one colour at its end per ball; and
    when the batch runs to its end (it is not cut short by the end of the
    game) the queue becomes three colours drawn afresh. *)
Theorem spawn_consumes_from_back (rnd : nat → nat) (g : Game) :
  cells_ok (cells g) = true →
  ∃ s, (randomCells_loop rnd g = inr (loop_done s)
        ∨ randomCells_loop rnd g = inr (game_over s)) ∧
       (∀ n r0 r1, obstacles s !! n = Some (r0, r1) →
          ∃ b, children (cells (sp_game s)) r0 r1
               = children (cells g) r0 r1 ++ [b] ∧
               ∀ col, reverse (nextColors g) !! n = Some col → color b = col) ∧
       nextColors (sp_game s)
       = take (length (nextColors g) - length (obstacles s)) (nextColors g) ∧
       (randomCells_loop rnd g = inr (loop_done s) →
        nextColors (randomCells rnd g)
        = [pick_color (Z.of_nat (rnd (cursor (sp_game s)) mod 7));
           pick_color (Z.of_nat (rnd (S (cursor (sp_game s))) mod 7));
           pick_color (Z.of_nat (rnd (S (S (cursor (sp_game s)))) mod 7))]).
Proof.
  intros Hc.
  destruct (randomCells_loop_spec rnd g)
    as [(s & Hl & Hrel & _)|(s & Hl & Hrel & _)]; exists s.
  - split_and!; [by left|exact (sr_color _ _ Hrel Hc)|exact (sr_queue _ _ Hrel)|].
    intros _. rewrite (randomCells_done rnd g s Hl), popFives_nextColors.
    by rewrite refill_spec.
  - split_and!; [by right|exact (sr_color _ _ Hrel Hc)|exact (sr_queue _ _ Hrel)|].
    rewrite Hl. intros [=].
Qed.

Lemma spawn_consumes_from_back_witness :
  ∃ s, (randomCells_loop diagonal_draws queued_game = inr (loop_done s)
        ∨ randomCells_loop diagonal_draws queued_game = inr (game_over s)) ∧
       (∀ n r0 r1, obstacles s !! n = Some (r0, r1) →
          ∃ b, children (cells (sp_game s)) r0 r1
               = children (cells queued_game) r0 r1 ++ [b] ∧
               ∀ col, reverse (nextColors queued_game) !! n = Some col →
                      color b = col) ∧
       nextColors (sp_game s)
       = take (length (nextColors queued_game) - length (obstacles s))
           (nextColors queued_game) ∧
       (randomCells_loop diagonal_draws queued_game = inr (loop_done s) →
        nextColors (randomCells diagonal_draws queued_game)
        = [pick_color (Z.of_nat (diagonal_draws (cursor (sp_game s)) mod 7));
           pick_color (Z.of_nat (diagonal_draws (S (cursor (sp_game s))) mod 7));
           pick_color (Z.of_nat (diagonal_draws (S (S (cursor (sp_game s)))) mod 7))]).
Proof.
  apply (spawn_consumes_from_back diagonal_draws queued_game). reflexivity.
Defined.

(** C10, as stated, fails: when the board fills up during a spawn, the
    early [return] of [randomCells] skips [popFives].  Here two balls are
    spawned on the last two free cells and complete a red line of five;
    the game is ended with the line on the board and nothing scored. *)
Lemma spawn_without_detection :
  board_ok lined_game = true ∧
  detect_runs (cells lined_game) = [] ∧
  (∃ s, randomCells_loop lined_draws lined_game = inr (game_over s) ∧
        obstacles s = [(0, 3); (0, 4)]) ∧
  detect_runs (cells (randomCells lined_draws lined_game))
  = [Coord 0 0; Coord 0 1; Coord 0 2; Coord 0 3; Coord 0 4] ∧
  points (randomCells lined_draws lined_game) = points lined_game ∧
  ended (randomCells lined_draws lined_game) = true.
Proof.
  split_and!; try (vm_compute; reflexivity).
  eexists. split; vm_compute; reflexivity.
Qed.

(** C10, amended. A call of [randomCells] whose placement loop runs to
    its end (it does not take the early [return] of a full board) ends by
    running [popFives] on the board it has just filled: on a sound board
    no line of five is left afterwards, the score grows by the number of
    cells of the lines found after the spawn, and the game is ended by
    this [popFives] exactly when no empty cell is left after the clear. *)
Theorem spawn_then_popFives (rnd : nat → nat) (g : Game) (s : Spawn) :
  randomCells_loop rnd g = inr (loop_done s) →
  randomCells rnd g = (popFives (refill rnd (sp_game s))).1 ∧
  (field_ok (field g) = true → cells_ok (cells g) = true →
   detect_runs (cells (randomCells rnd g)) = []) ∧
  (field_ok (field g) = true →
   points (randomCells rnd g)
   = points g + Z.of_nat (length (detect_runs (cells (sp_game s))))) ∧
  ended (randomCells rnd g)
  = ended g || (emptyCells (field (randomCells rnd g)) =? 0).
Proof.
  intros Hl.
  destruct (randomCells_loop_spec rnd g)
    as [(s' & Hl' & Hrel & _ & Hend)|(s' & Hl' & _)];
    rewrite Hl in Hl'; [|discriminate Hl'].
  injection Hl' as <-.
  rewrite (randomCells_done rnd g s Hl).
  assert (Hfield : field (refill rnd (sp_game s)) = field (sp_game s))
    by by rewrite refill_spec.
  assert (Hcells : cells (refill rnd (sp_game s)) = cells (sp_game s))
    by by rewrite refill_spec.
  assert (Hpoints : points (refill rnd (sp_game s)) = points g)
    by (rewrite refill_spec; exact (sr_points _ _ Hrel)).
  assert (Hended : ended (refill rnd (sp_game s)) = ended g)
    by (rewrite refill_spec; exact Hend).
  split_and!.
  - reflexivity.
  - intros Hf Hc. apply popFives_clears.
    + rewrite Hfield. exact (sr_field_ok _ _ Hrel Hf).
    + rewrite Hcells. exact (sr_cells_ok _ _ Hrel Hc).
  - intros Hf. rewrite popFives_points, Hpoints, Hcells; [reflexivity|].
    rewrite Hfield. exact (sr_field_ok _ _ Hrel Hf).
  - rewrite popFives_ended, Hended. reflexivity.
Qed.

Lemma spawn_then_popFives_witness :
  ∃ s, randomCells_loop lined_draws3 lined_game3 = inr (loop_done s) ∧
    (randomCells lined_draws3 lined_game3
     = (popFives (refill lined_draws3 (sp_game s))).1 ∧
     (field_ok (field lined_game3) = true → cells_ok (cells lined_game3) = true →
      detect_runs (cells (randomCells lined_draws3 lined_game3)) = []) ∧
     (field_ok (field lined_game3) = true →
      points (randomCells lined_draws3 lined_game3)
      = points lined_game3
        + Z.of_nat (length (detect_runs (cells (sp_game s))))) ∧
     ended (randomCells lined_draws3 lined_game3)
     = ended lined_game3
       || (emptyCells (field (randomCells lined_draws3 lined_game3)) =? 0)).
Proof.
  eexists. split; [vm_compute; reflexivity|].
  apply (spawn_then_popFives lined_draws3 lined_game3). vm_compute. reflexivity.
Defined.

(** In that game the spawned line is cleared and scored in the same call. *)
Example spawn_line_scored :
  points (randomCells lined_draws3 lined_game3) = 5 ∧
  emptyCells (field (randomCells lined_draws3 lined_game3)) = 5 ∧
  ended (randomCells lined_draws3 lined_game3) = false.
Proof. split_and!; vm_compute; reflexivity. Qed.

(** * The claims about [handleClicks] *)

(** C9. A click on an empty cell that the selected ball cannot reach
    clears the selection and changes nothing else: the field, the cells,
    the score and the queue are as before, and no timer is set. *)
Theorem handleClicks_unreachable (coords : Coordinates) (g : Game)
    (sel : Ball) (idx : Coordinates) :
  head (children (cells g) (x coords) (y coords)) = None →
  selected g = Some sel → selectedIndex g = Some idx →
  found (getPath (field g) idx coords) = false →
  handleClicks coords g = (select g None None, None) ∧
  selected (handleClicks coords g).1 = None ∧
  selectedIndex (handleClicks coords g).1 = None ∧
  field (handleClicks coords g).1 = field g ∧
  cells (handleClicks coords g).1 = cells g.
Proof.
  intros Hhead Hsel Hidx Hfound.
  assert (Heq : handleClicks coords g = (select g None None, None)).
  { unfold handleClicks. rewrite Hhead, Hsel, Hidx.
    destruct (found (getPath (field g) idx coords)); [discriminate Hfound|].
    reflexivity. }
  rewrite Heq. split_and!; reflexivity.
Qed.

Lemma handleClicks_unreachable_witness :
  handleClicks (Coord 5 5) pocket_game = (select pocket_game None None, None) ∧
  selected (handleClicks (Coord 5 5) pocket_game).1 = None ∧
  selectedIndex (handleClicks (Coord 5 5) pocket_game).1 = None ∧
  field (handleClicks (Coord 5 5) pocket_game).1 = field pocket_game ∧
  cells (handleClicks (Coord 5 5) pocket_game).1 = cells pocket_game.
Proof.
  apply (handleClicks_unreachable (Coord 5 5) pocket_game
           {| ball_id := 0; color := blue |} (Coord 0 0)).
  - reflexivity.
  - reflexivity.
  - reflexivity.
  - vm_compute. reflexivity.
Defined.

(** * Further properties of [getPath] *)

(** When the queue runs empty, every cell that a walk reaches has been
    visited. *)
Lemma ordered_exhausted (f : list (list Z)) (start end_ : Coordinates)
    (s : Search) (p : list Coordinates) (c : Coordinates) :
  ordered f start end_ s → queue s = [] → walk f start p c → c ∈ visited s.
Proof.
  intros (h & A & B & Hlv) Hq Hw.
  pose proof (lv_queue _ _ _ _ _ _ _ Hlv) as HAB. rewrite Hq in HAB.
  symmetry in HAB. apply app_eq_nil in HAB as [-> ->].
  induction Hw as [|p c n Hw IH Hadj Hpass].
  - destruct h as [|h].
    + destruct (lv_at _ _ _ _ _ _ _ Hlv [] start) as [?|Hin];
        [constructor|done|done|]. by apply elem_of_nil in Hin.
    + apply (lv_below _ _ _ _ _ _ _ Hlv [] start); [constructor|simpl; lia].
  - destruct (lv_next _ _ _ _ _ _ _ Hlv c n IH Hadj Hpass) as [?|Hin]; [done|].
    rewrite Hq in Hin. by apply elem_of_nil in Hin.
Qed.

Lemma getPath_complete (f : list (list Z)) (start end_ : Coordinates)
    (p : list Coordinates) :
  walk f start p end_ → found (getPath f start end_) = true.
Proof.
  intros Hw. destruct (getPath_result f start end_) as (s & Hinv & Hord & Hb).
  apply getPath_body_inr in Hb as [[Hq ->]|(p' & rest & Hq & ->)]; [|done].
  exfalso. pose proof (ordered_exhausted f start end_ s p end_ Hord Hq Hw) as Hv.
  destruct Hord as (h & A & B & Hlv). by apply (lv_end _ _ _ _ _ _ _ Hlv).
Qed.

(** X1. [getPath] reports [found] exactly when some route over empty cells
    leads from [start] to [end_]: a search that fails proves that the
    target cannot be reached. *)
Theorem getPath_found_iff_route (f : list (list Z)) (start end_ : Coordinates) :
  found (getPath f start end_) = true ↔ ∃ l, route f start end_ l = true.
Proof.
  split.
  - intros Hfound. exists (path (getPath f start end_)).
    destruct (getPath_found f start end_ Hfound) as (p & -> & Hw & _).
    by apply walk_route.
  - intros [l (p & -> & Hw)%route_walk]. by eapply getPath_complete.
Qed.

(** X2. The returned path never visits a cell twice; from a start inside
    the board it has at most 81 cells. *)
Theorem getPath_no_repetition (f : list (list Z)) (start end_ : Coordinates) :
  NoDup (path (getPath f start end_)) ∧
  (in_bounds (x start) (y start) = true →
   (length (path (getPath f start end_)) ≤ 81)%nat).
Proof.
  destruct (found (getPath f start end_)) eqn:Hfound.
  - destruct (getPath_found f start end_ Hfound) as (p & -> & Hw & Hnd & _).
    split; [exact Hnd|]. intros Hstart.
    change 81%nat with (length all_cells).
    apply submseteq_length, NoDup_submseteq; [exact Hnd|].
    intros k Hk. apply elem_of_all_cells.
    destruct (walk_cells f start p end_ Hw k Hk) as [->|Hp]; [done|].
    by apply passable_spec in Hp as [? _].
  - rewrite (getPath_not_found f start end_ Hfound). split; [constructor|].
    simpl. lia.
Qed.

Lemma adjacent_ne (c n : Coordinates) : adjacent c n = true → c ≠ n.
Proof.
  unfold adjacent. rewrite bool_decide_eq_true. intros H ->. lia.
Qed.

(** X3. A move to an orthogonally adjacent empty cell takes the direct
    step: the path is [[c; n]]. *)
Theorem getPath_adjacent (f : list (list Z)) (c n : Coordinates) :
  adjacent c n = true → passable f n = true →
  getPath f c n = {| path := [c; n]; found := true |}.
Proof.
  intros Hadj Hpass.
  assert (Hroute : route f c n [c; n] = true).
  { simpl. rewrite Hadj, Hpass. rewrite !bool_decide_eq_true_2 by done. done. }
  assert (Hfound : found (getPath f c n) = true).
  { destruct (route_walk f c [c; n] n Hroute) as (p' & _ & Hw').
    by eapply getPath_complete. }
  destruct (getPath_found f c n Hfound) as (p & Hp & Hw & Hnd & Hmin).
  pose proof (walk_route f c p n Hw) as Hr.
  assert (Hlen : (length p ≤ 1)%nat).
  { apply route_walk in Hroute as (p' & Hp' & Hw').
    assert (p' = [c]) as ->.
    { destruct p' as [|a [|b p']]; simplify_eq/=; try done.
      destruct p'; simplify_eq/=. }
    apply (Hmin [c] Hw'). }
  assert (p = [c]) as ->.
  { destruct p as [|a [|b p]]; simpl in Hlen; [|  |lia].
    - simpl in Hr. apply andb_prop in Hr as [Hr _]. apply andb_prop in Hr as [Hr _].
      apply bool_decide_eq_true in Hr. by apply adjacent_ne in Hadj.
    - simpl in Hr. apply andb_prop in Hr as [Hr _]. apply andb_prop in Hr as [Hr _].
      apply bool_decide_eq_true in Hr. by subst. }
  destruct (getPath f c n) as [pp ff]. simpl in *. by subst.
Qed.

Lemma getPath_adjacent_witness :
  getPath one_ball_field (Coord 4 4) (Coord 3 4)
  = {| path := [Coord 4 4; Coord 3 4]; found := true |}.
Proof.
  apply (getPath_adjacent one_ball_field (Coord 4 4) (Coord 3 4)); reflexivity.
Defined.

(** X4. A target other than the start that is occupied or outside the
    board is never reached: the result is [found = false] with the empty
    path. *)
Theorem getPath_blocked_target (f : list (list Z)) (start end_ : Coordinates) :
  start ≠ end_ → passable f end_ = false →
  getPath f start end_ = {| path := []; found := false |}.
Proof.
  intros Hne Hblocked.
  destruct (found (getPath f start end_)) eqn:Hfound.
  - destruct (getPath_found f start end_ Hfound) as (p & Hp & Hw & _).
    destruct (walk_cells f start p end_ Hw end_) as [?|Hpass].
    + apply elem_of_app. right. left.
    + done.
    + congruence.
  - pose proof (getPath_not_found f start end_ Hfound) as Hpath.
    destruct (getPath f start end_) as [pp ff]. simpl in *. by subst.
Qed.

Lemma getPath_blocked_target_witness :
  getPath one_ball_field (Coord 4 4) (Coord 4 5)
  = {| path := []; found := false |}.
Proof.
  apply (getPath_blocked_target one_ball_field (Coord 4 4) (Coord 4 5)).
  - intros [=].
  - reflexivity.
Defined.

(** * Further properties of [popFives] *)

Lemma axes_step (d : Coordinates) : d ∈ axes → x d ≠ 0 ∨ y d ≠ 0.
Proof.
  unfold axes. rewrite !elem_of_cons, elem_of_nil.
  intros [->|[->|[->|[->|[]]]]]; simpl; lia.
Qed.

Lemma window_cell_inj (s d : Coordinates) (i j : Z) :
  x d ≠ 0 ∨ y d ≠ 0 → window_cell s d i = window_cell s d j → i = j.
Proof.
  unfold window_cell. intros Hd [= Hx Hy]. destruct Hd; nia.
Qed.

(** A clear-set that is not empty holds the five cells of a window. *)
Lemma detect_runs_five (c : list (list (list Ball))) (k : Coordinates) :
  k ∈ detect_runs c → (5 ≤ length (detect_runs c))%nat.
Proof.
  intros (s & d & col & i & Hax & Hw & Hi & ->)%detect_runs_elem.
  change 5%nat with (length (window_cell s d <$> seqZ 0 5)).
  apply submseteq_length, NoDup_submseteq.
  - apply NoDup_fmap_2_strong; [|apply NoDup_seqZ].
    intros a b _ _. by apply window_cell_inj, axes_step.
  - intros k (n & -> & Hn%elem_of_seqZ)%list_elem_of_fmap.
    apply detect_runs_elem. exists s, d, col, n. split_and!; (done || lia).
Qed.

Lemma sweep_none (l : list Coordinates) (g : Game) :
  (∀ k, k ∈ l → field_at (field g) (x k) (y k) ≠ Some (-1)) →
  foldl sweep_cell g l = g.
Proof.
  induction l as [|a l IH]; intros Hl; cbn [foldl]; [done|].
  assert (sweep_cell g a = g) as ->.
  { unfold sweep_cell. rewrite bool_decide_eq_false_2; [done|]. apply Hl. left. }
  apply IH. intros k Hk. apply Hl. by right.
Qed.

Lemma with_field_same (g : Game) : with_field g (field g) = g.
Proof. by destruct g. Qed.


(** With no line of five on a sound board, [popFives] only looks whether
    the board is full. *)
Lemma popFives_quiet (g : Game) :
  field_ok (field g) = true → detect_runs (cells g) = [] →
  (popFives g).1 = if emptyCells (field g) =? 0 then Game_end g else g.
Proof.
  intros Hf Htd. rewrite popFives_fst, Htd, sweep_all_cells.
  change (mark (field g) []) with (field g). rewrite with_field_same.
  rewrite sweep_none; [reflexivity|].
  intros k Hk%elem_of_all_cells Hm.
  destruct (proj1 (field_ok_spec _) Hf k Hk) as [H0|H1]; congruence.
Qed.

Lemma popFives_field_in (g : Game) (k : Coordinates) :
  field_ok (field g) = true → k ∈ detect_runs (cells g) →
  field_at (field (popFives g).1) (x k) (y k) = Some 0.
Proof.
  intros Hf Hin.
  assert (Hk : in_bounds (x k) (y k) = true)
    by exact (detect_runs_in_bounds (cells g) k Hin).
  rewrite popFives_fst, field_end_if, sweep_all_cells.
  apply sweep_list_field_in.
  - apply NoDup_all_cells.
  - intros a. apply elem_of_all_cells.
  - apply elem_of_all_cells, Hk.
  - rewrite field_with_field.
    apply marked_iff; [exact Hf|apply detect_runs_in_bounds|exact Hk|exact Hin].
Qed.

Lemma popFives_field_out (g : Game) (k : Coordinates) :
  field_ok (field g) = true → in_bounds (x k) (y k) = true →
  k ∉ detect_runs (cells g) →
  field_at (field (popFives g).1) (x k) (y k) = field_at (field g) (x k) (y k).
Proof.
  intros Hf Hk Hout.
  rewrite popFives_fst, field_end_if, sweep_all_cells.
  destruct (sweep_list_children_out all_cells
              (with_field g (mark (field g) (detect_runs (cells g)))) k)
    as [_ ->]; [intros a; apply elem_of_all_cells|exact Hk| |].
  - right. rewrite field_with_field. intros Hm. apply Hout.
    eapply marked_iff; [exact Hf|apply detect_runs_in_bounds|exact Hk|exact Hm].
  - rewrite field_with_field, field_at_mark;
      [|exact Hk|apply detect_runs_in_bounds].
    by rewrite decide_False by exact Hout.
Qed.

Lemma board_ok_spec (g : Game) :
  board_ok g = true ↔
  field_ok (field g) = true ∧ cells_ok (cells g) = true ∧
  ∀ k, in_bounds (x k) (y k) = true →
       field_at (field g) (x k) (y k)
       = Some (Z.of_nat (length (children (cells g) (x k) (y k)))).
Proof.
  unfold board_ok. rewrite !andb_true_iff, forallb_forall. split.
  - intros [[Hf Hc] Hall]. split_and!; [done..|]. intros k Hk.
    apply elem_of_all_cells, list_elem_of_In, Hall in Hk.
    by apply bool_decide_eq_true in Hk.
  - intros (Hf & Hc & Hall). split_and!; [done..|].
    intros k Hk%list_elem_of_In%elem_of_all_cells.
    apply bool_decide_eq_true. by apply Hall.
Qed.

(** After [popFives] the field of every cell of the board is again the
    number of balls in the cell. *)
Lemma popFives_consistent (g : Game) (k : Coordinates) :
  field_ok (field g) = true → cells_ok (cells g) = true →
  in_bounds (x k) (y k) = true →
  field_at (field g) (x k) (y k)
  = Some (Z.of_nat (length (children (cells g) (x k) (y k)))) →
  field_at (field (popFives g).1) (x k) (y k)
  = Some (Z.of_nat (length (children (cells (popFives g).1) (x k) (y k)))).
Proof.
  intros Hf Hc Hk Hall.
  destruct (decide (k ∈ detect_runs (cells g))) as [Hin|Hout].
  - rewrite (popFives_field_in g k Hf Hin).
    rewrite (popFives_children_in g k Hf Hc Hin). reflexivity.
  - rewrite (popFives_field_out g k Hf Hk Hout).
    rewrite (popFives_children_out g k Hf Hk Hout). exact Hall.
Qed.

(** X5. On a sound board a [popFives] that reports [popped] has removed
    at least five balls, so the score has grown by five or more; one that
    reports nothing has left the field, the cells and the score as they
    were. *)
Theorem popFives_five_or_nothing (g : Game) :
  field_ok (field g) = true →
  ((popFives g).2 = true → points g + 5 ≤ points (popFives g).1) ∧
  ((popFives g).2 = false →
   field (popFives g).1 = field g ∧ cells (popFives g).1 = cells g ∧
   points (popFives g).1 = points g).
Proof.
  intros Hf. rewrite popFives_snd. split.
  - intros Hp%negb_true_iff%bool_decide_eq_false.
    rewrite (popFives_points g Hf).
    destruct (detect_runs (cells g)) as [|k td] eqn:Htd; [done|].
    pose proof (detect_runs_five (cells g) k) as Hfive.
    rewrite Htd in Hfive. specialize (Hfive ltac:(left)). lia.
  - intros Hp%negb_false_iff%bool_decide_eq_true.
    rewrite (popFives_quiet g Hf Hp).
    by rewrite field_end_if, cells_end_if, points_end_if.
Qed.

Lemma popFives_five_or_nothing_witness :
  ((popFives (row_of_five red)).2 = true →
   points (row_of_five red) + 5 ≤ points (popFives (row_of_five red)).1) ∧
  ((popFives (row_of_five red)).2 = false →
   field (popFives (row_of_five red)).1 = field (row_of_five red) ∧
   cells (popFives (row_of_five red)).1 = cells (row_of_five red) ∧
   points (popFives (row_of_five red)).1 = points (row_of_five red)).
Proof.
  apply (popFives_five_or_nothing (row_of_five red)). reflexivity.
Defined.



(** X7. [popFives] keeps the board consistent: afterwards the field of
    every cell still holds the number of balls in the cell, 0 or 1. *)
Theorem popFives_board_ok (g : Game) :
  board_ok g = true → board_ok (popFives g).1 = true.
Proof.
  intros (Hf & Hc & Hall)%board_ok_spec. apply board_ok_spec. split_and!.
  - by apply popFives_field_ok.
  - by apply popFives_cells_ok.
  - intros k Hk. apply popFives_consistent; auto.
Qed.

Lemma popFives_board_ok_witness :
  board_ok (popFives (row_of_five red)).1 = true.
Proof. apply (popFives_board_ok (row_of_five red)). reflexivity. Defined.

(** * The count of empty cells *)

Lemma count_row (row : list Z) (n : Z) :
  foldl (λ n cell, if cell =? 0 then n + 1 else n) n row
  = n + Z.of_nat (length (filter (λ v, v = 0) row)).
Proof.
  revert n; induction row as [|v row IH]; intros n; cbn [foldl].
  - simpl. lia.
  - rewrite IH, filter_cons. destruct (Z.eqb_spec v 0) as [->|Hv].
    + rewrite decide_True by done. simpl length. lia.
    + rewrite decide_False by done. lia.
Qed.

Lemma count_rows (f : list (list Z)) (n : Z) :
  foldl (λ n row, foldl (λ n cell, if cell =? 0 then n + 1 else n) n row) n f
  = n + Z.of_nat (length (filter (λ v, v = 0) (concat f))).
Proof.
  revert n; induction f as [|row f IH]; intros n; cbn [foldl concat].
  - simpl. lia.
  - rewrite IH, count_row, list.filter_app, length_app. lia.
Qed.

Lemma emptyCells_concat (f : list (list Z)) :
  emptyCells f = Z.of_nat (length (filter (λ v, v = 0) (concat f))).
Proof. unfold emptyCells. by rewrite count_rows. Qed.

(** Every cell that holds 0 is counted. *)
Lemma emptyCells_pos (f : list (list Z)) (i j : Z) :
  field_at f i j = Some 0 → 0 < emptyCells f.
Proof.
  unfold field_at. intros Hf. rewrite emptyCells_concat.
  destruct (f !! Z.to_nat i) as [row|] eqn:Hrow; [|done]. simpl in Hf.
  assert (Hin : 0 ∈ filter (λ v, v = 0) (concat f)).
  { apply list_elem_of_filter. split; [done|].
    apply list_elem_of_In, in_concat. exists row.
    split; apply list_elem_of_In; by eapply list_elem_of_lookup_2. }
  destruct (filter _ _); [by apply elem_of_nil in Hin|]. simpl length. lia.
Qed.

Lemma length9 {A} (l : list A) :
  length l = 9%nat → ∃ a0 a1 a2 a3 a4 a5 a6 a7 a8, l = [a0; a1; a2; a3; a4; a5; a6; a7; a8].
Proof.
  intros H. do 9 (destruct l as [|? l]; [discriminate H|]).
  destruct l; [|discriminate H]. by repeat eexists.
Qed.

Lemma shape_ok_spec {A} (m : list (list A)) :
  shape_ok m = true ↔ length m = 9%nat ∧ Forall (λ row, length row = 9%nat) m.
Proof.
  unfold shape_ok. rewrite andb_true_iff, bool_decide_eq_true, forallb_forall.
  rewrite list.Forall_forall. change (Z.to_nat size) with 9%nat.
  split; intros [Hl Hr]; (split; [exact Hl|]); intros row Hrow.
  - apply list_elem_of_In, Hr in Hrow. by apply bool_decide_eq_true in Hrow.
  - apply bool_decide_eq_true, Hr, list_elem_of_In, Hrow.
Qed.

(** A 9x9 array, flattened, lists its entries in the order of
    [all_cells]. *)
Lemma grid_flat {A} (d : A) (m : list (list A)) :
  shape_ok m = true →
  concat m
  = (λ k, default d (row ← m !! Z.to_nat (x k); row !! Z.to_nat (y k)))
    <$> all_cells.
Proof.
  intros [Hl Hr]%shape_ok_spec.
  apply length9 in Hl as (r0 & r1 & r2 & r3 & r4 & r5 & r6 & r7 & r8 & ->).
  rewrite !list.Forall_cons in Hr.
  destruct Hr as (H0 & H1 & H2 & H3 & H4 & H5 & H6 & H7 & H8 & _).
  repeat match goal with
  | H : length _ = 9%nat |- _ =>
      apply length9 in H as (? & ? & ? & ? & ? & ? & ? & ? & ? & ->)
  end.
  reflexivity.
Qed.

Lemma filter_fmap_length {A B} (f : A → B) (P : B → Prop)
    `{!∀ b, Decision (P b)} (l : list A) :
  length (filter P (f <$> l)) = length (filter (λ a, P (f a)) l).
Proof.
  induction l as [|a l IH]; [done|]. rewrite fmap_cons, !filter_cons.
  case_decide; simpl; by rewrite IH.
Qed.

Lemma emptyCells_counts_aux (f : list (list Z)) :
  shape_ok f = true →
  emptyCells f
  = Z.of_nat (length (filter (λ k, field_at f (x k) (y k) = Some 0) all_cells)).
Proof.
  intros Hs. rewrite emptyCells_concat, (grid_flat 1 f Hs), filter_fmap_length.
  do 2 f_equal. apply filter_ext_elem. intros k _. unfold field_at.
  destruct (_ ≫= _) as [v|]; simpl; [|done]. split; congruence.
Qed.

Lemma balls_count (f : list (list Z)) (c : list (list (list Ball)))
    (l : list Coordinates) :
  (∀ k, k ∈ l → field_at f (x k) (y k) = Some 0 ∨ field_at f (x k) (y k) = Some 1) →
  (∀ k, k ∈ l → field_at f (x k) (y k)
                = Some (Z.of_nat (length (children c (x k) (y k))))) →
  (length (filter (λ k, field_at f (x k) (y k) = Some 0%Z) l)
   + length (l ≫= λ k, children c (x k) (y k)) = length l)%nat.
Proof.
  induction l as [|a l IH]; intros Hv Hc; [done|].
  rewrite filter_cons, bind_cons, length_app. cbn [length].
  specialize (IH ltac:(intros; apply Hv; by right) ltac:(intros; apply Hc; by right)).
  pose proof (Hc a ltac:(left)) as Ha.
  destruct (Hv a ltac:(left)) as [H0|H1].
  - rewrite decide_True by done. rewrite H0 in Ha. simpl length.
    injection Ha as Ha. lia.
  - rewrite decide_False by congruence. rewrite H1 in Ha. injection Ha as Ha. lia.
Qed.

Lemma full_spec (f : list (list Z)) :
  full f = true ↔
  ∀ k, in_bounds (x k) (y k) = true → field_at f (x k) (y k) = Some 1.
Proof.
  unfold full. rewrite forallb_forall. split.
  - intros H k Hk. apply elem_of_all_cells, list_elem_of_In, H in Hk.
    by apply bool_decide_eq_true in Hk.
  - intros H k Hk%list_elem_of_In%elem_of_all_cells.
    apply bool_decide_eq_true. by apply H.
Qed.

Lemma emptyCells_full (f : list (list Z)) :
  field_ok f = true → emptyCells f = 0 → full f = true.
Proof.
  intros Hf H0. apply full_spec. intros k Hk.
  destruct (proj1 (field_ok_spec f) Hf k Hk) as [Hz|H1]; [|exact H1].
  apply emptyCells_pos in Hz. lia.
Qed.

(** X8. On a 9x9 field [emptyCells] is the number of cells of the board
    whose field is 0; it is 0 exactly when no cell of the board is empty. *)
Theorem emptyCells_counts (f : list (list Z)) :
  shape_ok f = true →
  emptyCells f
  = Z.of_nat (length (filter (λ k, field_at f (x k) (y k) = Some 0) all_cells)) ∧
  (emptyCells f = 0 ↔
   ∀ k, in_bounds (x k) (y k) = true → field_at f (x k) (y k) ≠ Some 0).
Proof.
  intros Hs. split; [exact (emptyCells_counts_aux f Hs)|]. split.
  - intros H0 k _ Hz. apply emptyCells_pos in Hz. lia.
  - intros Hnone. rewrite (emptyCells_counts_aux f Hs).
    assert (filter (λ k, field_at f (x k) (y k) = Some 0) all_cells = []) as ->;
      [|done].
    apply elem_of_nil_inv. intros k [Hz Hk%elem_of_all_cells]%list_elem_of_filter.
    exact (Hnone k Hk Hz).
Qed.

Lemma emptyCells_counts_witness :
  emptyCells one_ball_field
  = Z.of_nat (length (filter (λ k, field_at one_ball_field (x k) (y k) = Some 0)
                        all_cells)) ∧
  (emptyCells one_ball_field = 0 ↔
   ∀ k, in_bounds (x k) (y k) = true →
        field_at one_ball_field (x k) (y k) ≠ Some 0).
Proof. apply (emptyCells_counts one_ball_field). reflexivity. Defined.

(** X9. On a consistent 9x9 board the empty cells and the balls add up
    to the 81 cells of the board. *)
Theorem emptyCells_plus_balls (g : Game) :
  board_ok g = true → shape_ok (field g) = true →
  emptyCells (field g) + Z.of_nat (length (balls (cells g))) = size * size.
Proof.
  intros (Hf & Hc & Hall)%board_ok_spec Hs.
  rewrite (emptyCells_counts_aux _ Hs). unfold balls.
  pose proof (balls_count (field g) (cells g) all_cells) as Hcount.
  change (length all_cells) with 81%nat in Hcount. change (size * size) with 81.
  rewrite <- Nat2Z.inj_add, Hcount; [done| |].
  - intros k Hk%elem_of_all_cells. by apply (proj1 (field_ok_spec _) Hf).
  - intros k Hk%elem_of_all_cells. by apply Hall.
Qed.

Lemma emptyCells_plus_balls_witness :
  emptyCells (field crowded_game)
  + Z.of_nat (length (balls (cells crowded_game))) = size * size.
Proof. apply (emptyCells_plus_balls crowded_game); reflexivity. Defined.

(** Emptying the cells [A], which were not empty, adds their number to
    the count of empty cells. *)
Lemma zero_count_add (f f' : list (list Z)) (A : list Coordinates) :
  NoDup A →
  (∀ k, k ∈ A → in_bounds (x k) (y k) = true ∧ field_at f (x k) (y k) ≠ Some 0) →
  (∀ k, in_bounds (x k) (y k) = true →
        field_at f' (x k) (y k) = Some 0 ↔
        field_at f (x k) (y k) = Some 0 ∨ k ∈ A) →
  length (filter (λ k, field_at f' (x k) (y k) = Some 0) all_cells)
  = Nat.add (length (filter (λ k, field_at f (x k) (y k) = Some 0) all_cells))
      (length A).
Proof.
  intros Hnd HA Hiff. rewrite <- length_app.
  apply Permutation_length, NoDup_Permutation.
  - apply list.NoDup_filter, NoDup_all_cells.
  - apply list.NoDup_app. split_and!.
    + apply list.NoDup_filter, NoDup_all_cells.
    + intros k [Hz _]%list_elem_of_filter Hk. by destruct (HA k Hk).
    + exact Hnd.
  - intros k. rewrite elem_of_app, !list_elem_of_filter, !elem_of_all_cells.
    split.
    + intros [Hz Hk]. apply (Hiff k Hk) in Hz as [?|?]; auto.
    + intros [[Hz Hk]|Hk].
      * split; [|done]. apply (Hiff k Hk). by left.
      * destruct (HA k Hk) as [Hb _]. split; [|done]. apply (Hiff k Hb). by right.
Qed.

Lemma emptyCells_add (f f' : list (list Z)) (A : list Coordinates) :
  shape_ok f = true → shape_ok f' = true → NoDup A →
  (∀ k, k ∈ A → in_bounds (x k) (y k) = true ∧ field_at f (x k) (y k) ≠ Some 0) →
  (∀ k, in_bounds (x k) (y k) = true →
        field_at f' (x k) (y k) = Some 0 ↔
        field_at f (x k) (y k) = Some 0 ∨ k ∈ A) →
  emptyCells f' = emptyCells f + Z.of_nat (length A).
Proof.
  intros Hs Hs' Hnd HA Hiff.
  rewrite (emptyCells_counts_aux f Hs), (emptyCells_counts_aux f' Hs').
  rewrite (zero_count_add f f' A Hnd HA Hiff). lia.
Qed.

(** * When the game ends *)

(** X10. [Game.end] is only called on a full board: a game that
    [popFives] or [randomCells] leaves ended was ended before, or has no
    empty cell. *)
Theorem game_over_only_when_full (g : Game) :
  field_ok (field g) = true →
  (ended (popFives g).1 = true →
   ended g = true ∨ full (field (popFives g).1) = true) ∧
  (∀ rnd, ended (randomCells rnd g) = true →
          ended g = true ∨ full (field (randomCells rnd g)) = true).
Proof.
  intros Hf.
  assert (Hpop : ∀ g', field_ok (field g') = true →
            ended (popFives g').1 = true →
            ended g' = true ∨ full (field (popFives g').1) = true).
  { intros g' Hf'. rewrite popFives_ended.
    intros [He|H0%Z.eqb_eq]%orb_prop; [by left|right].
    apply emptyCells_full; [|exact H0]. by apply popFives_field_ok. }
  split; [by apply Hpop|]. intros rnd.
  destruct (randomCells_loop_spec rnd g)
    as [(s & Hl & Hrel & _ & Hend)|(s & Hl & Hrel & _ & Hempty)].
  - rewrite (randomCells_done rnd g s Hl). intros He.
    apply Hpop in He as [He|Hfull]; [left|by right|].
    + rewrite refill_spec in He. cbn [ended] in He. congruence.
    + rewrite refill_spec. cbn [field]. exact (sr_field_ok _ _ Hrel Hf).
  - rewrite (randomCells_over rnd g s Hl). intros _. right.
    apply emptyCells_full; [|exact Hempty]. exact (sr_field_ok _ _ Hrel Hf).
Qed.

Lemma game_over_only_when_full_witness :
  (ended (popFives crowded_game).1 = true →
   ended crowded_game = true ∨ full (field (popFives crowded_game).1) = true) ∧
  (∀ rnd, ended (randomCells rnd crowded_game) = true →
          ended crowded_game = true ∨
          full (field (randomCells rnd crowded_game)) = true).
Proof. apply (game_over_only_when_full crowded_game). reflexivity. Defined.

(** X11. A [popFives] that clears a line never ends the game: the cells
    it has just emptied are counted by [emptyCells]. *)
Theorem popFives_popped_goes_on (g : Game) :
  field_ok (field g) = true → (popFives g).2 = true →
  ended (popFives g).1 = ended g.
Proof.
  intros Hf. rewrite popFives_snd.
  intros Hp%negb_true_iff%bool_decide_eq_false.
  destruct (detect_runs (cells g)) as [|k td] eqn:Htd; [done|].
  assert (Hk : k ∈ detect_runs (cells g)) by (rewrite Htd; left).
  pose proof (popFives_field_in g k Hf Hk) as Hz%emptyCells_pos.
  rewrite popFives_ended.
  destruct (Z.eqb_spec (emptyCells (field (popFives g).1)) 0) as [H0|_];
    [lia|apply orb_false_r].
Qed.

Lemma popFives_popped_goes_on_witness :
  ended (popFives (row_of_five red)).1 = ended (row_of_five red).
Proof. apply (popFives_popped_goes_on (row_of_five red)); reflexivity. Defined.

(** * Further properties of [randomCells] *)

(** X12. The placement loop of [randomCells] puts at most [ballCount]
    balls on the board, each on a cell of its own that was empty, and
    touches no other cell: there the field and the children are as
    before. *)
Theorem spawn_fills_empty_cells (rnd : nat → nat) (g : Game) :
  ∃ s, (randomCells_loop rnd g = inr (loop_done s) ∨
        randomCells_loop rnd g = inr (game_over s)) ∧
       NoDup (obstacles s) ∧
       Z.of_nat (length (obstacles s)) ≤ ballCount ∧
       (∀ r0 r1, (r0, r1) ∈ obstacles s →
          in_bounds r0 r1 = true ∧ field_at (field g) r0 r1 = Some 0 ∧
          field_at (field (sp_game s)) r0 r1 = Some 1) ∧
       (∀ i j, in_bounds i j = true → (i, j) ∉ obstacles s →
          field_at (field (sp_game s)) i j = field_at (field g) i j ∧
          children (cells (sp_game s)) i j = children (cells g) i j).
Proof.
  destruct (randomCells_loop_spec rnd g)
    as [(s & Hl & Hrel & _)|(s & Hl & Hrel & _)]; exists s;
    pose proof (sr_left _ _ Hrel) as [? ?];
    (split_and!; [auto|exact (sr_nodup _ _ Hrel)|lia|exact (sr_placed _ _ Hrel)
                 |exact (sr_other _ _ Hrel)]).
Qed.

(** X13. A call of [randomCells] that does not end the game in its loop
    leaves a queue of exactly [ballCount] colours, drawn from the random
    stream after the placement. *)
Theorem randomCells_refills_queue (rnd : nat → nat) (g : Game) (s : Spawn) :
  randomCells_loop rnd g = inr (loop_done s) →
  nextColors (randomCells rnd g)
  = (λ n, pick_color (Z.of_nat (rnd (cursor (sp_game s) + n)%nat
                                mod length colors)))
    <$> seq 0 (Z.to_nat ballCount).
Proof.
  intros Hl. rewrite (randomCells_done rnd g s Hl), popFives_nextColors.
  rewrite refill_spec. cbn [nextColors].
  change (length colors) with 7%nat.
  change (seq 0 (Z.to_nat ballCount)) with [0; 1; 2]%nat.
  cbn [fmap list_fmap].
  by rewrite Nat.add_0_r, Nat.add_1_r, Nat.add_succ_r, Nat.add_1_r.
Qed.

Lemma randomCells_refills_queue_witness :
  ∃ s, randomCells_loop lined_draws3 lined_game3 = inr (loop_done s) ∧
       nextColors (randomCells lined_draws3 lined_game3)
       = (λ n, pick_color (Z.of_nat (lined_draws3 (cursor (sp_game s) + n)%nat
                                     mod length colors)))
         <$> seq 0 (Z.to_nat ballCount).
Proof.
  eexists. split; [vm_compute; reflexivity|].
  apply (randomCells_refills_queue lined_draws3 lined_game3).
  vm_compute. reflexivity.
Defined.

(** * Well-formed games *)

(** ** Distinct nodes *)

Lemma fmap_bind_list {A B C} (f : B → C) (g : A → list B) (l : list A) :
  f <$> (l ≫= g) = l ≫= (λ a, f <$> g a).
Proof.
  induction l as [|a l IH]; [done|].
  by rewrite !bind_cons, fmap_app, IH.
Qed.

Lemma NoDup_bind_inv {A B} (f : A → list B) (l : list A) :
  NoDup l → NoDup (l ≫= f) →
  (∀ x1 x2 y, x1 ∈ l → x2 ∈ l → y ∈ f x1 → y ∈ f x2 → x1 = x2) ∧
  (∀ a, a ∈ l → NoDup (f a)).
Proof.
  induction l as [|a l IH]; intros Hl Hb.
  - split; intros *; by intros ?%elem_of_nil.
  - apply list.NoDup_cons in Hl as [Ha Hl].
    rewrite bind_cons in Hb. apply list.NoDup_app in Hb as (Hfa & Hdisj & Hb).
    destruct (IH Hl Hb) as [IH1 IH2]. split.
    + intros x1 x2 b [->|H1]%elem_of_cons [->|H2]%elem_of_cons Hb1 Hb2.
      * done.
      * exfalso. apply (Hdisj b Hb1). apply list_elem_of_bind. eauto.
      * exfalso. apply (Hdisj b Hb2). apply list_elem_of_bind. eauto.
      * eauto.
    + intros a' [->|Ha']%elem_of_cons; eauto.
Qed.

Lemma elem_of_balls (c : list (list (list Ball))) (b : Ball) :
  b ∈ balls c ↔
  ∃ k, in_bounds (x k) (y k) = true ∧ b ∈ children c (x k) (y k).
Proof.
  unfold balls. rewrite list_elem_of_bind. split.
  - intros (k & Hb & Hk%elem_of_all_cells). eauto.
  - intros (k & Hk%elem_of_all_cells & Hb). eauto.
Qed.

Lemma ids_ok_spec (g : Game) :
  ids_ok g = true ↔ ids_spec (cells g) (fresh g).
Proof.
  unfold ids_ok, ids_spec, balls.
  rewrite andb_true_iff, bool_decide_eq_true, forallb_forall, fmap_bind_list.
  split.
  - intros [Hnd Hlt].
    apply NoDup_bind_inv in Hnd as [H1 H2]; [|apply NoDup_all_cells].
    split_and!.
    + intros k Hk%elem_of_all_cells. by apply H2.
    + intros k k' i Hk%elem_of_all_cells Hk'%elem_of_all_cells. by apply H1.
    + intros k i Hk (b & -> & Hb)%list_elem_of_fmap.
      apply Nat.ltb_lt, Hlt, list_elem_of_In, (elem_of_balls (cells g)). eauto.
  - intros (H1 & H2 & H3). split.
    + apply NoDup_bind; [|intros k Hk%elem_of_all_cells; by apply H1
                         |apply NoDup_all_cells].
      intros k k' i Hk%elem_of_all_cells Hk'%elem_of_all_cells. by apply H2.
    + intros b (k & Hk & Hb)%list_elem_of_In%(elem_of_balls (cells g)).
      apply Nat.ltb_lt, (H3 k); [done|]. by apply list_elem_of_fmap_2.
Qed.

(** Emptying cells keeps the nodes distinct. *)
Lemma ids_spec_shrink (c c' : list (list (list Ball))) (n : nat) :
  ids_spec c n →
  (∀ k, in_bounds (x k) (y k) = true →
        children c' (x k) (y k) = [] ∨
        children c' (x k) (y k) = children c (x k) (y k)) →
  ids_spec c' n.
Proof.
  intros (H1 & H2 & H3) Hsub.
  assert (Hin : ∀ k i, in_bounds (x k) (y k) = true →
            i ∈ ball_id <$> children c' (x k) (y k) →
            i ∈ ball_id <$> children c (x k) (y k)).
  { intros k i Hk. destruct (Hsub k Hk) as [-> | ->]; [|done].
    by intros ?%elem_of_nil. }
  split_and!.
  - intros k Hk. destruct (Hsub k Hk) as [-> | ->]; [constructor|by apply H1].
  - intros k k' i Hk Hk' Hi Hi'. apply (H2 k k' i); auto.
  - intros k i Hk Hi. apply (H3 k i); auto.
Qed.

(** A new node at the end of a cell keeps the nodes distinct. *)
Lemma ids_spec_place (c : list (list (list Ball))) (n : nat) (r0 r1 : Z)
    (b : Ball) :
  ids_spec c n → cells_ok c = true → in_bounds r0 r1 = true → ball_id b = n →
  ids_spec (set_children c r0 r1 (children c r0 r1 ++ [b])) (S n).
Proof.
  intros (H1 & H2 & H3) Hc Hr Hb.
  assert (Hkids : ∀ k, in_bounds (x k) (y k) = true →
            children (set_children c r0 r1 (children c r0 r1 ++ [b])) (x k) (y k)
            = if decide (k = Coord r0 r1) then children c r0 r1 ++ [b]
              else children c (x k) (y k)).
  { intros k Hk. case_decide as Heq.
    - subst k. simpl. apply children_set_eq, cells_ok_spec; done.
    - apply children_set_ne. intros Hn. apply Heq. symmetry.
      by apply (to_nat_coord (Coord r0 r1) k). }
  assert (Hin : ∀ k i, in_bounds (x k) (y k) = true →
            i ∈ ball_id <$> children (set_children c r0 r1 (children c r0 r1 ++ [b]))
                              (x k) (y k) →
            i ∈ ball_id <$> children c (x k) (y k) ∨ (k = Coord r0 r1 ∧ i = n)).
  { intros k i Hk. rewrite (Hkids k Hk). case_decide as Heq; [|by left].
    subst k. rewrite fmap_app, elem_of_app. simpl.
    intros [?|Hs%list_elem_of_singleton]; [by left|right; by rewrite Hs, Hb]. }
  split_and!.
  - intros k Hk. rewrite (Hkids k Hk). case_decide as Heq; [|by apply H1].
    rewrite fmap_app. apply list.NoDup_app. split_and!.
    + by apply (H1 (Coord r0 r1)).
    + intros i Hi Hs%list_elem_of_singleton.
      apply (H3 (Coord r0 r1)) in Hi; [|done]. lia.
    + apply NoDup_singleton.
  - intros k k' i Hk Hk' Hi Hi'.
    destruct (Hin k i Hk Hi) as [Ho|[Hk1 Hn1]],
             (Hin k' i Hk' Hi') as [Ho'|[Hk2 Hn2]].
    + by apply (H2 k k' i).
    + apply (H3 k) in Ho; [lia|done].
    + apply (H3 k') in Ho'; [lia|done].
    + congruence.
  - intros k i Hk Hi. destruct (Hin k i Hk Hi) as [Ho|[_ Hn1]]; [|lia].
    apply (H3 k) in Ho; [lia|done].
Qed.

(** ** The 9x9 shape *)

Lemma shape_ok_alter_insert {A} (m : list (list A)) (i j : nat) (v : A) :
  shape_ok m = true → shape_ok (alter (λ row, <[j := v]> row) i m) = true.
Proof.
  rewrite !shape_ok_spec. intros [Hl Hr]. split.
  - by rewrite length_alter.
  - apply Forall_alter; [done|]. intros row _ Hrow. by rewrite length_insert.
Qed.

Lemma shape_ok_field_set (f : list (list Z)) (i j v : Z) :
  shape_ok f = true → shape_ok (field_set f i j v) = true.
Proof. apply shape_ok_alter_insert. Qed.

Lemma shape_ok_set_children (c : list (list (list Ball))) (i j : Z)
    (k : list Ball) :
  shape_ok c = true → shape_ok (set_children c i j k) = true.
Proof. apply shape_ok_alter_insert. Qed.

Lemma shape_ok_map {A} (h : A → A) (m : list (list A)) :
  shape_ok m = true → shape_ok (map (map h) m) = true.
Proof.
  rewrite !shape_ok_spec. intros [Hl Hr]. split.
  - by rewrite length_map.
  - apply list.Forall_forall. intros row (r & <- & Hin)%list_elem_of_In%in_map_iff.
    rewrite length_map. apply (proj1 (list.Forall_forall _ _) Hr).
    by apply list_elem_of_In.
Qed.

(** A 9x9 array has all the cells of the board. *)
Lemma shape_ok_cells_ok (c : list (list (list Ball))) :
  shape_ok c = true → cells_ok c = true.
Proof.
  intros [Hl Hr]%shape_ok_spec. apply cells_ok_spec. intros i j Hb.
  apply in_bounds_spec in Hb. unfold size in Hb.
  destruct (c !! Z.to_nat i) as [row|] eqn:Hrow.
  - simpl. apply lookup_lt_is_Some.
    rewrite (proj1 (list.Forall_forall _ _) Hr row); [lia|].
    by eapply list_elem_of_lookup_2.
  - apply lookup_ge_None in Hrow. lia.
Qed.

Lemma game_ok_spec (g : Game) :
  game_ok g = true ↔ sound g ∧ selection_ok g = true.
Proof.
  unfold game_ok, sound. rewrite !andb_true_iff, ids_ok_spec. tauto.
Qed.

(** ** [popFives] keeps a game well formed *)

Lemma sweep_cell_rest (g : Game) (k : Coordinates) :
  selected (sweep_cell g k) = selected g ∧
  selectedIndex (sweep_cell g k) = selectedIndex g ∧
  fresh (sweep_cell g k) = fresh g ∧ cursor (sweep_cell g k) = cursor g.
Proof. unfold sweep_cell. by case_bool_decide. Qed.

Lemma sweep_list_rest (l : list Coordinates) (g : Game) :
  selected (foldl sweep_cell g l) = selected g ∧
  selectedIndex (foldl sweep_cell g l) = selectedIndex g ∧
  fresh (foldl sweep_cell g l) = fresh g ∧
  cursor (foldl sweep_cell g l) = cursor g.
Proof.
  revert g; induction l as [|a l IH]; intros g; cbn [foldl]; [done|].
  destruct (IH (sweep_cell g a)) as (-> & -> & -> & ->). apply sweep_cell_rest.
Qed.

Lemma rest_end_if (b : bool) (g : Game) :
  selected (if b then Game_end g else g) = selected g ∧
  selectedIndex (if b then Game_end g else g) = selectedIndex g ∧
  fresh (if b then Game_end g else g) = fresh g ∧
  cursor (if b then Game_end g else g) = cursor g.
Proof. by destruct b. Qed.

(** [popFives] touches neither the selection, nor the counter of nodes,
    nor the random stream. *)
Lemma popFives_rest (g : Game) :
  selected (popFives g).1 = selected g ∧
  selectedIndex (popFives g).1 = selectedIndex g ∧
  fresh (popFives g).1 = fresh g ∧ cursor (popFives g).1 = cursor g.
Proof.
  rewrite popFives_fst.
  destruct (rest_end_if
    (emptyCells (field (sweep (with_field g (mark (field g) (detect_runs (cells g))))))
     =? 0)
    (sweep (with_field g (mark (field g) (detect_runs (cells g))))))
    as (-> & -> & -> & ->).
  rewrite sweep_all_cells.
  destruct (sweep_list_rest all_cells
    (with_field g (mark (field g) (detect_runs (cells g)))))
    as (-> & -> & -> & ->).
  done.
Qed.

Lemma shape_ok_mark (f : list (list Z)) (td : list Coordinates) :
  shape_ok f = true → shape_ok (mark f td) = true.
Proof.
  unfold mark. revert f; induction td as [|t td IH]; intros f Hs; cbn [foldl];
    [done|]. by apply IH, shape_ok_field_set.
Qed.

Lemma sweep_list_shape (l : list Coordinates) (g : Game) :
  shape_ok (field g) = true ∧ shape_ok (cells g) = true →
  shape_ok (field (foldl sweep_cell g l)) = true ∧
  shape_ok (cells (foldl sweep_cell g l)) = true.
Proof.
  revert g; induction l as [|a l IH]; intros g [Hf Hc]; cbn [foldl]; [done|].
  apply IH. unfold sweep_cell. case_bool_decide; [|done]. cbn [field cells].
  split; [by apply shape_ok_field_set|by apply shape_ok_set_children].
Qed.

Lemma popFives_shape (g : Game) :
  shape_ok (field g) = true → shape_ok (cells g) = true →
  shape_ok (field (popFives g).1) = true ∧
  shape_ok (cells (popFives g).1) = true.
Proof.
  intros Hf Hc. rewrite popFives_fst, field_end_if, cells_end_if, sweep_all_cells.
  apply sweep_list_shape. rewrite field_with_field, cells_with_field.
  split; [by apply shape_ok_mark|exact Hc].
Qed.

Lemma board_ok_field_ok (g : Game) : board_ok g = true → field_ok (field g) = true.
Proof. by intros (? & _)%board_ok_spec. Qed.

Lemma popFives_sound (g : Game) : sound g → sound (popFives g).1.
Proof.
  intros (Hb & Hsf & Hsc & Hids).
  pose proof (board_ok_field_ok g Hb) as Hf.
  destruct (popFives_shape g Hsf Hsc) as [Hsf' Hsc'].
  destruct (popFives_rest g) as (_ & _ & Hfresh & _).
  split_and!; [|exact Hsf'|exact Hsc'|].
  { apply board_ok_spec in Hb as (_ & Hc & Hall). apply board_ok_spec.
    split_and!; [by apply popFives_field_ok|by apply popFives_cells_ok|].
    intros k Hk. apply popFives_consistent; auto. }
  rewrite Hfresh. apply (ids_spec_shrink (cells g)); [exact Hids|].
  intros k Hk. destruct (decide (k ∈ detect_runs (cells g))) as [Hin|Hout].
  - left. apply popFives_children_in; [exact Hf| |exact Hin].
    by apply shape_ok_cells_ok.
  - right. by apply popFives_children_out.
Qed.

(** ** [randomCells] keeps a game well formed *)

Lemma draw_rest (rnd : nat → nat) (g : Game) :
  field (draw rnd g).2 = field g ∧ cells (draw rnd g).2 = cells g ∧
  fresh (draw rnd g).2 = fresh g ∧ selected (draw rnd g).2 = selected g ∧
  selectedIndex (draw rnd g).2 = selectedIndex g.
Proof. done. Qed.

(** The ball placed is a new node. *)
Lemma place_node (rnd : nat → nat) (r0 r1 : Z) (g : Game) :
  ∃ ball, cells (place rnd r0 r1 g) =
            set_children (cells g) r0 r1 (children (cells g) r0 r1 ++ [ball]) ∧
          ball_id ball = fresh g ∧
          fresh (place rnd r0 r1 g) = S (fresh g) ∧
          selected (place rnd r0 r1 g) = selected g ∧
          selectedIndex (place rnd r0 r1 g) = selectedIndex g.
Proof.
  unfold place, Ball_new. destruct (list.last (nextColors g)) as [col|];
    eexists; split_and!; reflexivity.
Qed.

Lemma spawn_keeps_step (rnd : nat → nat) (g0 : Game) (s s' : Spawn) :
  spawn_keeps g0 s → randomCells_body rnd s = inl s' → spawn_keeps g0 s'.
Proof.
  rewrite randomCells_body_cases. cbv zeta.
  intros (Hsf & Hsc & Hids & Hsel & Hidx).
  destruct (draw_rest rnd (sp_game s)) as (Ef & Ec & En & Es & Ei).
  pose proof (draw_in_bounds rnd (sp_game s)) as Hin.
  destruct (draw rnd (sp_game s)) as [[r0 r1] g2]. cbn [fst snd] in *.
  destruct (sp_i s <=? 0); [done|].
  case_bool_decide as Hfree.
  - intros [= <-]. unfold spawn_keeps. cbn [sp_game].
    destruct (place_node rnd r0 r1 g2) as (ball & Hcells & Hid & Hfresh & Hs & Hi).
    rewrite place_field, Hcells, Hfresh, Hs, Hi, Ef, Ec, En, Es, Ei.
    split_and!; [by apply shape_ok_field_set|by apply shape_ok_set_children
                | |done|done].
    apply ids_spec_place; [done|by apply shape_ok_cells_ok|done|congruence].
  - destruct (tryCounter s >? size * size).
    + destruct (emptyCells _ =? 0); [done|]. intros [= <-].
      unfold spawn_keeps. cbn [sp_game]. by rewrite Ef, Ec, En, Es, Ei.
    + intros [= <-]. unfold spawn_keeps. cbn [sp_game].
      by rewrite Ef, Ec, En, Es, Ei.
Qed.

Lemma randomCells_loop_keeps (rnd : nat → nat) (g : Game) (s : Spawn) :
  spawn_keeps g (spawn0 g) →
  randomCells_loop rnd g = inr (loop_done s) ∨
  randomCells_loop rnd g = inr (game_over s) →
  spawn_keeps g s.
Proof.
  intros H0 Hl.
  destruct (randomCells_loop_nat rnd g) as (r & Hn & Hr).
  destruct (iter_nat_inv (randomCells_body rnd) (spawn_keeps g)
              (spawn_keeps_step rnd g) 336%nat (spawn0 g) r H0 Hn)
    as (s' & Hk & Hb).
  assert (Hrs : r = loop_done s ∨ r = game_over s)
    by (destruct Hl as [Hl|Hl]; rewrite Hr in Hl; injection Hl as ->; auto).
  revert Hb. rewrite randomCells_body_cases. cbv zeta.
  destruct (sp_i s' <=? 0).
  - intros [= <-]. destruct Hrs as [[= <-]|[=]]. exact Hk.
  - case_bool_decide; [done|].
    destruct (tryCounter s' >? size * size); [|done].
    destruct (emptyCells _ =? 0); [|done].
    intros [= <-]. destruct Hrs as [[=]|[= <-]].
    exact Hk.
Qed.

(** The placement loop keeps the board consistent: a ball comes with
    its 1 in the field. *)
Lemma spawn_board_ok (g : Game) (s : Spawn) :
  spawn_rel g s → board_ok g = true → board_ok (sp_game s) = true.
Proof.
  intros Hrel (Hf & Hc & Hall)%board_ok_spec. apply board_ok_spec.
  split_and!; [exact (sr_field_ok _ _ Hrel Hf)|exact (sr_cells_ok _ _ Hrel Hc)|].
  intros k Hk. destruct (decide ((x k, y k) ∈ obstacles s)) as [Hin|Hout].
  - destruct (sr_placed _ _ Hrel _ _ Hin) as (_ & H0 & H1).
    apply list_elem_of_lookup in Hin as [n Hn].
    destruct (sr_color _ _ Hrel Hc n _ _ Hn) as (b & Hkids & _).
    rewrite H1, Hkids, length_app. rewrite (Hall k Hk) in H0.
    injection H0 as H0. simpl length. f_equal. lia.
  - destruct (sr_other _ _ Hrel _ _ Hk Hout) as [-> ->]. by apply Hall.
Qed.

Lemma board_ok_ext (g g' : Game) :
  field g' = field g → cells g' = cells g → board_ok g' = board_ok g.
Proof. unfold board_ok. by intros -> ->. Qed.

Lemma randomCells_sound (rnd : nat → nat) (g : Game) :
  sound g → sound (randomCells rnd g) ∧
            selected (randomCells rnd g) = selected g ∧
            selectedIndex (randomCells rnd g) = selectedIndex g.
Proof.
  intros (Hb & Hsf & Hsc & Hids).
  assert (H0 : spawn_keeps g (spawn0 g)) by by split_and!.
  destruct (randomCells_loop_spec rnd g)
    as [(s & Hl & Hrel & _)|(s & Hl & Hrel & _)].
  - destruct (randomCells_loop_keeps rnd g s H0 (or_introl Hl))
      as (Hsf' & Hsc' & Hids' & Hsel & Hidx).
    rewrite (randomCells_done rnd g s Hl).
    destruct (popFives_rest (refill rnd (sp_game s))) as (-> & -> & _).
    split; [|by rewrite refill_spec].
    apply popFives_sound. rewrite refill_spec. split_and!; cbn [field cells fresh].
    + rewrite <- (spawn_board_ok g s Hrel Hb). by apply board_ok_ext.
    + exact Hsf'.
    + exact Hsc'.
    + exact Hids'.
  - destruct (randomCells_loop_keeps rnd g s H0 (or_intror Hl))
      as (Hsf' & Hsc' & Hids' & Hsel & Hidx).
    rewrite (randomCells_over rnd g s Hl).
    split; [|done]. split_and!; [by apply (spawn_board_ok g s)|done..].
Qed.

Lemma selection_ok_none (g : Game) :
  selected g = None → selectedIndex g = None → selection_ok g = true.
Proof. unfold selection_ok. by intros -> ->. Qed.

Lemma selection_ok_index (g : Game) :
  selection_ok g = true → selected g = None → selectedIndex g = None.
Proof.
  unfold selection_ok. intros H Hn. rewrite Hn in H.
  by destruct (selectedIndex g).
Qed.

Lemma randomCells_keeps (rnd : nat → nat) (g : Game) :
  sound g → selected g = None → selectedIndex g = None →
  game_ok (randomCells rnd g) = true.
Proof.
  intros Hs Hnone Hidx. apply game_ok_spec.
  destruct (randomCells_sound rnd g Hs) as (Hs' & Es & Ei).
  split; [exact Hs'|]. apply selection_ok_none; congruence.
Qed.

(** * Properties of [checkMovement] *)

(** The place of a cell in [Game.cells.flat()]. *)
Lemma all_cells_lookup (k : Coordinates) :
  in_bounds (x k) (y k) = true →
  all_cells !! Z.to_nat (x k * size + y k) = Some k.
Proof.
  destruct k as [i j]. rewrite in_bounds_spec. unfold size. simpl. intros [Hi Hj].
  assert (i = 0 ∨ i = 1 ∨ i = 2 ∨ i = 3 ∨ i = 4 ∨ i = 5 ∨ i = 6 ∨ i = 7 ∨ i = 8)
    as Hi' by lia.
  assert (j = 0 ∨ j = 1 ∨ j = 2 ∨ j = 3 ∨ j = 4 ∨ j = 5 ∨ j = 6 ∨ j = 7 ∨ j = 8)
    as Hj' by lia.
  clear Hi Hj.
  repeat (destruct Hi' as [->|Hi']); try subst i;
    repeat (destruct Hj' as [->|Hj']); try subst j; reflexivity.
Qed.

Lemma all_cells_index (n : nat) (k : Coordinates) :
  all_cells !! n = Some k → n = Z.to_nat (x k * size + y k).
Proof.
  intros Hn.
  assert (Hk : in_bounds (x k) (y k) = true)
    by (apply elem_of_all_cells; by eapply list_elem_of_lookup_2).
  eapply NoDup_lookup; [apply NoDup_all_cells|exact Hn|].
  by apply all_cells_lookup.
Qed.

(** In a 9x9 array of cells that hold distinct nodes, [findIndex] gives
    the place [9 * x + y] of the cell that holds the ball. *)
Lemma findIndex_at (c : list (list (list Ball))) (n : nat) (b : Ball)
    (k : Coordinates) :
  shape_ok c = true → ids_spec c n → in_bounds (x k) (y k) = true →
  b ∈ children c (x k) (y k) →
  findIndex c b = x k * size + y k.
Proof.
  intros Hs (_ & Huniq & _) Hk Hb. unfold findIndex.
  rewrite (grid_flat [] c Hs), list_find_fmap.
  match goal with |- context [list_find ?P ?l] =>
    destruct (list_find P l) as [[j k']|] eqn:Hfind end.
  - apply list_find_Some in Hfind as (Hj & Hin & _). simpl in Hin.
    assert (Hk' : in_bounds (x k') (y k') = true)
      by (apply elem_of_all_cells; by eapply list_elem_of_lookup_2).
    assert (k' = k) as ->.
    { apply (Huniq k' k (ball_id b)); [done..|]. by apply list_elem_of_fmap_2. }
    apply all_cells_index in Hj as ->. simpl.
    apply in_bounds_spec in Hk. unfold size in *. lia.
  - exfalso. apply list_find_None in Hfind.
    apply (proj1 (list.Forall_forall _ _) Hfind k); [by apply elem_of_all_cells|].
    simpl. by apply list_elem_of_fmap_2.
Qed.

Lemma checkMovement_at (g : Game) (b : Ball) (k : Coordinates) :
  shape_ok (cells g) = true → ids_spec (cells g) (fresh g) →
  in_bounds (x k) (y k) = true → b ∈ children (cells g) (x k) (y k) →
  checkMovement g b = existsb (λ d, passable (field g) (shift k d)) directions.
Proof.
  intros Hs Hids Hk Hb. unfold checkMovement.
  rewrite (findIndex_at (cells g) (fresh g) b k Hs Hids Hk Hb).
  apply in_bounds_spec in Hk. unfold size in *.
  assert ((x k * 9 + y k) `div` 9 = x k) as ->
    by (symmetry; apply (Z.div_unique_pos _ 9 (x k) (y k)); lia).
  assert ((x k * 9 + y k) `rem` 9 = y k) as ->.
  { rewrite Z.rem_mod_nonneg by lia. symmetry.
    apply (Z.mod_unique_pos _ 9 (x k) (y k)); lia. }
  reflexivity.
Qed.

Lemma existsb_passable (f : list (list Z)) (k : Coordinates) :
  existsb (λ d, passable f (shift k d)) directions = true ↔
  ∃ n, adjacent k n = true ∧ passable f n = true.
Proof.
  rewrite existsb_exists. split.
  - intros (d & Hd%list_elem_of_In & Hp). exists (shift k d). split; [|done].
    apply adjacent_shift. eauto.
  - intros (n & (d & Hd & ->)%adjacent_shift & Hp). exists d.
    split; [by apply list_elem_of_In|done].
Qed.

(** X14. For a ball that sits in the cell [k] of a well-formed board,
    [checkMovement] answers whether one of the four orthogonal neighbours
    of [k] is an empty cell of the board. *)
Theorem checkMovement_spec (g : Game) (b : Ball) (k : Coordinates) :
  shape_ok (cells g) = true → ids_ok g = true →
  in_bounds (x k) (y k) = true → b ∈ children (cells g) (x k) (y k) →
  (checkMovement g b = true ↔
   ∃ n, adjacent k n = true ∧ passable (field g) n = true).
Proof.
  intros Hs Hids%ids_ok_spec Hk Hb.
  rewrite (checkMovement_at g b k Hs Hids Hk Hb). apply existsb_passable.
Qed.

Lemma checkMovement_spec_witness :
  checkMovement crowded_game {| ball_id := 77; color := blue |} = true ↔
  ∃ n, adjacent (Coord 8 5) n = true ∧ passable (field crowded_game) n = true.
Proof.
  apply (checkMovement_spec crowded_game {| ball_id := 77; color := blue |}
           (Coord 8 5)).
  - reflexivity.
  - vm_compute. reflexivity.
  - reflexivity.
  - vm_compute. left.
Defined.

(** X15. For a node that is in no cell, [findIndex] yields -1 and
    [checkMovement] answers [false]: none of the cells it then looks at
    is on the board. *)
Theorem checkMovement_detached (g : Game) (b : Ball) :
  Forall (λ kids, ball_id b ∉ ball_id <$> kids) (concat (cells g)) →
  findIndex (cells g) b = -1 ∧ checkMovement g b = false.
Proof.
  intros Hnone.
  assert (Hidx : findIndex (cells g) b = -1).
  { unfold findIndex.
    by rewrite (proj2 (list_find_None _ (concat (cells g))) Hnone). }
  split; [exact Hidx|]. unfold checkMovement. rewrite Hidx. reflexivity.
Qed.

Lemma checkMovement_detached_witness :
  findIndex (cells new_game) {| ball_id := 0; color := red |} = -1 ∧
  checkMovement new_game {| ball_id := 0; color := red |} = false.
Proof.
  apply (checkMovement_detached new_game {| ball_id := 0; color := red |}).
  vm_compute. repeat constructor; by intros ?%elem_of_nil.
Defined.

Lemma walk_first_step (f : list (list Z)) (start c : Coordinates)
    (p : list Coordinates) :
  walk f start p c → c ≠ start →
  ∃ n, adjacent start n = true ∧ passable f n = true.
Proof.
  induction 1 as [|p c n Hw IH Hadj Hpass]; intros Hne; [done|].
  destruct (decide (c = start)) as [->|Hc]; eauto.
Qed.

(** X16. [checkMovement] lets a ball be selected exactly when [getPath]
    can lead it to some other cell. *)
Theorem checkMovement_iff_reachable (g : Game) (b : Ball) (k : Coordinates) :
  shape_ok (cells g) = true → ids_ok g = true →
  in_bounds (x k) (y k) = true → b ∈ children (cells g) (x k) (y k) →
  (checkMovement g b = true ↔
   ∃ target, target ≠ k ∧ found (getPath (field g) k target) = true).
Proof.
  intros Hs Hids%ids_ok_spec Hk Hb.
  rewrite (checkMovement_at g b k Hs Hids Hk Hb), existsb_passable. split.
  - intros (n & Hadj & Hpass). exists n. split.
    + intros ->. by apply adjacent_ne in Hadj.
    + apply (getPath_complete (field g) k n [k]).
      apply (walk_step (field g) k [] k n); [constructor|done..].
  - intros (target & Hne & Hfound).
    destruct (getPath_found (field g) k target Hfound) as (p & _ & Hw & _).
    by apply (walk_first_step (field g) k target p).
Qed.

Lemma checkMovement_iff_reachable_witness :
  checkMovement crowded_game {| ball_id := 77; color := blue |} = true ↔
  ∃ target, target ≠ Coord 8 5 ∧
            found (getPath (field crowded_game) (Coord 8 5) target) = true.
Proof.
  apply (checkMovement_iff_reachable crowded_game
           {| ball_id := 77; color := blue |} (Coord 8 5)).
  - reflexivity.
  - vm_compute. reflexivity.
  - reflexivity.
  - vm_compute. left.
Defined.

(** * Further properties of [handleClicks] *)

(** ** Moving a node with [appendChild] *)

Lemma children_filter_map (P : Ball → Prop) `{!∀ b, Decision (P b)}
    (c : list (list (list Ball))) (i j : Z) :
  children (map (map (filter P)) c) i j = filter P (children c i j).
Proof.
  unfold children. rewrite list_lookup_fmap.
  destruct (c !! Z.to_nat i) as [row|]; simpl; [|done].
  rewrite list_lookup_fmap. by destruct (row !! Z.to_nat j).
Qed.

Lemma children_appendChild (c : list (list (list Ball))) (i j : Z) (b : Ball)
    (k : Coordinates) :
  cells_ok c = true → in_bounds i j = true → in_bounds (x k) (y k) = true →
  children (appendChild c i j b) (x k) (y k)
  = if decide (k = Coord i j)
    then filter (λ b', ball_id b' ≠ ball_id b) (children c i j) ++ [b]
    else filter (λ b', ball_id b' ≠ ball_id b) (children c (x k) (y k)).
Proof.
  intros Hc Hij Hk. unfold appendChild. case_decide as Heq.
  - subst k. cbn [x y]. rewrite children_set_eq, children_filter_map; [done|].
    apply (proj1 (cells_ok_spec _)); [|done].
    pose proof (cells_ok_appendChild c i j b Hc) as Hc'.
    unfold appendChild in Hc'. apply cells_ok_spec. intros i' j' Hb.
    apply (proj1 (cells_ok_spec _) Hc') in Hb.
    by apply set_children_shape in Hb.
  - rewrite children_set_ne, children_filter_map; [done|].
    intros Hn. apply Heq. symmetry. by apply (to_nat_coord (Coord i j) k).
Qed.

Lemma field_at_set_in (f : list (list Z)) (k k' : Coordinates) (v : Z) :
  in_bounds (x k) (y k) = true → in_bounds (x k') (y k') = true →
  field_at (field_set f (x k) (y k) v) (x k') (y k')
  = if decide (k = k') then (λ _, v) <$> field_at f (x k') (y k')
    else field_at f (x k') (y k').
Proof.
  intros Hk Hk'. rewrite field_at_set.
  pose proof (to_nat_coord k k' Hk Hk'). repeat case_decide; tauto.
Qed.

Lemma filter_id_out (l : list Ball) (b : Ball) :
  ball_id b ∉ ball_id <$> l → filter (λ b', ball_id b' ≠ ball_id b) l = l.
Proof.
  induction l as [|a l IH]; [done|]. rewrite fmap_cons, not_elem_of_cons.
  intros [Ha Hl]. rewrite filter_cons, decide_True by done. by rewrite IH.
Qed.

(** What the cells hold after the move. *)
Lemma moved_children (g : Game) (sel : Ball) (idx coords k : Coordinates) :
  sound g → in_bounds (x idx) (y idx) = true →
  children (cells g) (x idx) (y idx) = [sel] →
  in_bounds (x coords) (y coords) = true →
  children (cells g) (x coords) (y coords) = [] →
  in_bounds (x k) (y k) = true →
  children (cells (moved g sel idx coords)) (x k) (y k)
  = if decide (k = coords) then [sel]
    else if decide (k = idx) then []
    else children (cells g) (x k) (y k).
Proof.
  intros (Hb & Hsf & Hsc & _ & Huniq & _) Hidx Hsel Hcoords Hempty Hk.
  unfold moved. cbn [cells].
  rewrite children_appendChild; [|by apply shape_ok_cells_ok|done..].
  destruct coords as [ci cj]. cbn [x y] in *.
  case_decide as Hkc; [by rewrite Hempty|].
  case_decide as Hki.
  - subst k. rewrite Hsel. rewrite filter_cons, decide_False; [done|]. tauto.
  - apply filter_id_out. intros Hin. apply Hki.
    apply (Huniq k idx (ball_id sel)); [done..|]. rewrite Hsel. by left.
Qed.

Lemma ids_spec_move (c c' : list (list (list Ball))) (n : nat) (sel : Ball)
    (idx coords : Coordinates) :
  ids_spec c n → in_bounds (x idx) (y idx) = true → coords ≠ idx →
  children c (x idx) (y idx) = [sel] →
  (∀ k, in_bounds (x k) (y k) = true →
        children c' (x k) (y k)
        = if decide (k = coords) then [sel]
          else if decide (k = idx) then []
          else children c (x k) (y k)) →
  ids_spec c' n.
Proof.
  intros (H1 & H2 & H3) Hidx Hne Hsel Hkids.
  assert (Hin : ∀ k i, in_bounds (x k) (y k) = true →
            i ∈ ball_id <$> children c' (x k) (y k) →
            (k = coords ∧ i ∈ ball_id <$> children c (x idx) (y idx)) ∨
            (k ≠ coords ∧ k ≠ idx ∧ i ∈ ball_id <$> children c (x k) (y k))).
  { intros k i Hk. rewrite (Hkids k Hk).
    case_decide; [left; by rewrite Hsel|].
    case_decide; [by intros ?%elem_of_nil|by right]. }
  split_and!.
  - intros k Hk. rewrite (Hkids k Hk).
    case_decide; [apply NoDup_singleton|]. case_decide; [constructor|by apply H1].
  - intros k k' i Hk Hk' Hi Hi'.
    destruct (Hin k i Hk Hi) as [[-> Ho]|(Hc & Hd & Ho)],
             (Hin k' i Hk' Hi') as [[-> Ho']|(Hc' & Hd' & Ho')].
    + done.
    + destruct Hd'. by apply (H2 k' idx i).
    + destruct Hd. by apply (H2 k idx i).
    + by apply (H2 k k' i).
  - intros k i Hk Hi.
    destruct (Hin k i Hk Hi) as [[-> Ho]|(Hc & Hd & Ho)].
    + by apply (H3 idx i).
    + by apply (H3 k i).
Qed.

Lemma moved_sound (g : Game) (sel : Ball) (idx coords : Coordinates) :
  sound g → in_bounds (x idx) (y idx) = true →
  children (cells g) (x idx) (y idx) = [sel] →
  in_bounds (x coords) (y coords) = true →
  children (cells g) (x coords) (y coords) = [] →
  sound (moved g sel idx coords).
Proof.
  intros Hs Hidx Hsel Hcoords Hempty.
  assert (Hkids : ∀ k, in_bounds (x k) (y k) = true →
            children (cells (moved g sel idx coords)) (x k) (y k)
            = if decide (k = coords) then [sel]
              else if decide (k = idx) then []
              else children (cells g) (x k) (y k))
    by (intros k Hk; by apply moved_children).
  assert (Hne : coords ≠ idx) by (intros ->; congruence).
  destruct Hs as (Hb & Hsf & Hsc & Hids).
  apply board_ok_spec in Hb as (Hf & Hc & Hall).
  split_and!.
  - apply board_ok_spec. split_and!.
    + unfold moved. cbn [field].
      apply field_ok_field_set; [by left|]. by apply field_ok_field_set; [right|].
    + unfold moved. cbn [cells]. by apply cells_ok_appendChild.
    + intros k Hk. rewrite (Hkids k Hk). unfold moved. cbn [field].
      rewrite !field_at_set_in by done.
      destruct (decide (k = coords)) as [->|Hkc].
      * rewrite (decide_False (P := idx = coords)) by done.
        rewrite decide_True by done. by rewrite (Hall coords Hcoords), Hempty.
      * destruct (decide (k = idx)) as [->|Hki].
        -- rewrite decide_True by done.
           rewrite (decide_False (P := coords = idx)) by done.
           by rewrite (Hall idx Hidx).
        -- rewrite !decide_False by done. by apply Hall.
  - unfold moved. cbn [field]. by do 2 apply shape_ok_field_set.
  - unfold moved, appendChild. cbn [cells].
    by apply shape_ok_set_children, shape_ok_map.
  - unfold moved at 2. cbn [fresh].
    by apply (ids_spec_move (cells g) _ (fresh g) sel idx coords).
Qed.

(** ** The branches of [handleClicks] *)

Lemma handleClicks_move_eq (coords : Coordinates) (g : Game) (sel : Ball)
    (idx : Coordinates) :
  head (children (cells g) (x coords) (y coords)) = None →
  selected g = Some sel → selectedIndex g = Some idx →
  found (getPath (field g) idx coords) = true →
  handleClicks coords g
  = (select (popFives (moved g sel idx coords)).1 None None,
     Some (popFives (moved g sel idx coords)).2).
Proof.
  intros Hhead Hsel Hidx Hfound. unfold handleClicks, moved.
  rewrite Hhead, Hsel, Hidx, Hfound. cbv zeta.
  by destruct (popFives _) as [g2 popped].
Qed.

Lemma sound_select (g : Game) (sel : option Ball) (idx : option Coordinates) :
  sound g → sound (select g sel idx).
Proof. done. Qed.

(** On a consistent board a cell with a ball holds this ball only. *)
Lemma board_ok_single (g : Game) (k : Coordinates) (b : Ball) :
  board_ok g = true → in_bounds (x k) (y k) = true →
  head (children (cells g) (x k) (y k)) = Some b →
  children (cells g) (x k) (y k) = [b].
Proof.
  intros (Hf & _ & Hall)%board_ok_spec Hk Hhead.
  pose proof (Hall k Hk) as Hlen.
  destruct (children (cells g) (x k) (y k)) as [|b' [|b'' l]]; simplify_eq/=.
  - done.
  - destruct (proj1 (field_ok_spec _) Hf k Hk) as [H0|H1]; rewrite Hlen in *;
      simplify_eq/=; lia.
Qed.

Lemma selection_ok_some (g : Game) (sel : Ball) (idx : Coordinates) :
  selection_ok g = true → selected g = Some sel → selectedIndex g = Some idx →
  in_bounds (x idx) (y idx) = true ∧ children (cells g) (x idx) (y idx) = [sel].
Proof.
  unfold selection_ok. intros H Hs Hi. rewrite Hs, Hi in H.
  apply andb_prop in H as [? ?%bool_decide_eq_true]. done.
Qed.

Lemma selection_ok_select (g : Game) (sel : Ball) (idx : Coordinates) :
  in_bounds (x idx) (y idx) = true →
  children (cells g) (x idx) (y idx) = [sel] →
  selection_ok (select g (Some sel) (Some idx)) = true.
Proof.
  intros Hidx Hkids. unfold selection_ok. simpl. rewrite Hidx, Hkids.
  by rewrite bool_decide_eq_true_2.
Qed.

(** The three ways in which [handleClicks] leaves a well-formed game. *)
Lemma game_ok_deselect (g : Game) :
  game_ok g = true → game_ok (select g None None) = true.
Proof.
  intros [Hs _]%game_ok_spec. apply game_ok_spec.
  split; [by apply sound_select|done].
Qed.

Lemma game_ok_select (g : Game) (ball : Ball) (coords : Coordinates) :
  game_ok g = true → in_bounds (x coords) (y coords) = true →
  head (children (cells g) (x coords) (y coords)) = Some ball →
  game_ok (select g (Some ball) (Some coords)) = true.
Proof.
  intros [Hs _]%game_ok_spec Hcoords Hhead. apply game_ok_spec.
  split; [by apply sound_select|]. apply selection_ok_select; [done|].
  apply board_ok_single; [by destruct Hs|done..].
Qed.

Lemma game_ok_moved (g : Game) (sel : Ball) (idx coords : Coordinates) :
  game_ok g = true → in_bounds (x coords) (y coords) = true →
  head (children (cells g) (x coords) (y coords)) = None →
  selected g = Some sel → selectedIndex g = Some idx →
  game_ok (select (popFives (moved g sel idx coords)).1 None None) = true.
Proof.
  intros [Hs Hsel]%game_ok_spec Hcoords Hhead Es Ei.
  apply game_ok_spec. split; [|done].
  apply sound_select, popFives_sound.
  destruct (selection_ok_some g sel idx Hsel Es Ei) as [Hidx Hkids].
  apply moved_sound; [done..|].
  by destruct (children (cells g) (x coords) (y coords)).
Qed.

(** X17. Selecting: a click on a ball of a well-formed game that is not
    the selected one selects it, with its cell as [selectedIndex], when
    one of the four neighbouring cells is empty, and does nothing when
    the ball is boxed in.  The board is not touched and no timer is
    set. *)
Theorem handleClicks_select (coords : Coordinates) (g : Game) (ball : Ball) :
  game_ok g = true → in_bounds (x coords) (y coords) = true →
  head (children (cells g) (x coords) (y coords)) = Some ball →
  ball_id <$> selected g ≠ Some (ball_id ball) →
  ((∃ n, adjacent coords n = true ∧ passable (field g) n = true) →
   handleClicks coords g = (select g (Some ball) (Some coords), None)) ∧
  ((∀ n, adjacent coords n = true → passable (field g) n = false) →
   handleClicks coords g = (g, None)).
Proof.
  intros [(Hb & Hsf & Hsc & Hids) Hsel]%game_ok_spec Hcoords Hhead Hother.
  pose proof (board_ok_single g coords ball Hb Hcoords Hhead) as Hkids.
  assert (Hin : ball ∈ children (cells g) (x coords) (y coords))
    by (rewrite Hkids; left).
  pose proof (checkMovement_at g ball coords Hsc Hids Hcoords Hin) as Hcheck.
  unfold handleClicks. rewrite Hhead, bool_decide_eq_false_2 by done. split.
  - intros Hfree%existsb_passable. by rewrite Hcheck, Hfree.
  - intros Hboxed.
    destruct (checkMovement g ball); [|done]. exfalso.
    symmetry in Hcheck. apply existsb_passable in Hcheck as (n & Hadj & Hpass).
    rewrite (Hboxed n Hadj) in Hpass. discriminate Hpass.
Qed.

Lemma handleClicks_select_witness :
  ((∃ n, adjacent (Coord 8 5) n = true ∧ passable (field crowded_game) n = true) →
   handleClicks (Coord 8 5) crowded_game
   = (select crowded_game (Some {| ball_id := 77; color := blue |})
        (Some (Coord 8 5)), None)) ∧
  ((∀ n, adjacent (Coord 8 5) n = true → passable (field crowded_game) n = false) →
   handleClicks (Coord 8 5) crowded_game = (crowded_game, None)).
Proof.
  apply (handleClicks_select (Coord 8 5) crowded_game
           {| ball_id := 77; color := blue |}).
  - vm_compute. reflexivity.
  - reflexivity.
  - vm_compute. reflexivity.
  - vm_compute. discriminate.
Defined.

(** X18. Selecting and deselecting cancel out: with nothing selected, a
    click on a ball that can move selects it, and a second click on the
    same cell gives the game back as it was. *)
Theorem handleClicks_toggle (coords : Coordinates) (g : Game) (ball : Ball) :
  selected g = None → selectedIndex g = None →
  head (children (cells g) (x coords) (y coords)) = Some ball →
  checkMovement g ball = true →
  handleClicks coords g = (select g (Some ball) (Some coords), None) ∧
  handleClicks coords (handleClicks coords g).1 = (g, None).
Proof.
  intros Hs Hi Hhead Hcheck.
  assert (Hfirst : handleClicks coords g
                   = (select g (Some ball) (Some coords), None)).
  { unfold handleClicks. rewrite Hhead, Hs, Hcheck.
    by rewrite bool_decide_eq_false_2. }
  split; [exact Hfirst|]. rewrite Hfirst. cbn [fst].
  unfold handleClicks. cbn [select cells selected]. rewrite Hhead.
  rewrite bool_decide_eq_true_2 by done.
  f_equal. destruct g; simpl in *. by subst.
Qed.

Lemma handleClicks_toggle_witness :
  handleClicks (Coord 8 5) crowded_game
  = (select crowded_game (Some {| ball_id := 77; color := blue |})
       (Some (Coord 8 5)), None) ∧
  handleClicks (Coord 8 5) (handleClicks (Coord 8 5) crowded_game).1
  = (crowded_game, None).
Proof.
  apply (handleClicks_toggle (Coord 8 5) crowded_game
           {| ball_id := 77; color := blue |}).
  - reflexivity.
  - reflexivity.
  - vm_compute. reflexivity.
  - vm_compute. reflexivity.
Defined.

(** X19. Unless it moves a ball, a click changes nothing but the
    selection: when [handleClicks] sets no timer, the field, the cells,
    the score, the queue and the end of the game are as before. *)
Theorem handleClicks_no_timer (coords : Coordinates) (g : Game) :
  (handleClicks coords g).2 = None →
  field (handleClicks coords g).1 = field g ∧
  cells (handleClicks coords g).1 = cells g ∧
  points (handleClicks coords g).1 = points g ∧
  nextColors (handleClicks coords g).1 = nextColors g ∧
  ended (handleClicks coords g).1 = ended g.
Proof.
  unfold handleClicks.
  destruct (head (children (cells g) (x coords) (y coords))) as [ball|].
  - case_bool_decide; [done|]. by destruct (checkMovement g ball).
  - destruct (selected g) as [sel|]; [|done].
    destruct (selectedIndex g) as [idx|]; [|done].
    destruct (found (getPath (field g) idx coords)); [|done].
    by destruct (popFives _).
Qed.

Lemma handleClicks_no_timer_witness :
  field (handleClicks (Coord 8 5) crowded_game).1 = field crowded_game ∧
  cells (handleClicks (Coord 8 5) crowded_game).1 = cells crowded_game ∧
  points (handleClicks (Coord 8 5) crowded_game).1 = points crowded_game ∧
  nextColors (handleClicks (Coord 8 5) crowded_game).1 = nextColors crowded_game ∧
  ended (handleClicks (Coord 8 5) crowded_game).1 = ended crowded_game.
Proof.
  apply (handleClicks_no_timer (Coord 8 5) crowded_game).
  vm_compute. reflexivity.
Defined.

(** X20. Moving: a click on an empty cell that the selected ball can
    reach takes the ball out of its cell and makes it the one child of
    the clicked cell, with the field following; every other cell is
    untouched, the board stays consistent and has as many empty cells
    as before.  [popFives] then runs on this board, the selection is
    cleared and the timer is set with what [popFives] returned. *)
Theorem handleClicks_move (coords : Coordinates) (g : Game) (sel : Ball)
    (idx : Coordinates) :
  game_ok g = true → in_bounds (x coords) (y coords) = true →
  head (children (cells g) (x coords) (y coords)) = None →
  selected g = Some sel → selectedIndex g = Some idx →
  found (getPath (field g) idx coords) = true →
  handleClicks coords g
  = (select (popFives (moved g sel idx coords)).1 None None,
     Some (popFives (moved g sel idx coords)).2) ∧
  children (cells (moved g sel idx coords)) (x coords) (y coords) = [sel] ∧
  children (cells (moved g sel idx coords)) (x idx) (y idx) = [] ∧
  field_at (field (moved g sel idx coords)) (x coords) (y coords) = Some 1 ∧
  field_at (field (moved g sel idx coords)) (x idx) (y idx) = Some 0 ∧
  (∀ k, in_bounds (x k) (y k) = true → k ≠ coords → k ≠ idx →
        children (cells (moved g sel idx coords)) (x k) (y k)
        = children (cells g) (x k) (y k) ∧
        field_at (field (moved g sel idx coords)) (x k) (y k)
        = field_at (field g) (x k) (y k)) ∧
  board_ok (moved g sel idx coords) = true ∧
  emptyCells (field (moved g sel idx coords)) = emptyCells (field g).
Proof.
  intros [Hs Hsel]%game_ok_spec Hcoords Hhead Es Ei Hfound.
  destruct (selection_ok_some g sel idx Hsel Es Ei) as [Hidx Hkids].
  assert (Hempty : children (cells g) (x coords) (y coords) = [])
    by by destruct (children (cells g) (x coords) (y coords)).
  assert (Hne : coords ≠ idx) by (intros ->; congruence).
  assert (Hch : ∀ k, in_bounds (x k) (y k) = true →
            children (cells (moved g sel idx coords)) (x k) (y k)
            = if decide (k = coords) then [sel]
              else if decide (k = idx) then []
              else children (cells g) (x k) (y k))
    by (intros k Hk; by apply moved_children).
  destruct (moved_sound g sel idx coords Hs Hidx Hkids Hcoords Hempty)
    as (Hb' & _).
  pose proof Hb' as (_ & _ & Hall)%board_ok_spec.
  split_and!.
  - by apply handleClicks_move_eq.
  - rewrite (Hch coords Hcoords). by rewrite decide_True.
  - rewrite (Hch idx Hidx). rewrite decide_False by done. by rewrite decide_True.
  - rewrite (Hall coords Hcoords), (Hch coords Hcoords). by rewrite decide_True.
  - rewrite (Hall idx Hidx), (Hch idx Hidx). rewrite decide_False by done.
    by rewrite decide_True.
  - intros k Hk Hkc Hki.
    assert (Hsame : children (cells (moved g sel idx coords)) (x k) (y k)
                    = children (cells g) (x k) (y k))
      by (rewrite (Hch k Hk); by rewrite !decide_False).
    split; [exact Hsame|]. rewrite (Hall k Hk), Hsame.
    destruct Hs as (Hb & _). apply board_ok_spec in Hb as (_ & _ & Hall0).
    by rewrite (Hall0 k Hk).
  - exact Hb'.
  - destruct Hs as (Hb & Hsf & _). apply board_ok_spec in Hb as (_ & _ & Hall0).
    pose proof (Hall0 coords Hcoords) as Hzc. rewrite Hempty in Hzc.
    pose proof (Hall0 idx Hidx) as Hzi. rewrite Hkids in Hzi.
    rewrite (emptyCells_add
               (field_set (field g) (x coords) (y coords) 1) (field g) [coords]).
    + unfold moved. cbn [field].
      apply (emptyCells_add _ _ [idx]).
      * by apply shape_ok_field_set.
      * by do 2 apply shape_ok_field_set.
      * apply NoDup_singleton.
      * intros k ->%list_elem_of_singleton. split; [exact Hidx|].
        rewrite field_at_set_in, decide_False, Hzi by done. discriminate.
      * intros k Hk. rewrite list_elem_of_singleton.
        rewrite (field_at_set_in _ idx k) by done.
        destruct (decide (idx = k)) as [->|Hne']; [|intuition congruence].
        rewrite field_at_set_in, decide_False, Hzi by done. simpl. tauto.
    + by apply shape_ok_field_set.
    + exact Hsf.
    + apply NoDup_singleton.
    + intros k ->%list_elem_of_singleton. split; [exact Hcoords|].
      rewrite field_at_set_in, decide_True, Hzc by done. discriminate.
    + intros k Hk. rewrite list_elem_of_singleton.
      rewrite (field_at_set_in _ coords k) by done.
      destruct (decide (coords = k)) as [->|Hne']; [|intuition congruence].
      rewrite Hzc. simpl. split; [by right|]. by intros _.
Qed.

Lemma handleClicks_move_witness :
  handleClicks (Coord 8 6) picked_game
  = (select (popFives (moved picked_game {| ball_id := 77; color := blue |}
                         (Coord 8 5) (Coord 8 6))).1 None None,
     Some (popFives (moved picked_game {| ball_id := 77; color := blue |}
                       (Coord 8 5) (Coord 8 6))).2) ∧
  children (cells (moved picked_game {| ball_id := 77; color := blue |}
                     (Coord 8 5) (Coord 8 6))) (x (Coord 8 6)) (y (Coord 8 6))
  = [{| ball_id := 77; color := blue |}] ∧
  children (cells (moved picked_game {| ball_id := 77; color := blue |}
                     (Coord 8 5) (Coord 8 6))) (x (Coord 8 5)) (y (Coord 8 5))
  = [] ∧
  field_at (field (moved picked_game {| ball_id := 77; color := blue |}
                     (Coord 8 5) (Coord 8 6))) (x (Coord 8 6)) (y (Coord 8 6))
  = Some 1 ∧
  field_at (field (moved picked_game {| ball_id := 77; color := blue |}
                     (Coord 8 5) (Coord 8 6))) (x (Coord 8 5)) (y (Coord 8 5))
  = Some 0 ∧
  (∀ k, in_bounds (x k) (y k) = true → k ≠ Coord 8 6 → k ≠ Coord 8 5 →
        children (cells (moved picked_game {| ball_id := 77; color := blue |}
                           (Coord 8 5) (Coord 8 6))) (x k) (y k)
        = children (cells picked_game) (x k) (y k) ∧
        field_at (field (moved picked_game {| ball_id := 77; color := blue |}
                           (Coord 8 5) (Coord 8 6))) (x k) (y k)
        = field_at (field picked_game) (x k) (y k)) ∧
  board_ok (moved picked_game {| ball_id := 77; color := blue |}
              (Coord 8 5) (Coord 8 6)) = true ∧
  emptyCells (field (moved picked_game {| ball_id := 77; color := blue |}
                       (Coord 8 5) (Coord 8 6)))
  = emptyCells (field picked_game).
Proof.
  apply (handleClicks_move (Coord 8 6) picked_game
           {| ball_id := 77; color := blue |} (Coord 8 5)).
  - vm_compute. reflexivity.
  - reflexivity.
  - vm_compute. reflexivity.
  - reflexivity.
  - reflexivity.
  - vm_compute. reflexivity.
Defined.

(** X21. [handleClicks] keeps a game well formed, whatever cell of the
    board is clicked. *)
Theorem handleClicks_game_ok (coords : Coordinates) (g : Game) :
  game_ok g = true → in_bounds (x coords) (y coords) = true →
  game_ok (handleClicks coords g).1 = true.
Proof.
  intros Hok Hcoords.
  destruct (head (children (cells g) (x coords) (y coords))) as [ball|] eqn:Hhead.
  - unfold handleClicks. rewrite Hhead. case_bool_decide.
    + by apply game_ok_deselect.
    + destruct (checkMovement g ball); [|exact Hok]. by apply game_ok_select.
  - destruct (selected g) as [sel|] eqn:Es; cycle 1.
    { unfold handleClicks. by rewrite Hhead, Es. }
    destruct (selectedIndex g) as [idx|] eqn:Ei; cycle 1.
    { unfold handleClicks. by rewrite Hhead, Es, Ei. }
    destruct (found (getPath (field g) idx coords)) eqn:Hfound; cycle 1.
    { unfold handleClicks. rewrite Hhead, Es, Ei, Hfound.
      by apply game_ok_deselect. }
    rewrite (handleClicks_move_eq coords g sel idx Hhead Es Ei Hfound).
    by apply game_ok_moved.
Qed.

Lemma handleClicks_game_ok_witness :
  game_ok (handleClicks (Coord 8 6) picked_game).1 = true.
Proof.
  apply (handleClicks_game_ok (Coord 8 6) picked_game).
  - vm_compute. reflexivity.
  - reflexivity.
Defined.

(** * The hover preview of [createCells] *)

Lemma walk_nil (f : list (list Z)) (start c : Coordinates) :
  walk f start [] c → c = start.
Proof.
  inversion 1 as [|p c' n Hw Hadj Hpass Hp]; [done|]. by destruct p.
Qed.

(** A path to another cell has more than one cell. *)
Lemma getPath_long (f : list (list Z)) (start end_ : Coordinates) :
  found (getPath f start end_) = true → end_ ≠ start →
  (1 <? Z.of_nat (length (path (getPath f start end_)))) = true.
Proof.
  intros Hfound Hne.
  destruct (getPath_found f start end_ Hfound) as (p & -> & Hw & _).
  destruct p as [|a p]; [apply walk_nil in Hw; contradiction|].
  rewrite length_app. simpl. apply Z.ltb_lt. lia.
Qed.

Lemma getPath_start (f : list (list Z)) (c : Coordinates) :
  found (getPath f c c) = true ∧ path (getPath f c c) = [c].
Proof.
  assert (Hfound : found (getPath f c c) = true)
    by exact (getPath_complete f c c [] (walk_start f c)).
  split; [exact Hfound|].
  destruct (getPath_found f c c Hfound) as (p & -> & _ & _ & Hmin).
  specialize (Hmin [] (walk_start f c)). destruct p; [done|simpl in Hmin; lia].
Qed.

(** A cell that a path ends on, other than its start, holds no ball. *)
Lemma found_target_empty (g : Game) (idx coords : Coordinates) :
  board_ok g = true → found (getPath (field g) idx coords) = true →
  coords ≠ idx → head (children (cells g) (x coords) (y coords)) = None.
Proof.
  intros (_ & _ & Hall)%board_ok_spec Hfound Hne.
  destruct (getPath_found (field g) idx coords Hfound) as (p & _ & Hw & _).
  destruct (walk_cells (field g) idx p coords Hw coords) as [?|Hpass];
    [apply elem_of_app; right; left|done|].
  apply passable_spec in Hpass as [Hb H0]. rewrite (Hall coords Hb) in H0.
  by destruct (children (cells g) (x coords) (y coords)).
Qed.

(** X22. With a ball selected on a consistent board, the hover preview
    shows what a click would do: over the ball's own cell nothing is
    highlighted; over another cell that [getPath] reaches the whole path
    is highlighted, it is a route from the ball to that cell, and a
    click there moves the ball (the timer is set); over a cell that
    cannot be reached nothing is highlighted and a click moves
    nothing. *)
Theorem mouseover_previews_click (coords : Coordinates) (g : Game)
    (sel : Ball) (idx : Coordinates) :
  board_ok g = true → selected g = Some sel → selectedIndex g = Some idx →
  mouseover idx g = Some [] ∧
  (coords ≠ idx → found (getPath (field g) idx coords) = true →
   mouseover coords g = Some (path (getPath (field g) idx coords)) ∧
   route (field g) idx coords (path (getPath (field g) idx coords)) = true ∧
   ∃ popped, (handleClicks coords g).2 = Some popped) ∧
  (found (getPath (field g) idx coords) = false →
   mouseover coords g = Some [] ∧ (handleClicks coords g).2 = None).
Proof.
  intros Hb Es Ei. unfold mouseover. rewrite Es, Ei. cbv zeta. split_and!.
  - destruct (getPath_start (field g) idx) as [-> ->]. reflexivity.
  - intros Hne Hfound. rewrite Hfound, (getPath_long _ _ _ Hfound Hne).
    split_and!; [reflexivity| |].
    + destruct (getPath_found (field g) idx coords Hfound) as (p & -> & Hw & _).
      by apply walk_route.
    + pose proof (found_target_empty g idx coords Hb Hfound Hne) as Hhead.
      rewrite (handleClicks_move_eq coords g sel idx Hhead Es Ei Hfound).
      by eexists.
  - intros Hfound. rewrite Hfound. split; [reflexivity|].
    unfold handleClicks.
    destruct (head (children (cells g) (x coords) (y coords))) as [ball|].
    + case_bool_decide; [done|]. by destruct (checkMovement g ball).
    + by rewrite Es, Ei, Hfound.
Qed.

Lemma mouseover_previews_click_witness :
  mouseover (Coord 8 5) picked_game = Some [] ∧
  (Coord 8 7 ≠ Coord 8 5 →
   found (getPath (field picked_game) (Coord 8 5) (Coord 8 7)) = true →
   mouseover (Coord 8 7) picked_game
   = Some (path (getPath (field picked_game) (Coord 8 5) (Coord 8 7))) ∧
   route (field picked_game) (Coord 8 5) (Coord 8 7)
     (path (getPath (field picked_game) (Coord 8 5) (Coord 8 7))) = true ∧
   ∃ popped, (handleClicks (Coord 8 7) picked_game).2 = Some popped) ∧
  (found (getPath (field picked_game) (Coord 8 5) (Coord 8 7)) = false →
   mouseover (Coord 8 7) picked_game = Some [] ∧
   (handleClicks (Coord 8 7) picked_game).2 = None).
Proof.
  apply (mouseover_previews_click (Coord 8 7) picked_game
           {| ball_id := 77; color := blue |} (Coord 8 5)); reflexivity.
Defined.

(** * The first spawn and the course of a game *)

Lemma children_empty_cells (i j : Z) : children empty_cells i j = [].
Proof.
  unfold children, empty_cells.
  match goal with |- default [] ?o = [] => destruct o as [kids|] eqn:Hk; [|done] end.
  apply bind_Some in Hk as (row & Hrow & Hkids).
  apply lookup_replicate in Hrow as [-> _].
  by apply lookup_replicate in Hkids as [-> _].
Qed.

Lemma field_at_empty_field (k : Coordinates) :
  in_bounds (x k) (y k) = true → field_at empty_field (x k) (y k) = Some 0.
Proof.
  intros Hk%in_bounds_spec. unfold field_at, empty_field, size in *.
  apply bind_Some. exists (replicate (Z.to_nat 9) 0).
  split; apply lookup_replicate_2; lia.
Qed.

Lemma new_game_empty (k : Coordinates) :
  in_bounds (x k) (y k) = true →
  field_at (field new_game) (x k) (y k) = Some 0.
Proof. apply field_at_empty_field. Qed.

(** Three cells do not cover the board. *)
Lemma free_cell (obs : list (Z * Z)) :
  (length obs ≤ 3)%nat →
  ∃ k, in_bounds (x k) (y k) = true ∧ (x k, y k) ∉ obs.
Proof.
  intros Hlen.
  destruct (decide ((0, 0) ∈ obs)) as [H0|H0]; [|by exists (Coord 0 0)].
  destruct (decide ((0, 1) ∈ obs)) as [H1|H1]; [|by exists (Coord 0 1)].
  destruct (decide ((0, 2) ∈ obs)) as [H2|H2]; [|by exists (Coord 0 2)].
  destruct (decide ((0, 3) ∈ obs)) as [H3|H3]; [|by exists (Coord 0 3)].
  exfalso.
  assert (Hsub : [(0, 0); (0, 1); (0, 2); (0, 3)] ⊆+ obs).
  { apply NoDup_submseteq.
    - repeat (constructor; [rewrite ?elem_of_cons, ?elem_of_nil;
                            intros ?; intuition congruence|]). constructor.
    - intros p Hp. repeat (apply elem_of_cons in Hp as [->|Hp]; [done|]).
      by apply elem_of_nil in Hp. }
  apply submseteq_length in Hsub. simpl in Hsub. lia.
Qed.

(** A line of five needs five cells with a ball. *)
Lemma detect_runs_few (c : list (list (list Ball))) (obs : list (Z * Z)) :
  (∀ k, in_bounds (x k) (y k) = true → (x k, y k) ∉ obs →
        children c (x k) (y k) = []) →
  (length obs ≤ 3)%nat → detect_runs c = [].
Proof.
  intros Hout Hlen. apply elem_of_nil_inv. intros k Hk.
  pose proof (detect_runs_five c k Hk) as Hfive.
  assert (Hsub : (λ t, (x t, y t)) <$> detect_runs c ⊆+ obs).
  { apply NoDup_submseteq.
    - apply NoDup_fmap_2; [|apply detect_runs_NoDup].
      intros [a b] [a' b'] [= -> ->]. done.
    - intros p (t & -> & Ht)%list_elem_of_fmap.
      destruct (decide ((x t, y t) ∈ obs)) as [Hin|Hnot]; [done|exfalso].
      pose proof (detect_runs_in_bounds c t Ht) as Hb.
      apply detect_runs_elem in Ht as (s & d & col & i & _ & Hw & Hi & ->).
      destruct (Hw i Hi) as [_ Hcol]. rewrite ballColors_eq in Hcol.
      rewrite (Hout _ Hb Hnot) in Hcol. discriminate Hcol. }
  apply submseteq_length in Hsub. rewrite length_fmap in Hsub. lia.
Qed.

(** On an empty board the first draw places a ball. *)
Lemma spawn_first_step (rnd : nat → nat) (s s' : Spawn) :
  (obstacles s = [] → 0 < sp_i s ∧
     ∀ k, in_bounds (x k) (y k) = true →
          field_at (field (sp_game s)) (x k) (y k) = Some 0) →
  randomCells_body rnd s = inl s' →
  (obstacles s' = [] → 0 < sp_i s' ∧
     ∀ k, in_bounds (x k) (y k) = true →
          field_at (field (sp_game s')) (x k) (y k) = Some 0).
Proof.
  rewrite randomCells_body_cases. cbv zeta. intros Hinv.
  destruct (draw_rest rnd (sp_game s)) as (Ef & _).
  pose proof (draw_in_bounds rnd (sp_game s)) as Hin.
  destruct (draw rnd (sp_game s)) as [[r0 r1] g2]. cbn [fst snd] in *.
  destruct (sp_i s <=? 0); [done|].
  case_bool_decide as Hfree.
  - intros [= <-]. cbn [obstacles]. by intros [_ ?]%app_eq_nil.
  - assert (Hobs : obstacles s ≠ []).
    { intros He. destruct (Hinv He) as [_ Hall].
      apply Hfree. rewrite Ef. exact (Hall (Coord r0 r1) Hin). }
    destruct (tryCounter s >? size * size).
    + destruct (emptyCells _ =? 0); [done|]. by intros [= <-].
    + by intros [= <-].
Qed.

Lemma spawn_first (rnd : nat → nat) (g : Game) (s : Spawn) :
  (∀ k, in_bounds (x k) (y k) = true →
        field_at (field g) (x k) (y k) = Some 0) →
  randomCells_loop rnd g = inr (loop_done s) ∨
  randomCells_loop rnd g = inr (game_over s) →
  obstacles s ≠ [].
Proof.
  intros Hempty Hl.
  destruct (randomCells_loop_nat rnd g) as (r & Hn & Hr).
  destruct (iter_nat_inv (randomCells_body rnd) _
              (spawn_first_step rnd) 336%nat (spawn0 g) r) as (s' & Hinv & Hb).
  { intros _. split; [done|exact Hempty]. }
  { exact Hn. }
  assert (Hrs : r = loop_done s ∨ r = game_over s)
    by (destruct Hl as [Hl|Hl]; rewrite Hr in Hl; injection Hl as ->; auto).
  revert Hb. rewrite randomCells_body_cases. cbv zeta.
  destruct (draw_rest rnd (sp_game s')) as (Ef & _).
  pose proof (draw_in_bounds rnd (sp_game s')) as Hin.
  destruct (draw rnd (sp_game s')) as [[r0 r1] g2]. cbn [fst snd] in *.
  destruct (sp_i s' <=? 0) eqn:Hle.
  - intros [= <-]. destruct Hrs as [[= <-]|[=]].
    intros He. destruct (Hinv He) as [Hpos _]. apply Z.leb_le in Hle. lia.
  - case_bool_decide as Hfree; [done|].
    destruct (tryCounter s' >? size * size); [|done].
    destruct (emptyCells _ =? 0); [|done].
    intros [= <-]. destruct Hrs as [[=]|[= <-]]. cbn [obstacles].
    intros He. destruct (Hinv He) as [_ Hall].
    apply Hfree. rewrite Ef. exact (Hall (Coord r0 r1) Hin).
Qed.

Lemma bind_length_filter {A B} (P : A → Prop) `{!∀ a, Decision (P a)}
    (f : A → list B) (l : list A) :
  (∀ a, a ∈ l → length (f a) = if decide (P a) then 1%nat else 0%nat) →
  length (l ≫= f) = length (filter P l).
Proof.
  induction l as [|a l IH]; intros Hf; [done|].
  rewrite bind_cons, length_app, filter_cons, (Hf a) by left.
  rewrite IH by (intros; apply Hf; by right). by case_decide.
Qed.

(** The cells of the board that are listed in [obs], a list of distinct
    cells of the board, are as many as [obs] is long. *)
Lemma filter_cells_length (obs : list (Z * Z)) :
  NoDup obs → (∀ r0 r1, (r0, r1) ∈ obs → in_bounds r0 r1 = true) →
  length (filter (λ k, (x k, y k) ∈ obs) all_cells) = length obs.
Proof.
  intros Hnd Hin.
  rewrite <- (length_fmap (λ k, (x k, y k))).
  apply Permutation_length, NoDup_Permutation; [|done|].
  - apply NoDup_fmap_2; [|apply list.NoDup_filter, NoDup_all_cells].
    intros [a b] [a' b'] [= -> ->]. done.
  - intros [r0 r1]. rewrite list_elem_of_fmap. split.
    + intros (k & -> & [Hk _]%list_elem_of_filter). done.
    + intros Hp. exists (Coord r0 r1). split; [done|].
      apply list_elem_of_filter. split; [done|]. apply elem_of_all_cells.
      by apply Hin.
Qed.

(** When the placement loop is run on the empty board: what the cells
    hold afterwards. *)
Lemma first_cells (rnd : nat → nat) (s : Spawn) (k : Coordinates) :
  spawn_rel new_game s → in_bounds (x k) (y k) = true →
  length (children (cells (sp_game s)) (x k) (y k))
  = if decide ((x k, y k) ∈ obstacles s) then 1%nat else 0%nat.
Proof.
  intros Hrel Hk. case_decide as Hin.
  - apply list_elem_of_lookup in Hin as [n Hn].
    destruct (sr_color _ _ Hrel eq_refl n _ _ Hn) as (b & -> & _).
    change (cells new_game) with empty_cells.
    by rewrite children_empty_cells.
  - destruct (sr_other _ _ Hrel _ _ Hk Hin) as [_ ->].
    change (cells new_game) with empty_cells.
    by rewrite children_empty_cells.
Qed.

Lemma randomCells_no_line (rnd : nat → nat) (g : Game) :
  field_ok (field g) = true → cells_ok (cells g) = true →
  ended (randomCells rnd g) = false →
  detect_runs (cells (randomCells rnd g)) = [].
Proof.
  intros Hf Hc.
  destruct (randomCells_loop_spec rnd g)
    as [(s & Hl & Hrel & _)|(s & Hl & Hrel & Hend & _)].
  - rewrite (randomCells_done rnd g s Hl). intros _. apply popFives_clears.
    + rewrite refill_spec. cbn [field]. exact (sr_field_ok _ _ Hrel Hf).
    + rewrite refill_spec. cbn [cells]. exact (sr_cells_ok _ _ Hrel Hc).
  - rewrite (randomCells_over rnd g s Hl), Hend. discriminate.
Qed.

(** X23. When the page is loaded, the first spawn puts between one and
    three balls on the empty board; the score is 0, the game is not
    over, no line of five stands on the board, three colours are queued
    for the next spawn, and the game is well formed. *)
Theorem first_spawn_spec (rnd : nat → nat) :
  (1 ≤ length (balls (cells (first_spawn rnd))) ≤ 3)%nat ∧
  points (first_spawn rnd) = 0 ∧
  ended (first_spawn rnd) = false ∧
  detect_runs (cells (first_spawn rnd)) = [] ∧
  length (nextColors (first_spawn rnd)) = Z.to_nat ballCount ∧
  game_ok (first_spawn rnd) = true.
Proof.
  assert (Hok : game_ok (first_spawn rnd) = true).
  { apply randomCells_keeps; [|reflexivity..].
    by apply game_ok_spec. }
  unfold first_spawn in *.
  destruct (randomCells_loop_spec rnd new_game)
    as [(s & Hl & Hrel & _ & Hend)|(s & Hl & Hrel & _ & Hfull)].
  - pose proof (sr_left _ _ Hrel) as [Hi Hlen]. unfold ballCount in Hlen.
    assert (Hobs : obstacles s ≠ []).
    { apply (spawn_first rnd new_game s); [|by left].
      exact new_game_empty. }
    assert (Hruns : detect_runs (cells (refill rnd (sp_game s))) = []).
    { apply (detect_runs_few _ (obstacles s)); [|lia].
      intros k Hk Hout. rewrite refill_spec. cbn [cells].
      pose proof (first_cells rnd s k Hrel Hk) as Hkids.
      rewrite decide_False in Hkids by done.
      by destruct (children (cells (sp_game s)) (x k) (y k)). }
    assert (Hfree : (emptyCells (field (refill rnd (sp_game s))) =? 0) = false).
    { apply Z.eqb_neq. rewrite refill_spec. cbn [field].
      destruct (free_cell (obstacles s)) as (k & Hk & Hout); [lia|].
      destruct (sr_other _ _ Hrel _ _ Hk Hout) as [Hfk _].
      rewrite (new_game_empty k Hk) in Hfk.
      apply emptyCells_pos in Hfk. lia. }
    assert (Hres : randomCells rnd new_game = refill rnd (sp_game s)).
    { rewrite (randomCells_done rnd new_game s Hl), popFives_quiet.
      - by rewrite Hfree.
      - rewrite refill_spec. cbn [field]. exact (sr_field_ok _ _ Hrel eq_refl).
      - exact Hruns. }
    rewrite Hres in *.
    assert (Hballs : length (balls (cells (refill rnd (sp_game s))))
                     = length (obstacles s)).
    { rewrite refill_spec. cbn [cells]. unfold balls.
      rewrite (bind_length_filter (λ k, (x k, y k) ∈ obstacles s)).
      - apply filter_cells_length; [exact (sr_nodup _ _ Hrel)|].
        intros r0 r1 Hin. by destruct (sr_placed _ _ Hrel r0 r1 Hin).
      - intros k Hk%elem_of_all_cells. by apply first_cells. }
    split_and!.
    + rewrite Hballs. destruct (obstacles s); [done|]. simpl length. lia.
    + rewrite Hballs. lia.
    + rewrite refill_spec. cbn [points]. exact (sr_points _ _ Hrel).
    + rewrite refill_spec. cbn [ended]. exact Hend.
    + exact Hruns.
    + by rewrite refill_spec.
    + exact Hok.
  - exfalso. pose proof (sr_left _ _ Hrel) as [Hi Hlen]. unfold ballCount in Hlen.
    destruct (free_cell (obstacles s)) as (k & Hk & Hout); [lia|].
    destruct (sr_other _ _ Hrel _ _ Hk Hout) as [Hfk _].
    rewrite (new_game_empty k Hk) in Hfk.
    apply emptyCells_pos in Hfk. lia.
Qed.

(** ** The course of a game *)

(** What holds between two clicks: the game is well formed and, while
    it is not over, no line of five stands on the board. *)
Lemma turn_keeps (rnd : nat → nat) (coords : Coordinates) (g : Game) :
  in_bounds (x coords) (y coords) = true →
  game_ok g = true ∧ (ended g = false → detect_runs (cells g) = []) →
  game_ok (turn rnd coords g) = true ∧
  (ended (turn rnd coords g) = false →
   detect_runs (cells (turn rnd coords g)) = []).
Proof.
  intros Hcoords [Hok Hline]. unfold turn.
  destruct (ended g) eqn:Hended; [split; [done|congruence]|].
  specialize (Hline eq_refl).
  pose proof Hok as [(Hb & _) Hsel]%game_ok_spec.
  pose proof Hb as (Hf & Hc & _)%board_ok_spec.
  destruct (head (children (cells g) (x coords) (y coords))) as [ball|] eqn:Hhead.
  { unfold handleClicks. rewrite Hhead. case_bool_decide.
    - split; [by apply game_ok_deselect|]. intros _. exact Hline.
    - destruct (checkMovement g ball).
      + split; [by apply game_ok_select|]. intros _. exact Hline.
      + split; [exact Hok|]. intros _. exact Hline. }
  destruct (selected g) as [sel|] eqn:Es; cycle 1.
  { unfold handleClicks. rewrite Hhead, Es.
    split; [exact Hok|]. intros _. exact Hline. }
  destruct (selectedIndex g) as [idx|] eqn:Ei; cycle 1.
  { unfold handleClicks. rewrite Hhead, Es, Ei.
    split; [exact Hok|]. intros _. exact Hline. }
  destruct (found (getPath (field g) idx coords)) eqn:Hfound; cycle 1.
  { unfold handleClicks. rewrite Hhead, Es, Ei, Hfound.
    split; [by apply game_ok_deselect|]. intros _. exact Hline. }
  rewrite (handleClicks_move_eq coords g sel idx Hhead Es Ei Hfound).
  pose proof (game_ok_moved g sel idx coords Hok Hcoords Hhead Es Ei) as Hok1.
  assert (Hf1 : field_ok (field (moved g sel idx coords)) = true).
  { unfold moved. cbn [field]. apply field_ok_field_set; [by left|].
    by apply field_ok_field_set; [right|]. }
  assert (Hc1 : cells_ok (cells (moved g sel idx coords)) = true).
  { unfold moved. cbn [cells]. by apply cells_ok_appendChild. }
  pose proof (popFives_clears _ Hf1 Hc1) as Hclear.
  pose proof (popFives_field_ok _ Hf1) as Hf2.
  pose proof (popFives_cells_ok _ Hc1) as Hc2.
  generalize dependent (popFives (moved g sel idx coords)).
  intros [g2 popped]. cbn [fst snd]. intros Hok1 Hclear Hf2 Hc2.
  unfold handleClicks_timeout. destruct popped.
  - split; [exact Hok1|]. intros _. exact Hclear.
  - split.
    + apply randomCells_keeps; [|reflexivity..].
      by apply game_ok_spec in Hok1 as [? _].
    + by apply randomCells_no_line.
Qed.

(** X24. Through a whole game (the first spawn, then any clicks on
    cells of the board, each with the timer callback it sets) the game
    stays well formed, and while it is not over no line of five stands
    on the board between two clicks. *)
Theorem play_invariants (rnd : nat → nat) (clicks : list Coordinates) :
  Forall (λ c, in_bounds (x c) (y c) = true) clicks →
  game_ok (play rnd clicks) = true ∧
  (ended (play rnd clicks) = false → detect_runs (cells (play rnd clicks)) = []).
Proof.
  intros Hclicks. unfold play.
  assert (H0 : game_ok (first_spawn rnd) = true ∧
               (ended (first_spawn rnd) = false →
                detect_runs (cells (first_spawn rnd)) = [])).
  { split; [|by apply randomCells_no_line].
    apply randomCells_keeps; [|reflexivity..]. by apply game_ok_spec. }
  generalize dependent (first_spawn rnd).
  induction Hclicks as [|c clicks Hc _ IH]; intros g H0; cbn [foldl]; [done|].
  apply IH. by apply turn_keeps.
Qed.

Lemma play_invariants_witness :
  game_ok (play diagonal_draws [Coord 0 0; Coord 5 5]) = true ∧
  (ended (play diagonal_draws [Coord 0 0; Coord 5 5]) = false →
   detect_runs (cells (play diagonal_draws [Coord 0 0; Coord 5 5])) = []).
Proof.
  apply (play_invariants diagonal_draws [Coord 0 0; Coord 5 5]).
  repeat constructor.
Defined.

(** X25. [randomCells], called while no ball is selected (as it is from
    the timer and at the load of the page), keeps a game well formed. *)
Theorem randomCells_game_ok (rnd : nat → nat) (g : Game) :
  game_ok g = true → selected g = None → game_ok (randomCells rnd g) = true.
Proof.
  intros [Hs Hsel]%game_ok_spec Hnone.
  apply randomCells_keeps; [exact Hs|exact Hnone|].
  by apply selection_ok_index.
Qed.

Lemma randomCells_game_ok_witness :
  game_ok (randomCells low_draws crowded_game) = true.
Proof.
  apply (randomCells_game_ok low_draws crowded_game); reflexivity.
Defined.

(** * How the number of empty cells changes *)

Lemma sweep_list_shape_field (l : list Coordinates) (g : Game) :
  shape_ok (field g) = true →
  shape_ok (field (foldl sweep_cell g l)) = true.
Proof.
  revert g; induction l as [|a l IH]; intros g Hf; cbn [foldl]; [done|].
  apply IH. unfold sweep_cell. case_bool_decide; [|done]. cbn [field].
  by apply shape_ok_field_set.
Qed.

Lemma popFives_shape_field (g : Game) :
  shape_ok (field g) = true → shape_ok (field (popFives g).1) = true.
Proof.
  intros Hf. rewrite popFives_fst, field_end_if, sweep_all_cells.
  apply sweep_list_shape_field. rewrite field_with_field.
  by apply shape_ok_mark.
Qed.

(** X26. On a consistent 9x9 board [popFives] frees exactly the cells
    of its clear-set: the count of empty cells grows by their number,
    which is also what the score grows by. *)
Theorem popFives_frees_cells (g : Game) :
  board_ok g = true → shape_ok (field g) = true →
  emptyCells (field (popFives g).1)
  = emptyCells (field g) + Z.of_nat (length (detect_runs (cells g))) ∧
  emptyCells (field (popFives g).1) - emptyCells (field g)
  = points (popFives g).1 - points g.
Proof.
  intros (Hf & Hc & Hall)%board_ok_spec Hs.
  assert (Hcount : emptyCells (field (popFives g).1)
            = emptyCells (field g) + Z.of_nat (length (detect_runs (cells g)))).
  { apply emptyCells_add.
    - exact Hs.
    - by apply popFives_shape_field.
    - apply detect_runs_NoDup.
    - intros k Hk. pose proof (detect_runs_in_bounds (cells g) k Hk) as Hb.
      split; [exact Hb|]. rewrite (Hall k Hb).
      apply detect_runs_elem in Hk as (s & d & col & i & _ & Hw & Hi & ->).
      destruct (Hw i Hi) as [_ Hcol]. rewrite ballColors_eq in Hcol.
      destruct (children (cells g) _ _); [discriminate Hcol|]. simpl.
      intros Hz. discriminate Hz.
    - intros k Hk. destruct (decide (k ∈ detect_runs (cells g))) as [Hin|Hout].
      + rewrite (popFives_field_in g k Hf Hin). tauto.
      + rewrite (popFives_field_out g k Hf Hk Hout). tauto. }
  split; [exact Hcount|]. rewrite Hcount, (popFives_points g Hf). lia.
Qed.

Lemma popFives_frees_cells_witness :
  emptyCells (field (popFives (row_of_five red)).1)
  = emptyCells (field (row_of_five red))
    + Z.of_nat (length (detect_runs (cells (row_of_five red)))) ∧
  emptyCells (field (popFives (row_of_five red)).1)
  - emptyCells (field (row_of_five red))
  = points (popFives (row_of_five red)).1 - points (row_of_five red).
Proof. apply (popFives_frees_cells (row_of_five red)); reflexivity. Defined.

(** X27. On a 9x9 field the placement loop of [randomCells] takes one
    empty cell per ball placed: the count of empty cells drops by the
    number of balls placed, at most [ballCount]. *)
Theorem spawn_takes_cells (rnd : nat → nat) (g : Game) :
  shape_ok (field g) = true →
  ∃ s, (randomCells_loop rnd g = inr (loop_done s) ∨
        randomCells_loop rnd g = inr (game_over s)) ∧
       emptyCells (field g)
       = emptyCells (field (sp_game s)) + Z.of_nat (length (obstacles s)) ∧
       Z.of_nat (length (obstacles s)) ≤ ballCount.
Proof.
  intros Hs.
  assert (Hshape : ∀ s, spawn_rel g s → shape_ok (field (sp_game s)) = true →
            emptyCells (field g)
            = emptyCells (field (sp_game s)) + Z.of_nat (length (obstacles s))).
  { intros s Hrel Hs'.
    rewrite <- (length_fmap (λ p : Z * Z, Coord p.1 p.2) (obstacles s)).
    apply emptyCells_add; [exact Hs'|exact Hs| | |].
    - apply NoDup_fmap_2; [|exact (sr_nodup _ _ Hrel)].
      intros [a b] [a' b'] [= -> ->]. done.
    - intros k ([r0 r1] & -> & Hin)%list_elem_of_fmap. cbn [x y fst snd].
      destruct (sr_placed _ _ Hrel r0 r1 Hin) as (Hb & _ & H1).
      split; [exact Hb|]. rewrite H1. discriminate.
    - intros k Hk. destruct (decide ((x k, y k) ∈ obstacles s)) as [Hin|Hout].
      + destruct (sr_placed _ _ Hrel _ _ Hin) as (_ & H0 & _). split; [|done].
        intros _. right. apply list_elem_of_fmap. exists (x k, y k).
        split; [by destruct k|done].
      + destruct (sr_other _ _ Hrel _ _ Hk Hout) as [-> _]. split; [by left|].
        intros [Hz|([r0 r1] & -> & Hin)%list_elem_of_fmap]; [done|].
        by destruct Hout. }
  (* the field keeps its shape through the loop *)
  assert (Hkeep : ∀ s, (randomCells_loop rnd g = inr (loop_done s) ∨
                        randomCells_loop rnd g = inr (game_over s)) →
            shape_ok (field (sp_game s)) = true).
  { intros s Hl.
    destruct (randomCells_loop_nat rnd g) as (r & Hn & Hr).
    destruct (iter_nat_inv (randomCells_body rnd)
                (λ s, shape_ok (field (sp_game s)) = true))
      with (n := 336%nat) (s := spawn0 g) (r := r) as (s' & Hk & Hb);
      [|exact Hs|exact Hn|].
    - intros s1 s2 H1. rewrite randomCells_body_cases. cbv zeta.
      destruct (draw_rest rnd (sp_game s1)) as (Ef & _).
      destruct (draw rnd (sp_game s1)) as [[r0 r1] g2]. cbn [fst snd] in *.
      destruct (sp_i s1 <=? 0); [done|]. case_bool_decide.
      + intros [= <-]. cbn [sp_game]. rewrite place_field, Ef.
        by apply shape_ok_field_set.
      + destruct (tryCounter s1 >? size * size).
        * destruct (emptyCells _ =? 0); [done|]. intros [= <-]. cbn [sp_game].
          by rewrite Ef.
        * intros [= <-]. cbn [sp_game]. by rewrite Ef.
    - assert (Hrs : r = loop_done s ∨ r = game_over s)
        by (destruct Hl as [Hl|Hl]; rewrite Hr in Hl; injection Hl as ->; auto).
      revert Hb. rewrite randomCells_body_cases. cbv zeta.
      destruct (draw_rest rnd (sp_game s')) as (Ef & _).
      destruct (draw rnd (sp_game s')) as [[r0 r1] g2]. cbn [fst snd] in *.
      destruct (sp_i s' <=? 0).
      + intros [= <-]. destruct Hrs as [[= <-]|[=]]. exact Hk.
      + case_bool_decide; [done|].
        destruct (tryCounter s' >? size * size); [|done].
        destruct (emptyCells _ =? 0); [|done].
        intros [= <-]. destruct Hrs as [[=]|[= <-]]. cbn [sp_game Game_end field].
        by rewrite Ef. }
  destruct (randomCells_loop_spec rnd g)
    as [(s & Hl & Hrel & _)|(s & Hl & Hrel & _)]; exists s;
    pose proof (sr_left _ _ Hrel) as [? ?];
    (split_and!; [auto|apply Hshape; [exact Hrel|apply Hkeep; auto]|lia]).
Qed.

Lemma spawn_takes_cells_witness :
  ∃ s, (randomCells_loop lined_draws3 lined_game3 = inr (loop_done s) ∨
        randomCells_loop lined_draws3 lined_game3 = inr (game_over s)) ∧
       emptyCells (field lined_game3)
       = emptyCells (field (sp_game s)) + Z.of_nat (length (obstacles s)) ∧
       Z.of_nat (length (obstacles s)) ≤ ballCount.
Proof. apply (spawn_takes_cells lined_draws3 lined_game3). reflexivity. Defined.
